(** * pkg/ovsdb/transact.go: the OVSDB transaction engine over etcd

    A shallow embedding of the transaction executor of ovsdb-etcd and the
    properties of its value equality, conditions, mutation algebra, named
    uuids, row cache, backend buffer, change-event compaction, dispatch and
    locking.

    Conventions of the embedding:
    - a Go [int] is a [Z] wrapped to 64 bits, a [float64] is a primitive
      binary64 float, a [string] is a [string];
    - a Go [map] is a [gmap]; ranging over it visits [map_to_list] (Go leaves
      the order unspecified, the properties below do not depend on it);
    - a nil pointer is [None], the nil interface is [VNil];
    - a function that returns an error returns an [outcome]: a value, an
      error, or a panic; where the state must be kept next to the error, the
      result is an [option] whose [None] is the panic, and the error is an
      [option string] ([None] is the nil error);
    - a function that writes through a pointer returns what is behind the
      pointer after the call. *)

From Stdlib Require Import ZArith Floats.
From stdpp Require Import base option list gmap strings pretty.

#[local] Set Warnings "-register-all,-clear-no-such-hyp".

Local Open Scope string_scope.
Local Open Scope list_scope.
Local Open Scope Z_scope.

(** ** Error strings *)

Definition E_DUP_UUIDNAME : string := "duplicate uuid-name".
Definition E_CONSTRAINT_VIOLATION : string := "constraint violation".
Definition E_DOMAIN_ERROR : string := "domain error".
Definition E_RANGE_ERROR : string := "range error".
Definition E_TIMEOUT : string := "timed out".
Definition E_NOT_SUPPORTED : string := "not supported".
Definition E_ABORTED : string := "aborted".
Definition E_NOT_OWNER : string := "not owner".
Definition E_INTEGRITY_VIOLATION : string := "referential integrity violation".
Definition E_RESOURCES_EXHAUSTED : string := "resources exhausted".
Definition E_IO_ERROR : string := "I/O error".
Definition E_DUP_UUID : string := "duplicate uuid".
Definition E_INTERNAL_ERROR : string := "internal error".
Definition E_OVSDB_ERROR : string := "ovsdb error".
Definition E_PERMISSION_ERROR : string := "permission error".
Definition E_SYNTAX_ERROR : string := "syntax error or unknown column".

(** A returned Go [error]: [None] is nil. *)
Definition error : Type := option string.

(** ** Typed values

    The dynamic types that an [interface{}] of a row holds.  [MapKey] are the
    base values that key a Go map here (int, bool, string, libovsdb.UUID);
    a float64 key is left out of the model, since Go compares map keys with
    [==] (a NaN key is never found, the two zeros coincide). *)

Inductive MapKey : Type :=
  | KInt (n : Z)
  | KBool (b : bool)
  | KString (s : string)
  | KUUID (GoUUID : string).

Inductive Base : Type :=
  | BKey (k : MapKey)
  | BReal (f : float).

#[global] Instance MapKey_eq_dec : EqDecision MapKey.
Proof. solve_decision. Defined.

Definition MapKey_enc (k : MapKey) : Z + bool + string + string :=
  match k with
  | KInt n => inl (inl (inl n))
  | KBool b => inl (inl (inr b))
  | KString s => inl (inr s)
  | KUUID u => inr u
  end.

Definition MapKey_dec (x : Z + bool + string + string) : MapKey :=
  match x with
  | inl (inl (inl n)) => KInt n
  | inl (inl (inr b)) => KBool b
  | inl (inr s) => KString s
  | inr u => KUUID u
  end.

#[global] Instance MapKey_countable : Countable MapKey.
Proof.
  apply (inj_countable' MapKey_enc MapKey_dec). by intros [].
Defined.

(** What an [interface{}] of the engine holds: nil, a base value,
    libovsdb.OvsSet{GoSet}, libovsdb.OvsMap{GoMap}, or a slice of interfaces
    (the wire form of a value that came from JSON and was not unmarshaled,
    and the triples of conditions and mutations). *)
Inductive Value : Type :=
  | VNil
  | VBase (b : Base)
  | VSet (GoSet : list Base)
  | VMap (GoMap : gmap MapKey Base)
  | VSlice (l : list Value).

Abbreviation VInt n := (VBase (BKey (KInt n))).
Abbreviation VBool b := (VBase (BKey (KBool b))).
Abbreviation VString s := (VBase (BKey (KString s))).
Abbreviation VUUID u := (VBase (BKey (KUUID u))).
Abbreviation VReal f := (VBase (BReal f)).

(** map[string]interface{} *)
Abbreviation Row := (gmap string Value).

(** [row[column]] through the row pointer: a missing key reads as the nil
    interface. *)
Definition rowGet (row : Row) (column : string) : Value :=
  default VNil (row !! column).

(** ** Value equality *)

(** reflect.DeepEqual on two base values: same dynamic type and Go's [==]. *)
Definition deepEqualBase (x y : Base) : bool :=
  match x, y with
  | BKey k1, BKey k2 => bool_decide (k1 = k2)
  | BReal f1, BReal f2 => PrimFloat.eqb f1 f2
  | _, _ => false
  end.

Fixpoint deepEqualList (l1 l2 : list Base) : bool :=
  match l1, l2 with
  | [], [] => true
  | x :: l1, y :: l2 => deepEqualBase x y && deepEqualList l1 l2
  | _, _ => false
  end.

(** reflect.DeepEqual on maps: same length, every key of the first bound in
    the second to a deeply equal value. *)
Definition deepEqualMap (m1 m2 : gmap MapKey Base) : bool :=
  bool_decide (size m1 = size m2) &&
  forallb (fun kv => match m2 !! kv.1 with
                     | Some v2 => deepEqualBase kv.2 v2
                     | None => false
                     end) (map_to_list m1).

(** isEqualValue: reflect.DeepEqual.  (The model does not tell a nil slice
    or map from an empty one, which DeepEqual does.) *)
Fixpoint isEqualValue (expected actual : Value) : bool :=
  match expected, actual with
  | VNil, VNil => true
  | VBase x, VBase y => deepEqualBase x y
  | VSet s1, VSet s2 => deepEqualList s1 s2
  | VMap m1, VMap m2 => deepEqualMap m1 m2
  | VSlice l1, VSlice l2 =>
      (fix go (l1 l2 : list Value) : bool :=
         match l1, l2 with
         | [], [] => true
         | x :: l1, y :: l2 => isEqualValue x y && go l1 l2
         | _, _ => false
         end) l1 l2
  | _, _ => false
  end.

(** The inner loop of isEqualSet: [foundVal] after ranging over the actual
    set. *)
Definition isEqualSet_found (expectedVal : Base) (actualSet : list Base) : bool :=
  foldl (fun foundVal actualVal =>
           if isEqualValue (VBase expectedVal) (VBase actualVal) then true else foundVal)
        false actualSet.

(** The outer loop: return false at the first expected value not found. *)
Fixpoint isEqualSet_loop (expectedSet actualSet : list Base) : bool :=
  match expectedSet with
  | [] => true
  | expectedVal :: rest =>
      if negb (isEqualSet_found expectedVal actualSet) then false
      else isEqualSet_loop rest actualSet
  end.

(** isEqualSet; the two type assertions panic on a value that is not an
    OvsSet. *)
Definition isEqualSet (expected actual : Value) : option bool :=
  match expected, actual with
  | VSet expectedSet, VSet actualSet => Some (isEqualSet_loop expectedSet actualSet)
  | _, _ => None
  end.

Fixpoint isEqualMap_loop (entries : list (MapKey * Base)) (actualMap : gmap MapKey Base) : bool :=
  match entries with
  | [] => true
  | (key, expectedVal) :: rest =>
      match actualMap !! key with
      | None => false
      | Some actualVal =>
          if negb (isEqualValue (VBase expectedVal) (VBase actualVal)) then false
          else isEqualMap_loop rest actualMap
      end
  end.

(** isEqualMap *)
Definition isEqualMap (expected actual : Value) : option bool :=
  match expected, actual with
  | VMap expectedMap, VMap actualMap =>
      Some (isEqualMap_loop (map_to_list expectedMap) actualMap)
  | _, _ => None
  end.

(** isEqualColumn, by the column's schema type (the type tags of libovsdb). *)
Inductive ColumnTypeTag : Type :=
  | TypeInteger | TypeReal | TypeBoolean | TypeString | TypeUUID
  | TypeEnum | TypeSet | TypeMap.

Definition isEqualColumn (columnType : ColumnTypeTag) (expected actual : Value) : option bool :=
  match columnType with
  | TypeSet => isEqualSet expected actual
  | TypeMap => isEqualMap expected actual
  | _ => Some (isEqualValue expected actual)
  end.

(** ** The backend transaction buffer *)

(** clientv3.Op as built by OpGet(key, WithPrefix()), OpPut(key, val) and
    OpDelete(key). *)
Inductive OpType : Type := tRange | tPut | tDeleteRange.

Record Op : Type := mkOp {
  op_t : OpType;
  op_key : string;
  op_val : string;
  op_prefix : bool
}.

Definition OpGet_WithPrefix (key : string) : Op := mkOp tRange key "" true.
Definition OpPut (key val : string) : Op := mkOp tPut key val false.
Definition OpDelete (key : string) : Op := mkOp tDeleteRange key "" false.

(** mvccpb.KeyValue, mvccpb.Event *)
Record KeyValue : Type := mkKeyValue {
  kv_Key : string;
  kv_Value : string;
  kv_CreateRevision : Z;
  kv_ModRevision : Z
}.

Inductive EventType : Type := PUT | DELETE.

Record Event : Type := mkEvent {
  ev_Type : EventType;
  ev_Kv : option KeyValue;
  ev_PrevKv : option KeyValue
}.

#[global] Instance OpType_eq_dec : EqDecision OpType.
Proof. solve_decision. Defined.
#[global] Instance Op_eq_dec : EqDecision Op.
Proof. solve_decision. Defined.
#[global] Instance KeyValue_eq_dec : EqDecision KeyValue.
Proof. solve_decision. Defined.
#[global] Instance EventType_eq_dec : EqDecision EventType.
Proof. solve_decision. Defined.
#[global] Instance Event_eq_dec : EqDecision Event.
Proof. solve_decision. Defined.

(** etcdserverpb.ResponseOp and clientv3.TxnResponse, as far as the engine
    reads them. *)
Inductive ResponseOp : Type :=
  | ResponseRange (Kvs : list KeyValue)
  | ResponsePut
  | ResponseDeleteRange.

Record TxnResponse : Type := mkTxnResponse {
  Revision : Z;
  Responses : list ResponseOp
}.

(** The Etcd struct without its client and context handles; the compare
    list [If] is never filled, so only its length is kept. *)
Record Etcd : Type := mkEtcd {
  If : list unit;
  Then : list Op;
  Else : list Op;
  Res : option TxnResponse;
  EventsNilCount : Z;
  Events : list (option Event)
}.

Definition set_Then (t : list Op) (e : Etcd) : Etcd :=
  mkEtcd (If e) t (Else e) (Res e) (EventsNilCount e) (Events e).
Definition set_Events (evs : list (option Event)) (e : Etcd) : Etcd :=
  mkEtcd (If e) (Then e) (Else e) (Res e) (EventsNilCount e) evs.
Definition set_EventsNilCount (n : Z) (e : Etcd) : Etcd :=
  mkEtcd (If e) (Then e) (Else e) (Res e) n (Events e).
Definition set_Res (r : option TxnResponse) (e : Etcd) : Etcd :=
  mkEtcd (If e) (Then e) (Else e) r (EventsNilCount e) (Events e).

(** Go's [len]. *)
Definition len {A} (l : list A) : Z := Z.of_nat (length l).

(** Etcd.Assert: panics unless #then = #events + #events-nil. *)
Definition Etcd_Assert (etcd : Etcd) : option unit :=
  if bool_decide (len (Then etcd) ≠ len (Events etcd) + EventsNilCount etcd)
  then None else Some tt.

(** Etcd.Clear *)
Definition Etcd_Clear (etcd : Etcd) : option Etcd :=
  let etcd := mkEtcd [] [] [] None 0 [] in
  _ ← Etcd_Assert etcd; Some etcd.

(** ** Splitting the buffer *)

Definition ETCD_MAX_TXN_OPS : Z := 128.

(** NewEtcd: a buffer with the handles of its parent and nothing else. *)
Definition NewEtcd (parent : Etcd) : Etcd := mkEtcd [] [] [] None 0 [].

(** One iteration of the loop of Etcd.Split: [split] holds the children that
    are full, [child] is the last child, which the slice also points to. *)
Definition Etcd_Split_body (etcd : Etcd) (st : list Etcd * Etcd) (op : Op)
  : list Etcd * Etcd :=
  let '(split, child) := st in
  let child := set_Then (Then child ++ [op]) child in
  if bool_decide (len (Then child) = ETCD_MAX_TXN_OPS)
  then (split ++ [child], NewEtcd etcd)
  else (split, child).

(** Etcd.Split: the writes of the buffer in children of at most
    ETCD_MAX_TXN_OPS writes. *)
Definition Etcd_Split (etcd : Etcd) : list Etcd :=
  let '(split, child) := foldl (Etcd_Split_body etcd) ([], NewEtcd etcd) (Then etcd) in
  split ++ [child].

(** ** Change-event compaction *)

Definition etcdOpKey (op : Op) : string := op_key op.

(** A [for i := range] loop over the indices of a slice whose body may
    panic. *)
Fixpoint rangeLoop {S : Type} (body : S → nat → option S) (st : S) (indices : list nat)
  : option S :=
  match indices with
  | [] => Some st
  | i :: rest => st ← body st i; rangeLoop body st rest
  end.

(** The second loop of etcdRemoveDupThen: the state is the slice of
    pointers [newThen] and the map [prevKeyIndex]. *)
Definition etcdRemoveDupThen_body (st : list (option Op) * gmap string nat) (curr : nat)
  : option (list (option Op) * gmap string nat) :=
  let '(newThen, prevKeyIndex) := st in
  match newThen !! curr with
  | Some (Some op) =>
      let key := etcdOpKey op in
      let newThen :=
        match prevKeyIndex !! key with
        | Some prev => <[prev := None]> newThen
        | None => newThen
        end in
      Some (newThen, <[key := curr]> prevKeyIndex)
  | _ => None
  end.

(** The third loop: the operations whose pointer is not nil. *)
Definition compactNil {A} (l : list (option A)) : list A := omap id l.

Definition etcdRemoveDupThen (etcd : Etcd) : option Etcd :=
  let newThen := (λ op, Some op) <$> Then etcd in
  st ← rangeLoop etcdRemoveDupThen_body (newThen, ∅) (seq 0%nat (length newThen));
  Some (set_Then (compactNil st.1) etcd).

(** etcdEventKey: panics on an event without Kv and PrevKv. *)
Definition etcdEventKey (ev : Event) : option string :=
  match ev_Kv ev with
  | Some kv => Some (kv_Key kv)
  | None =>
      match ev_PrevKv ev with
      | Some kv => Some (kv_Key kv)
      | None => None
      end
  end.

(** etcdEventIsCreate, etcdEventIsModify: a PUT event without Kv is a nil
    dereference. *)
Definition etcdEventIsCreate (ev : Event) : option bool :=
  if bool_decide (ev_Type ev ≠ PUT) then Some false
  else kv ← ev_Kv ev; Some (bool_decide (kv_CreateRevision kv = kv_ModRevision kv)).

Definition etcdEventIsModify (ev : Event) : option bool :=
  if bool_decide (ev_Type ev ≠ PUT) then Some false
  else kv ← ev_Kv ev; Some (bool_decide (kv_CreateRevision kv < kv_ModRevision kv)).

Definition etcdEventCreate (key val : string) : Event :=
  mkEvent PUT (Some (mkKeyValue key val 1 1)) None.

Definition etcdEventModify (key val prevVal : string) : Event :=
  mkEvent PUT (Some (mkKeyValue key val 1 2)) (Some (mkKeyValue key prevVal 1 1)).

Definition etcdEventDelete (key prevVal : string) : Event :=
  mkEvent DELETE None (Some (mkKeyValue key prevVal 1 1)).

Definition etcdEventCreateFromModify (ev : Event) : option Event :=
  kv ← ev_Kv ev; Some (etcdEventCreate (kv_Key kv) (kv_Value kv)).

(** The first loop of etcdRemoveDupEvents: copies the pointers twice and
    counts the nil events. *)
Fixpoint etcdRemoveDupEvents_copy (events : list (option Event))
    (st : list (option Event) * list (option Event) * Z)
  : option (list (option Event) * list (option Event) * Z) :=
  match events with
  | [] => Some st
  | curr :: rest =>
      let '(prevEvents, newEvents, nilCount) := st in
      let prevEvents := prevEvents ++ [curr] in
      let newEvents := newEvents ++ [curr] in
      match curr with
      | None => etcdRemoveDupEvents_copy rest (prevEvents, newEvents, nilCount + 1)
      | Some ev =>
          _ ← etcdEventKey ev;
          etcdRemoveDupEvents_copy rest (prevEvents, newEvents, nilCount)
      end
  end.

(** The second loop: the slot of an event whose key was seen before is first
    overwritten by the fused create (when a modify follows a create) and then
    set to nil. *)
Definition etcdRemoveDupEvents_body (prevEvents : list (option Event))
    (st : list (option Event) * gmap string nat) (i : nat)
  : option (list (option Event) * gmap string nat) :=
  let '(newEvents, prevKeyIndex) := st in
  curr ← newEvents !! i;
  match curr with
  | None => Some st
  | Some curr =>
      key ← etcdEventKey curr;
      newEvents ←
        match prevKeyIndex !! key with
        | Some prevIndex =>
            prev ← prevEvents !! prevIndex;
            isModify ← etcdEventIsModify curr;
            newEvents ←
              (if (isModify : bool) then
                 prev ← prev;
                 isCreate ← etcdEventIsCreate prev;
                 if (isCreate : bool) then
                   created ← etcdEventCreateFromModify curr;
                   Some (<[i := Some created]> newEvents)
                 else Some newEvents
               else Some newEvents);
            Some (<[i := None]> newEvents)
        | None => Some newEvents
        end;
      Some (newEvents, <[key := i]> prevKeyIndex)
  end.

Definition etcdRemoveDupEvents (etcd : Etcd) : option Etcd :=
  copied ← etcdRemoveDupEvents_copy (Events etcd) ([], [], EventsNilCount etcd);
  let '(prevEvents, newEvents, nilCount) := copied in
  st ← rangeLoop (etcdRemoveDupEvents_body prevEvents) (newEvents, ∅)
                 (seq 0%nat (length newEvents));
  Some (set_Events (filter is_Some st.1) (set_EventsNilCount nilCount etcd)).

(** etcdRemoveDup *)
Definition etcdRemoveDup (etcd : Etcd) : option Etcd :=
  etcd ← etcdRemoveDupThen etcd;
  etcd ← etcdRemoveDupEvents etcd;
  _ ← Etcd_Assert etcd;
  Some etcd.

(** ** Outcomes of a Go call

    [Ret a]: returned [a] with a nil error; [Fail e]: returned the error [e];
    [Panic]: did not return. *)
Inductive outcome (A : Type) : Type :=
  | Ret (a : A)
  | Fail (e : string)
  | Panic.
Arguments Ret {A} a.
Arguments Fail {A} e.
Arguments Panic {A}.

Definition obind {A B} (o : outcome A) (k : A → outcome B) : outcome B :=
  match o with
  | Ret a => k a
  | Fail e => Fail e
  | Panic => Panic
  end.

Notation "x ←! c ; k" := (obind c (λ x, k))
  (at level 20, c at level 100, k at level 200, right associativity,
   format "'[' x  ←!  '[' c ']' ;  '/' k ']'").

(** [if err != nil { return errors.New(e) }]: every error is replaced. *)
Definition orElse {A} (o : outcome A) (e : string) : outcome A :=
  match o with
  | Fail _ => Fail e
  | _ => o
  end.

(** The error of a call that returns only an error. *)
Definition errorOf (o : outcome unit) : option error :=
  match o with
  | Ret _ => Some None
  | Fail e => Some (Some e)
  | Panic => None
  end.

(** ** Keys (package common) *)

Record Key : Type := mkKey {
  key_DBName : string;
  key_TableName : string;
  key_UUID : string
}.

(** Modelled from the spec: common.NewDataKey and common.NewTableKey, which
    are not in this file, build the triple (database, table, uuid); the key
    of a table has no uuid. *)
Definition NewDataKey (dbName table uuid : string) : Key := mkKey dbName table uuid.
Definition NewTableKey (dbName table : string) : Key := mkKey dbName table "".

(** ** Schemas (package libovsdb) *)

Definition COL_UUID : string := "_uuid".
Definition COL_VERSION : string := "_version".

Record BaseType : Type := mkBaseType { bt_Type : ColumnTypeTag }.

Record ColumnType : Type := mkColumnType {
  ct_Key : option BaseType;
  ct_Value : option BaseType;
  ct_Min : Z;
  ct_Max : Z
}.

Record ColumnSchema : Type := mkColumnSchema {
  cs_Type : ColumnTypeTag;
  cs_TypeObj : option ColumnType;
  cs_Mutable : option bool
}.

Record TableSchema : Type := mkTableSchema {
  ts_Columns : gmap string ColumnSchema
}.

Record DatabaseSchema : Type := mkDatabaseSchema {
  ds_Name : string;
  ds_Version : string;
  ds_Tables : gmap string TableSchema
}.

Abbreviation Schemas := (gmap string DatabaseSchema).

(** Modelled from the spec: TableSchema.LookupColumn and Schemas.LookupTable,
    which are not in this file, look the name up and return an error for an
    unknown column or table.  The text of that error is never read. *)
Definition LookupColumn (tableSchema : TableSchema) (column : string) : outcome ColumnSchema :=
  match ts_Columns tableSchema !! column with
  | Some columnSchema => Ret columnSchema
  | None => Fail "unknown column"
  end.

Definition LookupTable (schemas : Schemas) (dbName table : string) : outcome TableSchema :=
  match schemas !! dbName with
  | Some databaseSchema =>
      match ds_Tables databaseSchema !! table with
      | Some tableSchema => Ret tableSchema
      | None => Fail "unknown table"
      end
  | None => Fail "unknown database"
  end.

(** ** What the engine calls and does not define

    The collaborators of the executor: the key codec and the uuid generator
    of package common, the clock, encoding/json, the typed hooks of the
    schema registry, and the etcd client.  [World] is the state outside the
    process (the backend store, the clock, the source of uuids). *)
Class External : Type := {
  World : Type;
  (** common.Key.String, common.ParseKey, common.NewCommentKey,
      common.GenerateUUID *)
  Key_String : Key → string;
  ParseKey : string → outcome Key;
  NewCommentKey : string → Key;
  GenerateUUID : World → string * World;
  (** time.Now().Format(time.RFC3339) *)
  time_Now_RFC3339 : World → string * World;
  (** json.Marshal of a row, json.Unmarshal into a row *)
  json_Marshal : Row → outcome string;
  json_Unmarshal : string → outcome Row;
  (** ColumnSchema.Unmarshal, ColumnSchema.Validate, TableSchema.Unmarshal,
      TableSchema.Validate, Schemas.Default, Schemas.Unmarshal,
      Schemas.Validate, libovsdb.UnmarshalUUID, UUID.ValidateUUID *)
  ColumnSchema_Unmarshal : ColumnSchema → Value → outcome Value;
  ColumnSchema_Validate : ColumnSchema → Value → outcome unit;
  TableSchema_Unmarshal : TableSchema → Row → outcome Row;
  TableSchema_Validate : TableSchema → Row → outcome unit;
  Schemas_Default : Schemas → string → string → Row → Row;
  Schemas_Unmarshal : Schemas → string → string → Row → outcome Row;
  Schemas_Validate : Schemas → string → string → Row → outcome unit;
  UnmarshalUUID : Value → outcome Value;
  ValidateUUID : string → outcome unit;
  (** clientv3: Txn(ctx).If(..).Then(..).Else(..).Commit() *)
  Txn_Commit : World → list unit → list Op → list Op → outcome TxnResponse * World
}.

(** ** Requests and responses (package libovsdb) *)

Definition OP_INSERT : string := "insert".
Definition OP_SELECT : string := "select".
Definition OP_UPDATE : string := "update".
Definition OP_MUTATE : string := "mutate".
Definition OP_DELETE : string := "delete".
Definition OP_WAIT : string := "wait".
Definition OP_COMMIT : string := "commit".
Definition OP_ABORT : string := "abort".
Definition OP_COMMENT : string := "comment".
Definition OP_ASSERT : string := "assert".

(** libovsdb.Operation: every field but [Op] is a pointer. *)
Record Operation : Type := mkOperation {
  o_Op : string;
  o_Table : option string;
  o_Row : option Row;
  o_Rows : option (list Row);
  o_Columns : option (list string);
  o_Mutations : option (list Value);
  o_Timeout : option Z;
  o_Where : option (list Value);
  o_Until : option string;
  o_Durable : option bool;
  o_Comment : option string;
  o_UUID : option string;
  o_UUIDName : option string
}.

Record OperationResult : Type := mkOperationResult {
  r_Count : option Z;
  r_Error : option string;
  r_UUID : option string;
  r_Rows : option (list Row)
}.

Definition emptyResult : OperationResult := mkOperationResult None None None None.

(** Modelled from the spec: the setters of libovsdb.OperationResult, which
    are not in this file: they stamp the error, the uuid, the result rows and
    the count of an operation. *)
Definition SetError (errStr : string) (r : OperationResult) : OperationResult :=
  mkOperationResult (r_Count r) (Some errStr) (r_UUID r) (r_Rows r).
Definition InitUUID (uuid : string) (r : OperationResult) : OperationResult :=
  mkOperationResult (r_Count r) (r_Error r) (Some uuid) (r_Rows r).
Definition InitRows (r : OperationResult) : OperationResult :=
  mkOperationResult (r_Count r) (r_Error r) (r_UUID r) (Some []).
Definition AppendRows (row : Row) (r : OperationResult) : OperationResult :=
  mkOperationResult (r_Count r) (r_Error r) (r_UUID r)
                    (Some (default [] (r_Rows r) ++ [row])).
Definition InitCount (r : OperationResult) : OperationResult :=
  mkOperationResult (Some 0) (r_Error r) (r_UUID r) (r_Rows r).
Definition IncrementCount (r : OperationResult) : OperationResult :=
  mkOperationResult (Some (default 0 (r_Count r) + 1)) (r_Error r) (r_UUID r) (r_Rows r).

Record Transact : Type := mkTransact {
  t_DBName : string;
  t_Operations : list Operation
}.

Record TransactResponse : Type := mkTransactResponse {
  tr_Result : list OperationResult;
  tr_Error : option string
}.

(** ** The row cache *)

Abbreviation TableCache := (gmap string Row).
Abbreviation DatabaseCache := (gmap string (gmap string Row)).
Abbreviation Cache := (gmap string (gmap string (gmap string Row))).

(** Cache.Database, Cache.Table, Cache.Row create the entry they miss; the
    new row is the empty row. *)
Definition Cache_Database (c : Cache) (dbname : string) : DatabaseCache * Cache :=
  match c !! dbname with
  | Some db => (db, c)
  | None => (∅, <[dbname := ∅]> c)
  end.

Definition Cache_Table (c : Cache) (dbname table : string) : TableCache * Cache :=
  let '(db, c) := Cache_Database c dbname in
  match db !! table with
  | Some tb => (tb, c)
  | None => (∅, <[dbname := <[table := ∅]> db]> c)
  end.

Definition Cache_Row (c : Cache) (key : Key) : Row * Cache :=
  let '(tb, c) := Cache_Table c (key_DBName key) (key_TableName key) in
  match tb !! key_UUID key with
  | Some row => (row, c)
  | None =>
      (∅, <[key_DBName key :=
              <[key_TableName key := <[key_UUID key := ∅]> tb]>
                (default ∅ (c !! key_DBName key))]> c)
  end.

(** Assignment through the pointer that Cache.Row returns. *)
Definition Cache_setRow (c : Cache) (key : Key) (row : Row) : Cache :=
  let '(tb, c) := Cache_Table c (key_DBName key) (key_TableName key) in
  <[key_DBName key :=
      <[key_TableName key := <[key_UUID key := row]> tb]>
        (default ∅ (c !! key_DBName key))]> c.

(** ** Named uuids *)

Abbreviation MapUUID := (gmap string string).

Definition MapUUID_Set (mapUUID : MapUUID) (uuidName uuid : string) : MapUUID :=
  <[uuidName := uuid]> mapUUID.

Definition MapUUID_Get (mapUUID : MapUUID) (uuidName : string) : outcome string :=
  match mapUUID !! uuidName with
  | Some uuid => Ret uuid
  | None => Fail E_CONSTRAINT_VIOLATION
  end.

Section Engine.
Context `{ext : External}.

(** MapUUID.ResolvUUID on a base value: a libovsdb.UUID whose text is not
    empty and does not validate is a named uuid. *)
Definition ResolvUUID_base (mapUUID : MapUUID) (value : Base) : outcome Base :=
  match value with
  | BKey (KUUID goUUID) =>
      if bool_decide (goUUID ≠ "") then
        match ValidateUUID goUUID with
        | Fail _ => uuid ←! MapUUID_Get mapUUID goUUID; Ret (BKey (KUUID uuid))
        | Ret _ => Ret value
        | Panic => Panic
        end
      else Ret value
  | _ => Ret value
  end.

(** MapUUID.ResolvUUID *)
Definition ResolvUUID (mapUUID : MapUUID) (value : Value) : outcome Value :=
  match value with
  | VBase b => b ←! ResolvUUID_base mapUUID b; Ret (VBase b)
  | _ => Ret value
  end.

(** MapUUID.ResolvSet *)
Fixpoint ResolvSet_loop (mapUUID : MapUUID) (oldset newset : list Base) : outcome (list Base) :=
  match oldset with
  | [] => Ret newset
  | oldval :: rest =>
      newval ←! ResolvUUID_base mapUUID oldval;
      ResolvSet_loop mapUUID rest (newset ++ [newval])
  end.

Definition ResolvSet (mapUUID : MapUUID) (value : Value) : outcome Value :=
  let oldset := match value with VSet s => s | _ => [] end in
  newset ←! ResolvSet_loop mapUUID oldset [];
  Ret (VSet newset).

(** MapUUID.ResolvMap: only the values of the map are resolved. *)
Fixpoint ResolvMap_loop (mapUUID : MapUUID) (entries : list (MapKey * Base))
    (newmap : gmap MapKey Base) : outcome (gmap MapKey Base) :=
  match entries with
  | [] => Ret newmap
  | (key, oldval) :: rest =>
      newval ←! ResolvUUID_base mapUUID oldval;
      ResolvMap_loop mapUUID rest (<[key := newval]> newmap)
  end.

Definition ResolvMap (mapUUID : MapUUID) (value : Value) : outcome Value :=
  let oldmap := match value with VMap m => m | _ => ∅ end in
  newmap ←! ResolvMap_loop mapUUID (map_to_list oldmap) ∅;
  Ret (VMap newmap).

(** MapUUID.Resolv *)
Definition Resolv (mapUUID : MapUUID) (value : Value) : outcome Value :=
  match value with
  | VBase (BKey (KUUID _)) => ResolvUUID mapUUID value
  | VSet _ => ResolvSet mapUUID value
  | VMap _ => ResolvMap mapUUID value
  | _ => Ret value
  end.

(** MapUUID.ResolvRow writes every resolved column back into the row it is
    given; the row comes back also when a later column fails. *)
Fixpoint ResolvRow_loop (mapUUID : MapUUID) (entries : list (string * Value)) (row : Row)
  : Row * outcome unit :=
  match entries with
  | [] => (row, Ret tt)
  | (column, value) :: rest =>
      match Resolv mapUUID value with
      | Ret value => ResolvRow_loop mapUUID rest (<[column := value]> row)
      | Fail e => (row, Fail e)
      | Panic => (row, Panic)
      end
  end.

Definition ResolvRow (mapUUID : MapUUID) (row : Row) : Row * outcome unit :=
  ResolvRow_loop mapUUID (map_to_list row) row.

(** ** Conditions *)

Definition FN_LT : string := "<".
Definition FN_LE : string := "<=".
Definition FN_EQ : string := "==".
Definition FN_NE : string := "!=".
Definition FN_GE : string := ">=".
Definition FN_GT : string := ">".
Definition FN_IN : string := "includes".
Definition FN_EX : string := "excludes".

Record Condition : Type := mkCondition {
  c_Column : string;
  c_Function : string;
  c_Value : Value;
  c_ColumnSchema : option ColumnSchema
}.

Definition NewCondition (tableSchema : TableSchema) (mapUUID : MapUUID)
    (condition : list Value) : outcome Condition :=
  match condition with
  | [c0; c1; c2] =>
      match c0 with
      | VString column =>
          columnSchema ←!
            (if bool_decide (column ≠ COL_UUID) && bool_decide (column ≠ COL_VERSION) then
               orElse (columnSchema ←! LookupColumn tableSchema column; Ret (Some columnSchema))
                      E_CONSTRAINT_VIOLATION
             else Ret None);
          match c1 with
          | VString fn =>
              value ←!
                match columnSchema with
                | Some schema => orElse (ColumnSchema_Unmarshal schema c2) E_INTERNAL_ERROR
                | None =>
                    if bool_decide (column = COL_UUID)
                    then orElse (UnmarshalUUID c2) E_INTERNAL_ERROR
                    else Ret c2
                end;
              value ←! orElse (Resolv mapUUID value) E_INTERNAL_ERROR;
              Ret (mkCondition column fn value columnSchema)
          | _ => Fail E_INTERNAL_ERROR
          end
      | _ => Fail E_INTERNAL_ERROR
      end
  | _ => Fail E_INTERNAL_ERROR
  end.

Definition isFn (fn a b : string) : bool := bool_decide (fn = a) || bool_decide (fn = b).

Definition Condition_CompareInteger (c : Condition) (row : Row) : outcome bool :=
  match rowGet row (c_Column c) with
  | VInt actual =>
      let fn := c_Function c in
      match c_Value c with
      | VInt expected =>
          if isFn fn FN_EQ FN_IN && bool_decide (actual = expected) then Ret true
          else if isFn fn FN_NE FN_EX && bool_decide (actual ≠ expected) then Ret true
          else if bool_decide (fn = FN_GT) && bool_decide (actual > expected) then Ret true
          else if bool_decide (fn = FN_GE) && bool_decide (actual >= expected) then Ret true
          else if bool_decide (fn = FN_LT) && bool_decide (actual < expected) then Ret true
          else if bool_decide (fn = FN_LE) && bool_decide (actual <= expected) then Ret true
          else Ret false
      | _ => Fail E_CONSTRAINT_VIOLATION
      end
  | _ => Fail E_CONSTRAINT_VIOLATION
  end.

Definition Condition_CompareReal (c : Condition) (row : Row) : outcome bool :=
  match rowGet row (c_Column c) with
  | VReal actual =>
      let fn := c_Function c in
      match c_Value c with
      | VReal expected =>
          if isFn fn FN_EQ FN_IN && PrimFloat.eqb actual expected then Ret true
          else if isFn fn FN_NE FN_EX && negb (PrimFloat.eqb actual expected) then Ret true
          else if bool_decide (fn = FN_GT) && PrimFloat.ltb expected actual then Ret true
          else if bool_decide (fn = FN_GE) && PrimFloat.leb expected actual then Ret true
          else if bool_decide (fn = FN_LT) && PrimFloat.ltb actual expected then Ret true
          else if bool_decide (fn = FN_LE) && PrimFloat.leb actual expected then Ret true
          else Ret false
      | _ => Fail E_CONSTRAINT_VIOLATION
      end
  | _ => Fail E_CONSTRAINT_VIOLATION
  end.

Definition Condition_CompareBoolean (c : Condition) (row : Row) : outcome bool :=
  match rowGet row (c_Column c) with
  | VBool actual =>
      let fn := c_Function c in
      match c_Value c with
      | VBool expected =>
          if isFn fn FN_EQ FN_IN && bool_decide (actual = expected) then Ret true
          else if isFn fn FN_NE FN_EX && bool_decide (actual ≠ expected) then Ret true
          else Ret false
      | _ => Fail E_CONSTRAINT_VIOLATION
      end
  | _ => Fail E_CONSTRAINT_VIOLATION
  end.

Definition Condition_CompareString (c : Condition) (row : Row) : outcome bool :=
  match rowGet row (c_Column c) with
  | VString actual =>
      let fn := c_Function c in
      match c_Value c with
      | VString expected =>
          if isFn fn FN_EQ FN_IN && bool_decide (actual = expected) then Ret true
          else if isFn fn FN_NE FN_EX && bool_decide (actual ≠ expected) then Ret true
          else Ret false
      | _ => Fail E_CONSTRAINT_VIOLATION
      end
  | _ => Fail E_CONSTRAINT_VIOLATION
  end.

(** Condition.CompareUUID: a row value that is still a slice is read at
    index 1, which panics when it is short or does not hold a string. *)
Definition Condition_CompareUUID (c : Condition) (row : Row) : outcome bool :=
  actual ←!
    match rowGet row (c_Column c) with
    | VSlice ar =>
        match ar !! 1%nat with
        | Some (VString s) => Ret s
        | _ => Panic
        end
    | VUUID u => Ret u
    | _ => Fail E_CONSTRAINT_VIOLATION
    end;
  let fn := c_Function c in
  match c_Value c with
  | VUUID expected =>
      if isFn fn FN_EQ FN_IN && bool_decide (actual = expected) then Ret true
      else if isFn fn FN_NE FN_EX && bool_decide (actual ≠ expected) then Ret true
      else Ret false
  | _ => Fail E_CONSTRAINT_VIOLATION
  end.

(** [c.ColumnSchema.TypeObj.Key]: any nil pointer on the way panics. *)
Definition enumKeyType (c : Condition) : option BaseType :=
  columnSchema ← c_ColumnSchema c;
  typeObj ← cs_TypeObj columnSchema;
  ct_Key typeObj.

Definition Condition_CompareEnum (c : Condition) (row : Row) : outcome bool :=
  match enumKeyType c with
  | Some keyType =>
      match bt_Type keyType with
      | TypeString => Condition_CompareString c row
      | _ => Fail E_CONSTRAINT_VIOLATION
      end
  | None => Panic
  end.

Definition liftBool (o : option bool) : outcome bool :=
  match o with
  | Some b => Ret b
  | None => Panic
  end.

Definition Condition_CompareSet (c : Condition) (row : Row) : outcome bool :=
  match rowGet row (c_Column c) with
  | VSet actual =>
      let fn := c_Function c in
      match c_Value c with
      | VSet expected =>
          eq ←! liftBool (isEqualSet (VSet actual) (VSet expected));
          if isFn fn FN_EQ FN_IN && eq then Ret true
          else if isFn fn FN_NE FN_EX && negb eq then Ret true
          else Ret false
      | _ => Fail E_CONSTRAINT_VIOLATION
      end
  | _ => Fail E_CONSTRAINT_VIOLATION
  end.

Definition Condition_CompareMap (c : Condition) (row : Row) : outcome bool :=
  match rowGet row (c_Column c) with
  | VMap actual =>
      let fn := c_Function c in
      match c_Value c with
      | VMap expected =>
          eq ←! liftBool (isEqualMap (VMap actual) (VMap expected));
          if isFn fn FN_EQ FN_IN && eq then Ret true
          else if isFn fn FN_NE FN_EX && negb eq then Ret true
          else Ret false
      | _ => Fail E_CONSTRAINT_VIOLATION
      end
  | _ => Fail E_CONSTRAINT_VIOLATION
  end.

Definition Condition_Compare (c : Condition) (row : Row) : outcome bool :=
  if bool_decide (c_Column c = COL_UUID) then Condition_CompareUUID c row
  else if bool_decide (c_Column c = COL_VERSION) then Fail E_CONSTRAINT_VIOLATION
  else
    match c_ColumnSchema c with
    | None => Panic
    | Some columnSchema =>
        match cs_Type columnSchema with
        | TypeInteger => Condition_CompareInteger c row
        | TypeReal => Condition_CompareReal c row
        | TypeBoolean => Condition_CompareBoolean c row
        | TypeString => Condition_CompareString c row
        | TypeUUID => Condition_CompareUUID c row
        | TypeEnum => Condition_CompareEnum c row
        | TypeSet => Condition_CompareSet c row
        | TypeMap => Condition_CompareMap c row
        end
    end.

Definition getUUIDIfExists (tableSchema : TableSchema) (mapUUID : MapUUID) (cond1 : Value)
  : outcome string :=
  match cond1 with
  | VSlice cond2 =>
      condition ←! NewCondition tableSchema mapUUID cond2;
      if bool_decide (c_Column condition ≠ COL_UUID) then Ret ""
      else if bool_decide (c_Function condition ≠ FN_EQ) &&
              bool_decide (c_Function condition ≠ FN_IN) then Ret ""
      else
        match c_Value condition with
        | VUUID goUUID => _ ←! ValidateUUID goUUID; Ret goUUID
        | _ => Fail E_INTERNAL_ERROR
        end
  | _ => Fail E_INTERNAL_ERROR
  end.

Fixpoint doesWhereContainCondTypeUUID_loop (tableSchema : TableSchema) (mapUUID : MapUUID)
    (where_ : list Value) : outcome string :=
  match where_ with
  | [] => Ret ""
  | c :: rest =>
      match c with
      | VSlice _ =>
          uuid ←! getUUIDIfExists tableSchema mapUUID c;
          if bool_decide (uuid ≠ "") then Ret uuid
          else doesWhereContainCondTypeUUID_loop tableSchema mapUUID rest
      | _ => Fail E_INTERNAL_ERROR
      end
  end.

Definition doesWhereContainCondTypeUUID (tableSchema : TableSchema) (mapUUID : MapUUID)
    (where_ : option (list Value)) : outcome string :=
  match where_ with
  | None => Ret ""
  | Some where_ => doesWhereContainCondTypeUUID_loop tableSchema mapUUID where_
  end.

Definition isRowSelectedByCond (tableSchema : TableSchema) (mapUUID : MapUUID) (row : Row)
    (cond : list Value) : outcome bool :=
  condition ←! NewCondition tableSchema mapUUID cond;
  Condition_Compare condition row.

Fixpoint isRowSelectedByWhere_loop (tableSchema : TableSchema) (mapUUID : MapUUID) (row : Row)
    (where_ : list Value) : outcome bool :=
  match where_ with
  | [] => Ret true
  | c :: rest =>
      match c with
      | VSlice cond =>
          ok ←! isRowSelectedByCond tableSchema mapUUID row cond;
          if negb ok then Ret false
          else isRowSelectedByWhere_loop tableSchema mapUUID row rest
      | _ => Fail E_INTERNAL_ERROR
      end
  end.

Definition isRowSelectedByWhere (tableSchema : TableSchema) (mapUUID : MapUUID) (row : Row)
    (where_ : option (list Value)) : outcome bool :=
  match where_ with
  | None => Ret true
  | Some where_ => isRowSelectedByWhere_loop tableSchema mapUUID row where_
  end.

(** reduceRowByColumns: a column that the row does not have is copied as
    the nil interface. *)
Definition reduceRowByColumns (row : Row) (columns : option (list string)) : outcome Row :=
  match columns with
  | None => Ret row
  | Some columns =>
      Ret (foldl (λ (newRow : Row) column, <[column := rowGet row column]> newRow) ∅ columns)
  end.

(** ** Mutations *)

Definition MT_SUM : string := "+=".
Definition MT_DIFFERENCE : string := "-=".
Definition MT_PRODUCT : string := "*=".
Definition MT_QUOTIENT : string := "/=".
Definition MT_REMAINDER : string := "%=".
Definition MT_INSERT : string := "insert".
Definition MT_DELETE : string := "delete".

Record Mutation : Type := mkMutation {
  m_Column : string;
  m_Mutator : string;
  m_Value : Value;
  m_ColumnSchema : ColumnSchema
}.

Definition NewMutation (tableSchema : TableSchema) (mapUUID : MapUUID)
    (mutation : list Value) : outcome Mutation :=
  match mutation with
  | [m0; m1; m2] =>
      match m0 with
      | VString column =>
          columnSchema ←! orElse (LookupColumn tableSchema column) E_CONSTRAINT_VIOLATION;
          match m1 with
          | VString mt =>
              value ←! orElse (ColumnSchema_Unmarshal columnSchema m2) E_CONSTRAINT_VIOLATION;
              value ←! orElse (Resolv mapUUID value) E_CONSTRAINT_VIOLATION;
              _ ←! orElse (ColumnSchema_Validate columnSchema value) E_CONSTRAINT_VIOLATION;
              Ret (mkMutation column mt value columnSchema)
          | _ => Fail E_CONSTRAINT_VIOLATION
          end
      | _ => Fail E_CONSTRAINT_VIOLATION
      end
  | _ => Fail E_CONSTRAINT_VIOLATION
  end.

(** The value of a 64-bit Go [int] after an arithmetic operation. *)
Definition wrap64 (z : Z) : Z := (z + 2 ^ 63) `mod` 2 ^ 64 - 2 ^ 63.

(** A mutation writes into the row it is given and returns an error; both
    are kept: the row after the call and what was returned. *)
Definition Mutation_MutateInteger (m : Mutation) (row : Row) : Row * outcome unit :=
  match rowGet row (m_Column m) with
  | VInt original =>
      match m_Value m with
      | VInt value =>
          let mutated := original in
          let write (mutated : Z) (err : outcome unit) : Row * outcome unit :=
            (<[m_Column m := VInt mutated]> row, err) in
          if bool_decide (m_Mutator m = MT_SUM) then write (wrap64 (mutated + value)) (Ret tt)
          else if bool_decide (m_Mutator m = MT_DIFFERENCE) then
            write (wrap64 (mutated - value)) (Ret tt)
          else if bool_decide (m_Mutator m = MT_PRODUCT) then
            write (wrap64 (mutated * value)) (Ret tt)
          else if bool_decide (m_Mutator m = MT_QUOTIENT) then
            if bool_decide (value ≠ 0) then write (wrap64 (mutated `quot` value)) (Ret tt)
            else write mutated (Fail E_DOMAIN_ERROR)
          else if bool_decide (m_Mutator m = MT_REMAINDER) then
            if bool_decide (value ≠ 0) then write (wrap64 (mutated `rem` value)) (Ret tt)
            else write mutated (Fail E_DOMAIN_ERROR)
          else (row, Fail E_CONSTRAINT_VIOLATION)
      | _ => (row, Fail E_CONSTRAINT_VIOLATION)
      end
  | _ => (row, Panic)
  end.

Definition Mutation_MutateReal (m : Mutation) (row : Row) : Row * outcome unit :=
  match rowGet row (m_Column m) with
  | VReal original =>
      match m_Value m with
      | VReal value =>
          let mutated := original in
          let write (mutated : float) (err : outcome unit) : Row * outcome unit :=
            (<[m_Column m := VReal mutated]> row, err) in
          if bool_decide (m_Mutator m = MT_SUM) then
            write (PrimFloat.add mutated value) (Ret tt)
          else if bool_decide (m_Mutator m = MT_DIFFERENCE) then
            write (PrimFloat.sub mutated value) (Ret tt)
          else if bool_decide (m_Mutator m = MT_PRODUCT) then
            write (PrimFloat.mul mutated value) (Ret tt)
          else if bool_decide (m_Mutator m = MT_QUOTIENT) then
            if negb (PrimFloat.eqb value PrimFloat.zero) then
              write (PrimFloat.div mutated value) (Ret tt)
            else write mutated (Fail E_DOMAIN_ERROR)
          else (row, Fail E_CONSTRAINT_VIOLATION)
      | _ => (row, Fail E_CONSTRAINT_VIOLATION)
      end
  | _ => (row, Panic)
  end.

Fixpoint inSet (set : list Base) (a : Base) : bool :=
  match set with
  | [] => false
  | b :: rest => if isEqualValue (VBase a) (VBase b) then true else inSet rest a
  end.

(** insertToSet: the values to insert are tested against the original set
    only. *)
Definition insertToSet (original : list Base) (toInsert : Value) : outcome (list Base) :=
  match toInsert with
  | VSet toInsertSet =>
      Ret (foldl (λ mutated v, if negb (inSet original v) then mutated ++ [v] else mutated)
                 original toInsertSet)
  | _ => Fail E_CONSTRAINT_VIOLATION
  end.

Fixpoint deleteFromSet_found (current : Base) (toDeleteSet : list Base) : bool :=
  match toDeleteSet with
  | [] => false
  | v :: rest =>
      if isEqualValue (VBase current) (VBase v) then true
      else deleteFromSet_found current rest
  end.

Definition deleteFromSet (original : list Base) (toDelete : Value) : outcome (list Base) :=
  match toDelete with
  | VSet toDeleteSet =>
      Ret (foldl (λ mutated current,
                    if negb (deleteFromSet_found current toDeleteSet)
                    then mutated ++ [current] else mutated)
                 [] original)
  | _ => Fail E_CONSTRAINT_VIOLATION
  end.

Definition Mutation_MutateSet (m : Mutation) (row : Row) : Row * outcome unit :=
  match rowGet row (m_Column m) with
  | VSet original =>
      let mutated :=
        if bool_decide (m_Mutator m = MT_INSERT) then insertToSet original (m_Value m)
        else if bool_decide (m_Mutator m = MT_DELETE) then deleteFromSet original (m_Value m)
        else Fail E_CONSTRAINT_VIOLATION in
      match mutated with
      | Ret mutated => (<[m_Column m := VSet mutated]> row, Ret tt)
      | Fail e => (row, Fail e)
      | Panic => (row, Panic)
      end
  | _ => (row, Panic)
  end.

(** *** Map objects

    A Go map is a reference to a map object.  copier.Copy, a routine of a
    library that is not in this file, copies shallowly: it copies an OvsMap
    field by field, so the GoMap of the copy is the map object of the value
    copied, and it copies a row entry by entry, so an OvsMap in the copy of a
    row has the map object of the same column of the row copied.  A function
    that writes into a map object takes the content of the object and gives
    back the content that it leaves there, before what it returns. *)

(** insertToMap: [mutated.GoMap] is the map object of [original], and the
    entries are written into it. *)
Definition insertToMap (original : gmap MapKey Base) (toInsert : Value)
  : gmap MapKey Base * outcome (gmap MapKey Base) :=
  let GoMap := original in
  match toInsert with
  | VMap toInsert =>
      let GoMap :=
        foldl (λ (GoMap : gmap MapKey Base) kv, <[kv.1 := kv.2]> GoMap)
              GoMap (map_to_list toInsert) in
      (GoMap, Ret GoMap)
  | _ => (GoMap, Fail E_CONSTRAINT_VIOLATION)
  end.

(** [delete(mutated.GoMap, k)] for an interface [k]: a float64 is no key of
    the map. *)
Definition deleteKey (mutated : gmap MapKey Base) (k : Base) : gmap MapKey Base :=
  match k with
  | BKey k => delete k mutated
  | BReal _ => mutated
  end.

(** deleteFromMap: the keys are deleted from the map object of
    [original]. *)
Definition deleteFromMap (original : gmap MapKey Base) (toDelete : Value)
  : gmap MapKey Base * outcome (gmap MapKey Base) :=
  let GoMap := original in
  match toDelete with
  | VMap toDelete =>
      let GoMap :=
        foldl (λ (GoMap : gmap MapKey Base) kv,
                 match GoMap !! kv.1 with
                 | Some v => if deepEqualBase v kv.2 then delete kv.1 GoMap else GoMap
                 | None => GoMap
                 end)
              GoMap (map_to_list toDelete) in
      (GoMap, Ret GoMap)
  | VSet toDelete =>
      let GoMap := foldl deleteKey GoMap toDelete in
      (GoMap, Ret GoMap)
  | _ => (GoMap, Ret GoMap)
  end.

(** What a write into the map object of [column] leaves in a row that holds
    this object in that column. *)
Definition GoMap_written (column : string) (GoMap : gmap MapKey Base) (row : Row) : Row :=
  match row !! column with
  | Some (VMap _) => <[column := VMap GoMap]> row
  | _ => row
  end.

(** MutateMap.  [original] is a copy of the OvsMap of the row and has its
    map object: what insertToMap and deleteFromMap write is written in the
    row, whatever they return, and in [shared], the row that holds the same
    map object in this column (the row that RowMutate copied).  The result is
    [shared] and the row after the call, and the error returned. *)
Definition Mutation_MutateMap (m : Mutation) (shared row : Row) : Row * Row * outcome unit :=
  match rowGet row (m_Column m) with
  | VMap original =>
      let '(GoMap, mutated) :=
        if bool_decide (m_Mutator m = MT_INSERT) then insertToMap original (m_Value m)
        else if bool_decide (m_Mutator m = MT_DELETE) then deleteFromMap original (m_Value m)
        else (original, Fail E_CONSTRAINT_VIOLATION) in
      let shared := GoMap_written (m_Column m) GoMap shared in
      let row := GoMap_written (m_Column m) GoMap row in
      match mutated with
      | Ret mutated => (shared, <[m_Column m := VMap mutated]> row, Ret tt)
      | Fail e => (shared, row, Fail e)
      | Panic => (shared, row, Panic)
      end
  | _ => (shared, row, Panic)
  end.

(** Mutation.Mutate on the working copy [row] of [shared]: integers, reals
    and sets are written in the working copy only. *)
Definition Mutation_Mutate (m : Mutation) (shared row : Row) : Row * Row * outcome unit :=
  let private (r : Row * outcome unit) : Row * Row * outcome unit := (shared, r.1, r.2) in
  if bool_decide (m_Column m = COL_UUID) || bool_decide (m_Column m = COL_VERSION)
  then (shared, row, Fail E_CONSTRAINT_VIOLATION)
  else if bool_decide (cs_Mutable (m_ColumnSchema m) = Some false)
  then (shared, row, Fail E_CONSTRAINT_VIOLATION)
  else
    match cs_Type (m_ColumnSchema m) with
    | TypeInteger => private (Mutation_MutateInteger m row)
    | TypeReal => private (Mutation_MutateReal m row)
    | TypeSet => private (Mutation_MutateSet m row)
    | TypeMap => Mutation_MutateMap m shared row
    | _ => (shared, row, Fail E_CONSTRAINT_VIOLATION)
    end.

(** copier.Copy of a row into a row: the entries of [from] are written into
    [to], one by one.  A map entry keeps the map object it has in [from]. *)
Definition copier_Copy (to from : Row) : Row := from ∪ to.

(** The loop of RowMutate over the working copy [mutated], whose map
    columns have the map objects of [original]. *)
Fixpoint RowMutate_loop (tableSchema : TableSchema) (mapUUID : MapUUID)
    (mutations : list Value) (original mutated : Row) : Row * Row * outcome unit :=
  match mutations with
  | [] => (original, mutated, Ret tt)
  | mt :: rest =>
      match mt with
      | VSlice mt =>
          match NewMutation tableSchema mapUUID mt with
          | Ret mutation =>
              match Mutation_Mutate mutation original mutated with
              | (original, mutated, Ret _) =>
                  RowMutate_loop tableSchema mapUUID rest original mutated
              | (original, mutated, err) => (original, mutated, err)
              end
          | Fail e => (original, mutated, Fail e)
          | Panic => (original, mutated, Panic)
          end
      | _ => (original, mutated, Panic)
      end
  end.

(** RowMutate: the result is the row behind [original] after the call and
    the error returned.  The working copy is copied back when every mutation
    succeeded; what was written into the map objects is in the row also when
    one failed.  A nil [mutations] pointer panics. *)
Definition RowMutate (tableSchema : TableSchema) (mapUUID : MapUUID) (original : Row)
    (mutations : option (list Value)) : Row * outcome unit :=
  let mutated := copier_Copy ∅ original in
  match mutations with
  | None => (original, Panic)
  | Some mutations =>
      match RowMutate_loop tableSchema mapUUID mutations original mutated with
      | (original, mutated, Ret _) => (copier_Copy original mutated, Ret tt)
      | (original, _, err) => (original, err)
      end
  end.

(** RowUpdate overwrites the columns of the update one by one, in the row
    it is given. *)
Fixpoint RowUpdate_loop (tableSchema : TableSchema) (update : list (string * Value))
    (original : Row) : Row * outcome unit :=
  match update with
  | [] => (original, Ret tt)
  | (column, value) :: rest =>
      match LookupColumn tableSchema column with
      | Ret columnSchema =>
          if bool_decide (column = COL_UUID) || bool_decide (column = COL_VERSION)
          then (original, Fail E_CONSTRAINT_VIOLATION)
          else if bool_decide (cs_Mutable columnSchema = Some false)
          then (original, Fail E_CONSTRAINT_VIOLATION)
          else RowUpdate_loop tableSchema rest (<[column := value]> original)
      | Fail _ => (original, Fail E_CONSTRAINT_VIOLATION)
      | Panic => (original, Panic)
      end
  end.

Definition RowUpdate (tableSchema : TableSchema) (mapUUID : MapUUID) (original update : Row)
  : Row * outcome unit :=
  RowUpdate_loop tableSchema (map_to_list update) original.

(** RowPrepare: unmarshal, resolve the named uuids, validate; every error
    becomes a constraint violation.  (A row that fails to unmarshal is taken
    to be left as it was.) *)
Definition RowPrepare (tableSchema : TableSchema) (mapUUID : MapUUID) (row : Row)
  : Row * outcome unit :=
  match TableSchema_Unmarshal tableSchema row with
  | Ret row =>
      match ResolvRow mapUUID row with
      | (row, Ret _) =>
          (row, orElse (TableSchema_Validate tableSchema row) E_CONSTRAINT_VIOLATION)
      | (row, Fail _) => (row, Fail E_CONSTRAINT_VIOLATION)
      | (row, Panic) => (row, Panic)
      end
  | Fail _ => (row, Fail E_CONSTRAINT_VIOLATION)
  | Panic => (row, Panic)
  end.

(** isEqualRow *)
Fixpoint isEqualRow_loop (tableSchema : TableSchema) (expectedRow : list (string * Value))
    (actualRow : Row) : outcome bool :=
  match expectedRow with
  | [] => Ret true
  | (column, expected) :: rest =>
      match LookupColumn tableSchema column with
      | Ret columnSchema =>
          let actual := rowGet actualRow column in
          eq ←! liftBool (isEqualColumn (cs_Type columnSchema) expected actual);
          if negb eq then Ret false
          else isEqualRow_loop tableSchema rest actualRow
      | Fail _ => Fail E_CONSTRAINT_VIOLATION
      | Panic => Panic
      end
  end.

Definition isEqualRow (tableSchema : TableSchema) (expectedRow actualRow : Row) : outcome bool :=
  isEqualRow_loop tableSchema (map_to_list expectedRow) actualRow.

(** ** Per-database locks

    A sync.Mutex is [true] when it is held.  Locking a held mutex blocks:
    the call does not return until someone unlocks it. *)
Record TxnLock : Type := mkTxnLock {
  lock_root : bool;
  lock_databases : gmap string bool
}.

Definition NewTxnLock : TxnLock := mkTxnLock false ∅.

(** What a call on a registry comes to: it returns and leaves the registry
    [lock], or it waits for a mutex that is held, and the registry is [lock]
    while it waits, or it panics. *)
Inductive acquire : Type :=
  | Acquired (lock : TxnLock)
  | Blocked (lock : TxnLock)
  | LockPanic.

(** TxnLock.Lock.  The root mutex is held from the first statement until
    the function returns (its Unlock is deferred): a call that finds the
    mutex of the database held waits in [db.Lock()] with the root mutex
    held. *)
Definition TxnLock_Lock (lock : TxnLock) (dbname : string) : acquire :=
  if lock_root lock then Blocked lock
  else
    let databases :=
      match lock_databases lock !! dbname with
      | Some _ => lock_databases lock
      | None => <[dbname := false]> (lock_databases lock)
      end in
    match databases !! dbname with
    | None => LockPanic
    | Some true => Blocked (mkTxnLock true databases)
    | Some false => Acquired (mkTxnLock false (<[dbname := true]> databases))
    end.

(** The end of a Lock that waits in [db.Lock()]: when the mutex of the
    database is free the call takes it, and the deferred
    [lock.root.Unlock()] runs. *)
Definition TxnLock_Lock_wake (lock : TxnLock) (dbname : string) : acquire :=
  match lock_databases lock !! dbname with
  | None => LockPanic
  | Some true => Blocked lock
  | Some false => Acquired (mkTxnLock false (<[dbname := true]> (lock_databases lock)))
  end.

(** TxnLock.Unlock; unlocking a mutex that is not held is fatal. *)
Definition TxnLock_Unlock (lock : TxnLock) (dbname : string) : acquire :=
  if lock_root lock then Blocked lock
  else
    match lock_databases lock !! dbname with
    | None => LockPanic
    | Some false => LockPanic
    | Some true => Acquired (mkTxnLock false (<[dbname := false]> (lock_databases lock)))
    end.

(** ** Transactions *)

Record Transaction : Type := mkTransaction {
  lock : TxnLock;
  schemas : Schemas;
  request : Transact;
  response : TransactResponse;
  cache : Cache;
  mapUUID : MapUUID;
  etcd : Etcd
}.

Definition set_lock (l : TxnLock) (txn : Transaction) : Transaction :=
  mkTransaction l (schemas txn) (request txn) (response txn) (cache txn) (mapUUID txn) (etcd txn).
Definition set_schemas (s : Schemas) (txn : Transaction) : Transaction :=
  mkTransaction (lock txn) s (request txn) (response txn) (cache txn) (mapUUID txn) (etcd txn).
Definition set_request (r : Transact) (txn : Transaction) : Transaction :=
  mkTransaction (lock txn) (schemas txn) r (response txn) (cache txn) (mapUUID txn) (etcd txn).
Definition set_response (r : TransactResponse) (txn : Transaction) : Transaction :=
  mkTransaction (lock txn) (schemas txn) (request txn) r (cache txn) (mapUUID txn) (etcd txn).
Definition set_cache (c : Cache) (txn : Transaction) : Transaction :=
  mkTransaction (lock txn) (schemas txn) (request txn) (response txn) c (mapUUID txn) (etcd txn).
Definition set_mapUUID (m : MapUUID) (txn : Transaction) : Transaction :=
  mkTransaction (lock txn) (schemas txn) (request txn) (response txn) (cache txn) m (etcd txn).
Definition set_etcd (e : Etcd) (txn : Transaction) : Transaction :=
  mkTransaction (lock txn) (schemas txn) (request txn) (response txn) (cache txn) (mapUUID txn) e.

(** NewTransaction: every transaction gets a lock registry of its own. *)
Definition NewTransaction (request : Transact) : Transaction :=
  mkTransaction NewTxnLock ∅ request
    (mkTransactResponse (replicate (length (t_Operations request)) emptyResult) None)
    ∅ ∅ (mkEtcd [] [] [] None 0 []).

(** Transaction.AddSchema *)
Definition AddSchema (databaseSchema : DatabaseSchema) (txn : Transaction) : Transaction :=
  set_schemas (<[ds_Name databaseSchema := databaseSchema]> (schemas txn)) txn.

(** ** Loading the cache *)

(** NewKeyValue *)
Definition NewKeyValue (etcdKV : KeyValue) : outcome (Key * Row) :=
  key ←! ParseKey (kv_Key etcdKV);
  value ←! json_Unmarshal (kv_Value etcdKV);
  Ret (key, value).

(** Cache.GetFromEtcdKV: stops at the first key-value that does not parse;
    the rows assigned before it stay. *)
Fixpoint GetFromEtcdKV (c : Cache) (kvs : list KeyValue) : Cache * outcome unit :=
  match kvs with
  | [] => (c, Ret tt)
  | x :: rest =>
      match NewKeyValue x with
      | Ret (key, value) => GetFromEtcdKV (Cache_setRow c key value) rest
      | Fail e => (c, Fail e)
      | Panic => (c, Panic)
      end
  end.

(** Cache.GetFromEtcd: the error of GetFromEtcdKV is dropped. *)
Fixpoint GetFromEtcd_loop (c : Cache) (responses : list ResponseOp) : option Cache :=
  match responses with
  | [] => Some c
  | r :: rest =>
      match r with
      | ResponseRange kvs =>
          match GetFromEtcdKV c kvs with
          | (_, Panic) => None
          | (c, _) => GetFromEtcd_loop c rest
          end
      | _ => GetFromEtcd_loop c rest
      end
  end.

Definition GetFromEtcd (c : Cache) (res : option TxnResponse) : option Cache :=
  res ← res; GetFromEtcd_loop c (Responses res).

(** The rows of the cache with their keys, as the three nested loops of
    Cache.Unmarshal and Cache.Validate visit them. *)
Definition Cache_entries (c : Cache) : list (Key * Row) :=
  '(database, databaseCache) ← map_to_list c;
  '(table, tableCache) ← map_to_list databaseCache;
  '(uuid, row) ← map_to_list tableCache;
  [(mkKey database table uuid, row)].

(** Cache.Unmarshal: every row is re-typed where it lies. *)
Fixpoint Cache_Unmarshal_loop (schemas : Schemas) (entries : list (Key * Row)) (c : Cache)
  : Cache * outcome unit :=
  match entries with
  | [] => (c, Ret tt)
  | (key, row) :: rest =>
      match Schemas_Unmarshal schemas (key_DBName key) (key_TableName key) row with
      | Ret row => Cache_Unmarshal_loop schemas rest (Cache_setRow c key row)
      | Fail _ => (c, Fail E_INTEGRITY_VIOLATION)
      | Panic => (c, Panic)
      end
  end.

Definition Cache_Unmarshal (c : Cache) (schemas : Schemas) : Cache * outcome unit :=
  Cache_Unmarshal_loop schemas (Cache_entries c) c.

Fixpoint Cache_Validate_loop (schemas : Schemas) (entries : list (Key * Row)) : outcome unit :=
  match entries with
  | [] => Ret tt
  | (key, row) :: rest =>
      match Schemas_Validate schemas (key_DBName key) (key_TableName key) row with
      | Ret _ => Cache_Validate_loop schemas rest
      | Fail _ => Fail E_INTEGRITY_VIOLATION
      | Panic => Panic
      end
  end.

Definition Cache_Validate (c : Cache) (schemas : Schemas) : outcome unit :=
  Cache_Validate_loop schemas (Cache_entries c).

(** ** Submitting the buffer *)

(** Etcd.Commit *)
Definition Etcd_Commit (w : World) (etcd : Etcd) : World * Etcd * outcome unit :=
  match Txn_Commit w (If etcd) (Then etcd) (Else etcd) with
  | (Ret res, w) => (w, set_Res (Some res) etcd, Ret tt)
  | (Fail e, w) => (w, etcd, Fail e)
  | (Panic, w) => (w, etcd, Panic)
  end.

(** Transaction.etcdTranaction (the buffer is submitted whole, not split). *)
Definition etcdTranaction (w : World) (txn : Transaction)
  : World * Transaction * outcome TxnResponse :=
  match Etcd_Commit w (etcd txn) with
  | (w, etcd, Ret _) =>
      let txn := set_etcd etcd txn in
      match GetFromEtcd (cache txn) (Res etcd) with
      | None => (w, txn, Panic)
      | Some c =>
          match Cache_Unmarshal c (schemas txn) with
          | (c, Ret _) =>
              let txn := set_cache c txn in
              match Cache_Validate c (schemas txn) with
              | Ret _ =>
                  match Res (etcd) with
                  | Some res => (w, txn, Ret res)
                  | None => (w, txn, Panic)
                  end
              | Fail e => (w, txn, Fail e)
              | Panic => (w, txn, Panic)
              end
          | (c, Fail e) => (w, set_cache c txn, Fail e)
          | (c, Panic) => (w, set_cache c txn, Panic)
          end
      end
  | (w, etcd, Fail _) => (w, set_etcd etcd txn, Fail E_IO_ERROR)
  | (w, etcd, Panic) => (w, set_etcd etcd txn, Panic)
  end.

(** makeValue *)
Definition makeValue (row : Row) : outcome string := json_Marshal row.

(** setRowUUID *)
Definition setRowUUID (row : Row) (uuid : string) : Row := <[COL_UUID := VUUID uuid]> row.

(** ** Filling the buffer *)

Definition appendThen (etcdOp : Op) (txn : Transaction) : Transaction :=
  set_etcd (set_Then (Then (etcd txn) ++ [etcdOp]) (etcd txn)) txn.

Definition appendEvent (etcdEvent : option Event) (txn : Transaction) : Transaction :=
  set_etcd (set_Events (Events (etcd txn) ++ [etcdEvent]) (etcd txn)) txn.

(** etcdGetData: a range-get is appended, and nothing else. *)
Definition etcdGetData (txn : Transaction) (key : Key) : Transaction :=
  appendThen (OpGet_WithPrefix (Key_String key)) txn.

(** etcdGetByWhere *)
Definition etcdGetByWhere (txn : Transaction) (ovsOp : Operation) : option (Transaction * error) :=
  table ← o_Table ovsOp;
  match LookupTable (schemas txn) (t_DBName (request txn)) table with
  | Ret tableSchema =>
      match doesWhereContainCondTypeUUID tableSchema (mapUUID txn) (o_Where ovsOp) with
      | Ret uuid =>
          let key := NewDataKey (t_DBName (request txn)) table uuid in
          Some (etcdGetData txn key, None)
      | Fail e => Some (txn, Some e)
      | Panic => None
      end
  | Fail _ => Some (txn, Some E_INTERNAL_ERROR)
  | Panic => None
  end.

(** etcdCreateRow: the result is [None] when Assert panics. *)
Definition etcdCreateRow (txn : Transaction) (k : Key) (row : Row) : option (Transaction * error) :=
  let key := Key_String k in
  match makeValue row with
  | Ret val =>
      let txn := appendThen (OpPut key val) txn in
      let txn := appendEvent (Some (etcdEventCreate key val)) txn in
      _ ← Etcd_Assert (etcd txn);
      Some (txn, None)
  | Fail e => Some (txn, Some e)
  | Panic => None
  end.

(** etcdModifyRow: the previous value is read through Cache.Row after the
    write is appended; when it does not marshal, the write stays without
    its event. *)
Definition etcdModifyRow (txn : Transaction) (k : Key) (row : Row) : option (Transaction * error) :=
  let key := Key_String k in
  match makeValue row with
  | Ret val =>
      let txn := appendThen (OpPut key val) txn in
      let '(prevRow, c) := Cache_Row (cache txn) k in
      let txn := set_cache c txn in
      match makeValue prevRow with
      | Ret prevVal =>
          let txn := appendEvent (Some (etcdEventModify key val prevVal)) txn in
          _ ← Etcd_Assert (etcd txn);
          Some (txn, None)
      | Fail e => Some (txn, Some e)
      | Panic => None
      end
  | Fail e => Some (txn, Some e)
  | Panic => None
  end.

(** etcdDeleteRow *)
Definition etcdDeleteRow (txn : Transaction) (k : Key) : option (Transaction * error) :=
  let key := Key_String k in
  let txn := appendThen (OpDelete key) txn in
  let '(prevRow, c) := Cache_Row (cache txn) k in
  let txn := set_cache c txn in
  match makeValue prevRow with
  | Ret prevVal =>
      let txn := appendEvent (Some (etcdEventDelete key prevVal)) txn in
      _ ← Etcd_Assert (etcd txn);
      Some (txn, None)
  | Fail e => Some (txn, Some e)
  | Panic => None
  end.

(** ** The operations

    A callback gets the transaction, a pointer to a copy of the operation
    and a pointer to its result; what it leaves behind them is returned with
    its error.  [None] is a panic. *)
Definition ovsOpCallback : Type :=
  World → Transaction → Operation → OperationResult →
  option (World * Transaction * Operation * OperationResult * error).

Definition set_o_Row (row : option Row) (o : Operation) : Operation :=
  mkOperation (o_Op o) (o_Table o) row (o_Rows o) (o_Columns o) (o_Mutations o)
              (o_Timeout o) (o_Where o) (o_Until o) (o_Durable o) (o_Comment o)
              (o_UUID o) (o_UUIDName o).
Definition set_o_Rows (rows : option (list Row)) (o : Operation) : Operation :=
  mkOperation (o_Op o) (o_Table o) (o_Row o) rows (o_Columns o) (o_Mutations o)
              (o_Timeout o) (o_Where o) (o_Until o) (o_Durable o) (o_Comment o)
              (o_UUID o) (o_UUIDName o).

(** *** insert *)

(** preInsert: an insert without a uuid-name returns at once. *)
Definition preInsert : ovsOpCallback := λ w txn ovsOp ovsResult,
  if bool_decide (o_UUIDName ovsOp = None) then Some (w, txn, ovsOp, ovsResult, None)
  else
    let reserved : World * Transaction * error :=
      match o_UUIDName ovsOp with
      | Some uuidName =>
          let '(uuid, w) := GenerateUUID w in
          let uuid := match o_UUID ovsOp with Some goUUID => goUUID | None => uuid end in
          match mapUUID txn !! uuidName with
          | Some _ => (w, txn, Some E_DUP_UUIDNAME)
          | None => (w, set_mapUUID (MapUUID_Set (mapUUID txn) uuidName uuid) txn, None)
          end
      | None => (w, txn, None)
      end in
    match reserved with
    | (w, txn, Some err) => Some (w, txn, ovsOp, ovsResult, Some err)
    | (w, txn, None) =>
        table ← o_Table ovsOp;
        let key := NewTableKey (t_DBName (request txn)) table in
        Some (w, etcdGetData txn key, ovsOp, ovsResult, None)
    end.

(** doInsert.  The cache row is assigned the map of the operation's row, so
    the defaults, the uuid and the prepared values are seen through both. *)
Definition doInsert : ovsOpCallback := λ w txn ovsOp ovsResult,
  table ← o_Table ovsOp;
  match LookupTable (schemas txn) (t_DBName (request txn)) table with
  | Ret tableSchema =>
      let '(uuid, w) := GenerateUUID w in
      let uuid := match o_UUID ovsOp with Some goUUID => goUUID | None => uuid end in
      let named : outcome string :=
        match o_UUIDName ovsOp with
        | Some uuidName => MapUUID_Get (mapUUID txn) uuidName
        | None => Ret uuid
        end in
      match named with
      | Ret uuid =>
          let '(tableCache, c) := Cache_Table (cache txn) (t_DBName (request txn)) table in
          let txn := set_cache c txn in
          if existsb (λ entry : string * Row,
                        match o_UUID ovsOp with
                        | Some goUUID => bool_decide (entry.1 = goUUID)
                        | None => false
                        end) (map_to_list tableCache)
          then Some (w, txn, ovsOp, ovsResult, Some E_DUP_UUID)
          else
            let ovsResult := InitUUID uuid ovsResult in
            let key := NewDataKey (t_DBName (request txn)) table uuid in
            let '(_, c) := Cache_Row (cache txn) key in
            let txn := set_cache c txn in
            row ← o_Row ovsOp;
            let row := Schemas_Default (schemas txn) (t_DBName (request txn)) table row in
            let row := setRowUUID row uuid in
            match RowPrepare tableSchema (mapUUID txn) row with
            | (row, Ret _) =>
                let txn := set_cache (Cache_setRow (cache txn) key row) txn in
                let ovsOp := set_o_Row (Some row) ovsOp in
                '(txn, err) ← etcdCreateRow txn key row;
                Some (w, txn, ovsOp, ovsResult, err)
            | (row, Fail _) =>
                Some (w, set_cache (Cache_setRow (cache txn) key row) txn,
                      set_o_Row (Some row) ovsOp, ovsResult, Some E_CONSTRAINT_VIOLATION)
            | (_, Panic) => None
            end
      | Fail e => Some (w, txn, ovsOp, ovsResult, Some e)
      | Panic => None
      end
  | Fail _ => Some (w, txn, ovsOp, ovsResult, Some E_INTERNAL_ERROR)
  | Panic => None
  end.

(** *** select *)

Definition preSelect : ovsOpCallback := λ w txn ovsOp ovsResult,
  '(txn, err) ← etcdGetByWhere txn ovsOp;
  Some (w, txn, ovsOp, ovsResult, err).

(** The loop of doSelect over the rows of the cached table. *)
Fixpoint doSelect_loop (tableSchema : TableSchema) (mapUUID : MapUUID) (ovsOp : Operation)
    (rows : list (string * Row)) (ovsResult : OperationResult)
  : option (OperationResult * error) :=
  match rows with
  | [] => Some (ovsResult, None)
  | (_, row) :: rest =>
      match isRowSelectedByWhere tableSchema mapUUID row (o_Where ovsOp) with
      | Ret ok =>
          if negb ok then doSelect_loop tableSchema mapUUID ovsOp rest ovsResult
          else
            match reduceRowByColumns row (o_Columns ovsOp) with
            | Ret resultRow =>
                doSelect_loop tableSchema mapUUID ovsOp rest (AppendRows resultRow ovsResult)
            | Fail e => Some (ovsResult, Some e)
            | Panic => None
            end
      | Fail e => Some (ovsResult, Some e)
      | Panic => None
      end
  end.

Definition doSelect : ovsOpCallback := λ w txn ovsOp ovsResult,
  let ovsResult := InitRows ovsResult in
  table ← o_Table ovsOp;
  match LookupTable (schemas txn) (t_DBName (request txn)) table with
  | Ret tableSchema =>
      let '(tableCache, c) := Cache_Table (cache txn) (t_DBName (request txn)) table in
      let txn := set_cache c txn in
      '(ovsResult, err) ←
        doSelect_loop tableSchema (mapUUID txn) ovsOp (map_to_list tableCache) ovsResult;
      Some (w, txn, ovsOp, ovsResult, err)
  | Fail _ => Some (w, txn, ovsOp, ovsResult, Some E_INTERNAL_ERROR)
  | Panic => None
  end.

(** *** update *)

Definition preUpdate : ovsOpCallback := λ w txn ovsOp ovsResult,
  '(txn, err) ← etcdGetByWhere txn ovsOp;
  Some (w, txn, ovsOp, ovsResult, err).

(** The loop of doUpdate: the operation's row is prepared again for every
    selected row; the error of etcdModifyRow is dropped. *)
Fixpoint doUpdate_loop (tableSchema : TableSchema) (table : string)
    (rows : list (string * Row)) (txn : Transaction) (ovsOp : Operation)
    (ovsResult : OperationResult)
  : option (Transaction * Operation * OperationResult * error) :=
  match rows with
  | [] => Some (txn, ovsOp, ovsResult, None)
  | (uuid, row) :: rest =>
      match isRowSelectedByWhere tableSchema (mapUUID txn) row (o_Where ovsOp) with
      | Ret ok =>
          if negb ok then doUpdate_loop tableSchema table rest txn ovsOp ovsResult
          else
            update ← o_Row ovsOp;
            match RowPrepare tableSchema (mapUUID txn) update with
            | (update, Ret _) =>
                let ovsOp := set_o_Row (Some update) ovsOp in
                let key := NewDataKey (t_DBName (request txn)) table uuid in
                match RowUpdate tableSchema (mapUUID txn) row update with
                | (row, Ret _) =>
                    let txn := set_cache (Cache_setRow (cache txn) key row) txn in
                    '(txn, _) ← etcdModifyRow txn key row;
                    doUpdate_loop tableSchema table rest txn ovsOp (IncrementCount ovsResult)
                | (row, Fail e) =>
                    Some (set_cache (Cache_setRow (cache txn) key row) txn,
                          ovsOp, ovsResult, Some e)
                | (_, Panic) => None
                end
            | (update, Fail e) => Some (txn, set_o_Row (Some update) ovsOp, ovsResult, Some e)
            | (_, Panic) => None
            end
      | Fail e => Some (txn, ovsOp, ovsResult, Some e)
      | Panic => None
      end
  end.

Definition doUpdate : ovsOpCallback := λ w txn ovsOp ovsResult,
  let ovsResult := InitCount ovsResult in
  table ← o_Table ovsOp;
  match LookupTable (schemas txn) (t_DBName (request txn)) table with
  | Ret tableSchema =>
      let '(tableCache, c) := Cache_Table (cache txn) (t_DBName (request txn)) table in
      let txn := set_cache c txn in
      '(txn, ovsOp, ovsResult, err) ←
        doUpdate_loop tableSchema table (map_to_list tableCache) txn ovsOp ovsResult;
      Some (w, txn, ovsOp, ovsResult, err)
  | Fail _ => Some (w, txn, ovsOp, ovsResult, Some E_INTERNAL_ERROR)
  | Panic => None
  end.

(** *** mutate *)

Definition preMutate : ovsOpCallback := λ w txn ovsOp ovsResult,
  '(txn, err) ← etcdGetByWhere txn ovsOp;
  Some (w, txn, ovsOp, ovsResult, err).

Fixpoint doMutate_loop (tableSchema : TableSchema) (table : string)
    (rows : list (string * Row)) (txn : Transaction) (ovsOp : Operation)
    (ovsResult : OperationResult)
  : option (Transaction * OperationResult * error) :=
  match rows with
  | [] => Some (txn, ovsResult, None)
  | (uuid, row) :: rest =>
      match isRowSelectedByWhere tableSchema (mapUUID txn) row (o_Where ovsOp) with
      | Ret ok =>
          if negb ok then doMutate_loop tableSchema table rest txn ovsOp ovsResult
          else
            match RowMutate tableSchema (mapUUID txn) row (o_Mutations ovsOp) with
            | (row, Ret _) =>
                let key := NewDataKey (t_DBName (request txn)) table uuid in
                let txn := set_cache (Cache_setRow (cache txn) key row) txn in
                '(txn, _) ← etcdModifyRow txn key row;
                doMutate_loop tableSchema table rest txn ovsOp (IncrementCount ovsResult)
            | (row, Fail e) =>
                let key := NewDataKey (t_DBName (request txn)) table uuid in
                Some (set_cache (Cache_setRow (cache txn) key row) txn, ovsResult, Some e)
            | (_, Panic) => None
            end
      | Fail e => Some (txn, ovsResult, Some e)
      | Panic => None
      end
  end.

Definition doMutate : ovsOpCallback := λ w txn ovsOp ovsResult,
  let ovsResult := InitCount ovsResult in
  table ← o_Table ovsOp;
  match LookupTable (schemas txn) (t_DBName (request txn)) table with
  | Ret tableSchema =>
      let '(tableCache, c) := Cache_Table (cache txn) (t_DBName (request txn)) table in
      let txn := set_cache c txn in
      '(txn, ovsResult, err) ←
        doMutate_loop tableSchema table (map_to_list tableCache) txn ovsOp ovsResult;
      Some (w, txn, ovsOp, ovsResult, err)
  | Fail _ => Some (w, txn, ovsOp, ovsResult, Some E_INTERNAL_ERROR)
  | Panic => None
  end.

(** *** delete *)

Definition preDelete : ovsOpCallback := λ w txn ovsOp ovsResult,
  '(txn, err) ← etcdGetByWhere txn ovsOp;
  Some (w, txn, ovsOp, ovsResult, err).

Fixpoint doDelete_loop (tableSchema : TableSchema) (table : string)
    (rows : list (string * Row)) (txn : Transaction) (ovsOp : Operation)
    (ovsResult : OperationResult)
  : option (Transaction * OperationResult * error) :=
  match rows with
  | [] => Some (txn, ovsResult, None)
  | (uuid, row) :: rest =>
      match isRowSelectedByWhere tableSchema (mapUUID txn) row (o_Where ovsOp) with
      | Ret ok =>
          if negb ok then doDelete_loop tableSchema table rest txn ovsOp ovsResult
          else
            let key := NewDataKey (t_DBName (request txn)) table uuid in
            '(txn, _) ← etcdDeleteRow txn key;
            doDelete_loop tableSchema table rest txn ovsOp (IncrementCount ovsResult)
      | Fail e => Some (txn, ovsResult, Some e)
      | Panic => None
      end
  end.

Definition doDelete : ovsOpCallback := λ w txn ovsOp ovsResult,
  let ovsResult := InitCount ovsResult in
  table ← o_Table ovsOp;
  match LookupTable (schemas txn) (t_DBName (request txn)) table with
  | Ret tableSchema =>
      let '(tableCache, c) := Cache_Table (cache txn) (t_DBName (request txn)) table in
      let txn := set_cache c txn in
      '(txn, ovsResult, err) ←
        doDelete_loop tableSchema table (map_to_list tableCache) txn ovsOp ovsResult;
      Some (w, txn, ovsOp, ovsResult, err)
  | Fail _ => Some (w, txn, ovsOp, ovsResult, Some E_INTERNAL_ERROR)
  | Panic => None
  end.

(** *** wait *)

Definition preWait : ovsOpCallback := λ w txn ovsOp ovsResult,
  match o_Timeout ovsOp with
  | None => Some (w, txn, ovsOp, ovsResult, Some E_CONSTRAINT_VIOLATION)
  | Some _ =>
      '(txn, err) ← etcdGetByWhere txn ovsOp;
      Some (w, txn, ovsOp, ovsResult, err)
  end.

(** What an iteration of the loops of doWait decides. *)
Inductive waitStep : Type :=
  | WaitNext
  | WaitReturn (err : error).

(** The inner loop of doWait over the expected rows; every expected row is
    prepared where it lies, so the rows come back. *)
Fixpoint doWait_rows (tableSchema : TableSchema) (mapUUID : MapUUID) (equal : bool)
    (actual : Row) (todo done : list Row) : option (list Row * waitStep) :=
  match todo with
  | [] => Some (done, WaitNext)
  | expected :: rest =>
      match RowPrepare tableSchema mapUUID expected with
      | (expected, Ret _) =>
          match isEqualRow tableSchema expected actual with
          | Ret cond =>
              if cond then
                Some (done ++ expected :: rest,
                      WaitReturn (if equal then None else Some E_TIMEOUT))
              else doWait_rows tableSchema mapUUID equal actual rest (done ++ [expected])
          | Fail e => Some (done ++ expected :: rest, WaitReturn (Some e))
          | Panic => None
          end
      | (expected, Fail e) => Some (done ++ expected :: rest, WaitReturn (Some e))
      | (_, Panic) => None
      end
  end.

Fixpoint doWait_loop (tableSchema : TableSchema) (mapUUID : MapUUID) (equal : bool)
    (ovsOp : Operation) (rows : list (string * Row)) (expectedRows : list Row)
  : option (list Row * waitStep) :=
  match rows with
  | [] => Some (expectedRows, WaitNext)
  | (_, actual) :: rest =>
      match isRowSelectedByWhere tableSchema mapUUID actual (o_Where ovsOp) with
      | Ret ok =>
          if negb ok then doWait_loop tableSchema mapUUID equal ovsOp rest expectedRows
          else
            let reduced :=
              match o_Columns ovsOp with
              | Some _ => reduceRowByColumns actual (o_Columns ovsOp)
              | None => Ret actual
              end in
            match reduced with
            | Ret actual =>
                '(expectedRows, step) ←
                  doWait_rows tableSchema mapUUID equal actual expectedRows [];
                match step with
                | WaitNext => doWait_loop tableSchema mapUUID equal ovsOp rest expectedRows
                | WaitReturn err => Some (expectedRows, WaitReturn err)
                end
            | Fail e => Some (expectedRows, WaitReturn (Some e))
            | Panic => None
            end
      | Fail e => Some (expectedRows, WaitReturn (Some e))
      | Panic => None
      end
  end.

Definition doWait : ovsOpCallback := λ w txn ovsOp ovsResult,
  let fail (e : string) := Some (w, txn, ovsOp, ovsResult, Some e) in
  match o_Table ovsOp with
  | None => fail E_CONSTRAINT_VIOLATION
  | Some table =>
      match o_Rows ovsOp with
      | None => fail E_CONSTRAINT_VIOLATION
      | Some expectedRows =>
          if bool_decide (len expectedRows = 0) then Some (w, txn, ovsOp, ovsResult, None)
          else
            match o_Until ovsOp with
            | None => fail E_CONSTRAINT_VIOLATION
            | Some until =>
                match LookupTable (schemas txn) (t_DBName (request txn)) table with
                | Ret tableSchema =>
                    let run (equal : bool) :=
                      let '(tableCache, c) :=
                        Cache_Table (cache txn) (t_DBName (request txn)) table in
                      let txn := set_cache c txn in
                      '(expectedRows, step) ←
                        doWait_loop tableSchema (mapUUID txn) equal ovsOp
                                    (map_to_list tableCache) expectedRows;
                      let ovsOp := set_o_Rows (Some expectedRows) ovsOp in
                      match step with
                      | WaitReturn err => Some (w, txn, ovsOp, ovsResult, err)
                      | WaitNext =>
                          Some (w, txn, ovsOp, ovsResult,
                                if negb equal then None else Some E_TIMEOUT)
                      end in
                    if bool_decide (until = FN_EQ) then run true
                    else if bool_decide (until = FN_NE) then run false
                    else fail E_CONSTRAINT_VIOLATION
                | Fail _ => fail E_INTERNAL_ERROR
                | Panic => None
                end
            end
      end
  end.

(** *** commit, abort, comment, assert *)

Definition preCommit : ovsOpCallback := λ w txn ovsOp ovsResult,
  match o_Durable ovsOp with
  | None => Some (w, txn, ovsOp, ovsResult, Some E_CONSTRAINT_VIOLATION)
  | Some true => Some (w, txn, ovsOp, ovsResult, Some E_NOT_SUPPORTED)
  | Some false => Some (w, txn, ovsOp, ovsResult, None)
  end.

Definition doCommit : ovsOpCallback := λ w txn ovsOp ovsResult,
  Some (w, txn, ovsOp, ovsResult, None).

Definition preAbort : ovsOpCallback := λ w txn ovsOp ovsResult,
  Some (w, txn, ovsOp, ovsResult, Some E_ABORTED).

Definition doAbort : ovsOpCallback := λ w txn ovsOp ovsResult,
  Some (w, txn, ovsOp, ovsResult, None).

Definition preComment : ovsOpCallback := λ w txn ovsOp ovsResult,
  Some (w, txn, ovsOp, ovsResult, None).

(** doComment: the write of the comment is paired with a nil event. *)
Definition doComment : ovsOpCallback := λ w txn ovsOp ovsResult,
  let '(timestamp, w) := time_Now_RFC3339 w in
  let key := NewCommentKey timestamp in
  comment ← o_Comment ovsOp;
  let txn := appendThen (OpPut (Key_String key) comment) txn in
  let txn := appendEvent None txn in
  _ ← Etcd_Assert (etcd txn);
  Some (w, txn, ovsOp, ovsResult, None).

Definition preAssert : ovsOpCallback := λ w txn ovsOp ovsResult,
  Some (w, txn, ovsOp, ovsResult, None).

Definition doAssert : ovsOpCallback := λ w txn ovsOp ovsResult,
  Some (w, txn, ovsOp, ovsResult, None).

(** ovsOpCallbackMap: the (pre, do) pair of an operation; an unknown
    operation has none, and calling it panics. *)
Definition ovsOpCallbackMap (op : string) : option (ovsOpCallback * ovsOpCallback) :=
  if bool_decide (op = OP_INSERT) then Some (preInsert, doInsert)
  else if bool_decide (op = OP_SELECT) then Some (preSelect, doSelect)
  else if bool_decide (op = OP_UPDATE) then Some (preUpdate, doUpdate)
  else if bool_decide (op = OP_MUTATE) then Some (preMutate, doMutate)
  else if bool_decide (op = OP_DELETE) then Some (preDelete, doDelete)
  else if bool_decide (op = OP_WAIT) then Some (preWait, doWait)
  else if bool_decide (op = OP_COMMIT) then Some (preCommit, doCommit)
  else if bool_decide (op = OP_ABORT) then Some (preAbort, doAbort)
  else if bool_decide (op = OP_COMMENT) then Some (preComment, doComment)
  else if bool_decide (op = OP_ASSERT) then Some (preAssert, doAssert)
  else None.

(** ** Commit *)

Definition set_tr_Error (e : option string) (r : TransactResponse) : TransactResponse :=
  mkTransactResponse (tr_Result r) e.
Definition set_tr_Result (l : list OperationResult) (r : TransactResponse) : TransactResponse :=
  mkTransactResponse l (tr_Error r).
Definition set_t_Operations (ops : list Operation) (t : Transact) : Transact :=
  mkTransact (t_DBName t) ops.

(** The scan of Commit for a select mixed with other operations. *)
Definition hasSelectAndOther (operations : list Operation) : bool * bool :=
  foldl (λ '(hasSelect, hasOther) ovsOp,
           if bool_decide (o_Op ovsOp = OP_SELECT) then (true, hasOther)
           else (hasSelect, true))
        (false, false) operations.

(** One of the two loops of Commit over the operations: [phase] picks the
    pre or the do callback.  An error stamps the result of the operation and
    the response and ends the loop; a cache that does not validate after a
    callback panics. *)
Fixpoint Commit_pass (phase : ovsOpCallback * ovsOpCallback → ovsOpCallback)
    (indices : list nat) (w : World) (txn : Transaction)
  : option (World * Transaction * error) :=
  match indices with
  | [] => Some (w, txn, None)
  | i :: rest =>
      ovsOp ← t_Operations (request txn) !! i;
      ovsResult ← tr_Result (response txn) !! i;
      callbacks ← ovsOpCallbackMap (o_Op ovsOp);
      '(w, txn, ovsOp, ovsResult, err) ← phase callbacks w txn ovsOp ovsResult;
      let txn :=
        set_request (set_t_Operations (<[i := ovsOp]> (t_Operations (request txn)))
                                      (request txn)) txn in
      let txn :=
        set_response (set_tr_Result (<[i := ovsResult]> (tr_Result (response txn)))
                                    (response txn)) txn in
      match err with
      | Some errStr =>
          let txn :=
            set_response
              (set_tr_Error (Some errStr)
                 (set_tr_Result (<[i := SetError errStr ovsResult]> (tr_Result (response txn)))
                                (response txn))) txn in
          Some (w, txn, Some errStr)
      | None =>
          match Cache_Validate (cache txn) (schemas txn) with
          | Ret _ => Commit_pass phase rest w txn
          | _ => None
          end
      end
  end.

Definition set_txn_etcd_Clear (txn : Transaction) : option Transaction :=
  etcd ← Etcd_Clear (etcd txn); Some (set_etcd etcd txn).

(** Commit between Lock and the deferred Unlock: the revision and the
    error returned. *)
Definition Commit_locked (w : World) (txn : Transaction)
  : option (World * Transaction * Z * error) :=
  let operations := t_Operations (request txn) in
  let '(hasSelect, hasOther) := hasSelectAndOther operations in
  if hasSelect && hasOther then
    Some (w, set_response (set_tr_Error (Some E_CONSTRAINT_VIOLATION) (response txn)) txn,
          -1, Some E_CONSTRAINT_VIOLATION)
  else
    txn ← set_txn_etcd_Clear txn;
    '(w, txn, err) ← Commit_pass fst (seq 0 (length operations)) w txn;
    match err with
    | Some e => Some (w, txn, -1, Some e)
    | None =>
        match etcdTranaction w txn with
        | (w, txn, Fail e) =>
            Some (w, set_response (set_tr_Error (Some e) (response txn)) txn, -1, Some e)
        | (_, _, Panic) => None
        | (w, txn, Ret _) =>
            txn ← set_txn_etcd_Clear txn;
            '(w, txn, err) ← Commit_pass snd (seq 0 (length operations)) w txn;
            match err with
            | Some e => Some (w, txn, -1, Some e)
            | None =>
                etcd ← etcdRemoveDup (etcd txn);
                let txn := set_etcd etcd txn in
                match etcdTranaction w txn with
                | (w, txn, Fail e) =>
                    Some (w, set_response (set_tr_Error (Some e) (response txn)) txn,
                          -1, Some e)
                | (_, _, Panic) => None
                | (w, txn, Ret trResponse) => Some (w, txn, Revision trResponse, None)
                end
            end
        end
    end.

(** Transaction.Commit: the lock of the database is taken from the
    transaction's own registry and released when the body returns.  [None]
    is a Commit that does not return (a panic, or a lock that blocks). *)
Definition Commit (w : World) (txn : Transaction) : option (World * Transaction * Z * error) :=
  match TxnLock_Lock (lock txn) (t_DBName (request txn)) with
  | Acquired l =>
      '(w, txn, revision, err) ← Commit_locked w (set_lock l txn);
      match TxnLock_Unlock (lock txn) (t_DBName (request txn)) with
      | Acquired l => Some (w, set_lock l txn, revision, err)
      | _ => None
      end
  | _ => None
  end.

End Engine.

(** ** Concurrent commits

    The lock registries of the process live on a heap, by address.  A thread
    runs Commit of one transaction: it is before Lock, inside a Lock that
    waits in [db.Lock()] with the root mutex held, between Lock and the
    deferred Unlock (where Commit does all its work), or past Unlock.  A
    call that runs under the root mutex from its first statement to its
    return is one step; a call that waits for the root mutex is a step that
    is not enabled. *)
Abbreviation LockHeap := (list TxnLock).

Inductive Phase : Type := BeforeLock | InLock | InCommit | AfterUnlock.

Record Thread : Type := mkThread {
  th_lock : nat;
  th_dbname : string;
  th_phase : Phase
}.

#[global] Instance Phase_eq_dec : EqDecision Phase.
Proof. solve_decision. Defined.

(** NewTransaction, as far as locking goes: [txn.lock = NewTxnLock()]
    allocates a registry, and the transaction keeps its address. *)
Definition NewTransaction_lock (heap : LockHeap) (request : Transact) : LockHeap * Thread :=
  (heap ++ [NewTxnLock], mkThread (length heap) (t_DBName request) BeforeLock).

(** A transaction that is handed the address of an existing registry
    instead (what a process-wide registry would do). *)
Definition sharedTransaction_lock (registry : nat) (request : Transact) : Thread :=
  mkThread registry (t_DBName request) BeforeLock.

Inductive thread_step : LockHeap → Thread → LockHeap → Thread → Prop :=
  | step_Lock heap th l l' :
      th_phase th = BeforeLock →
      heap !! th_lock th = Some l →
      TxnLock_Lock l (th_dbname th) = Acquired l' →
      thread_step heap th (<[th_lock th := l']> heap)
                  (mkThread (th_lock th) (th_dbname th) InCommit)
  | step_Lock_wait heap th l l' :
      th_phase th = BeforeLock →
      heap !! th_lock th = Some l →
      lock_root l = false →
      TxnLock_Lock l (th_dbname th) = Blocked l' →
      thread_step heap th (<[th_lock th := l']> heap)
                  (mkThread (th_lock th) (th_dbname th) InLock)
  | step_Lock_wake heap th l l' :
      th_phase th = InLock →
      heap !! th_lock th = Some l →
      TxnLock_Lock_wake l (th_dbname th) = Acquired l' →
      thread_step heap th (<[th_lock th := l']> heap)
                  (mkThread (th_lock th) (th_dbname th) InCommit)
  | step_Unlock heap th l l' :
      th_phase th = InCommit →
      heap !! th_lock th = Some l →
      TxnLock_Unlock l (th_dbname th) = Acquired l' →
      thread_step heap th (<[th_lock th := l']> heap)
                  (mkThread (th_lock th) (th_dbname th) AfterUnlock).

Inductive system_step : LockHeap * list Thread → LockHeap * list Thread → Prop :=
  | step_thread heap threads i th heap' th' :
      threads !! i = Some th →
      thread_step heap th heap' th' →
      system_step (heap, threads) (heap', <[i := th']> threads).

(** Two threads are inside Commit on the same database at once. *)
Definition overlap (threads : list Thread) : Prop :=
  ∃ i j ti tj, i ≠ j ∧ threads !! i = Some ti ∧ threads !! j = Some tj ∧
    th_phase ti = InCommit ∧ th_phase tj = InCommit ∧ th_dbname ti = th_dbname tj.

(** The number of threads inside Commit. *)
Definition inCommit (threads : list Thread) : nat :=
  length (filter (λ th, th_phase th = InCommit) threads).

(** The state of the mutex of [dbname] in a registry. *)
Definition held (l : TxnLock) (dbname : string) : bool :=
  default false (lock_databases l !! dbname).

(** What a registry shared by all the threads keeps true: every thread
    points to it, and the mutex of the database is held exactly when one
    thread is inside Commit. *)
Definition sharedInv (registry : nat) (dbname : string)
    (st : LockHeap * list Thread) : Prop :=
  ∃ l, st.1 !! registry = Some l ∧
       Forall (λ th, th_lock th = registry ∧ th_dbname th = dbname) st.2 ∧
       inCommit st.2 = (if held l dbname then 1 else 0)%nat.

(** * Specifications and invariants *)

(** ** Specification side of the compaction

    The write stream with, for every key, only its last write, in stream
    order. *)
Fixpoint keepLastWrite (ops : list Op) : list Op :=
  match ops with
  | [] => []
  | op :: rest =>
      if bool_decide (etcdOpKey op ∈ etcdOpKey <$> rest) then keepLastWrite rest
      else op :: keepLastWrite rest
  end.

(** The state of the second loop of etcdRemoveDupThen before iteration [i]:
    a slot is nil exactly when a later write before [i] has its key, and
    [prevKeyIndex] holds the last index before [i] of every key. *)
Definition thenInv (ops : list Op) (i : nat)
    (st : list (option Op) * gmap string nat) : Prop :=
  length st.1 = length ops ∧
  (∀ j op, ops !! j = Some op →
     (st.1 !! j = Some (Some op) ∧
      ∀ j' op', (j < j' < i)%nat → ops !! j' = Some op' → etcdOpKey op' ≠ etcdOpKey op)
     ∨ (st.1 !! j = Some None ∧
        ∃ j' op', (j < j' < i)%nat ∧ ops !! j' = Some op' ∧ etcdOpKey op' = etcdOpKey op)) ∧
  (∀ k, match st.2 !! k with
        | Some p =>
            (p < i)%nat ∧ (∃ op, ops !! p = Some op ∧ etcdOpKey op = k) ∧
            ∀ j' op', (p < j' < i)%nat → ops !! j' = Some op' → etcdOpKey op' ≠ k
        | None => ∀ j' op', (j' < i)%nat → ops !! j' = Some op' → etcdOpKey op' ≠ k
        end).

(** The event stream with, for every key, only its first event, in stream
    order, and without the nil placeholders; [seen] are the keys met so far. *)
Fixpoint keepFirstEvent (seen : list string) (events : list (option Event))
  : list (option Event) :=
  match events with
  | [] => []
  | None :: rest => keepFirstEvent seen rest
  | Some ev :: rest =>
      match etcdEventKey ev with
      | Some k =>
          if bool_decide (k ∈ seen) then keepFirstEvent seen rest
          else Some ev :: keepFirstEvent (k :: seen) rest
      | None => keepFirstEvent seen rest
      end
  end.

(** The number of nil placeholders of an event stream. *)
Definition countNil (events : list (option Event)) : Z :=
  len (filter (λ curr, curr = None) events).

(** The events that the engine builds: a key can be read off, and a PUT
    event carries its Kv. *)
Definition wfEvent (ev : Event) : Prop :=
  is_Some (etcdEventKey ev) ∧ (ev_Type ev = PUT → is_Some (ev_Kv ev)).

Definition wfEvents (events : list (option Event)) : Prop :=
  ∀ ev, Some ev ∈ events → wfEvent ev.

(** The keys of the events of a stream, and the keys of the writes that are
    paired with a nil event (the comments). *)
Definition eventKeys (events : list (option Event)) : list string :=
  omap (λ curr : option Event, curr ≫= etcdEventKey) events.

Fixpoint commentKeys (ops : list Op) (events : list (option Event)) : list string :=
  match ops, events with
  | op :: ops, None :: events => etcdOpKey op :: commentKeys ops events
  | _ :: ops, Some _ :: events => commentKeys ops events
  | _, _ => []
  end.

(** The buffer as the do phase fills it: writes and events side by side,
    every event with the key of its write, and no nil event counted yet. *)
Definition aligned (etcd : Etcd) : Prop :=
  EventsNilCount etcd = 0 ∧
  Forall2 (λ op curr,
             match curr with
             | Some ev => wfEvent ev ∧ etcdEventKey ev = Some (etcdOpKey op)
             | None => True
             end) (Then etcd) (Events etcd).

(** The state of the second loop of etcdRemoveDupEvents before iteration
    [i]: the slots from [i] on are untouched, a slot before [i] is nil exactly
    when it was nil or an earlier event has its key, and [prevKeyIndex] knows
    the keys of the events before [i]. *)
Definition eventInv (events : list (option Event)) (i : nat)
    (st : list (option Event) * gmap string nat) : Prop :=
  length st.1 = length events ∧
  (∀ j, (i ≤ j)%nat → st.1 !! j = events !! j) ∧
  (∀ j, (j < i)%nat → events !! j = Some None → st.1 !! j = Some None) ∧
  (∀ j ev k, (j < i)%nat → events !! j = Some (Some ev) → etcdEventKey ev = Some k →
     (st.1 !! j = Some (Some ev) ∧
      ∀ j' ev', (j' < j)%nat → events !! j' = Some (Some ev') → etcdEventKey ev' ≠ Some k)
     ∨ (st.1 !! j = Some None ∧
        ∃ j' ev', (j' < j)%nat ∧ events !! j' = Some (Some ev') ∧ etcdEventKey ev' = Some k)) ∧
  (∀ k, match st.2 !! k with
        | Some p => (p < i)%nat ∧ ∃ ev, events !! p = Some (Some ev) ∧ etcdEventKey ev = Some k
        | None => ∀ j' ev', (j' < i)%nat → events !! j' = Some (Some ev') →
                            etcdEventKey ev' ≠ Some k
        end).

(** ** Specification side of value equality *)

(** Every element of [s1] is deeply equal to some element of [s2]. *)
Definition setIncluded (s1 s2 : list Base) : Prop :=
  ∀ x, x ∈ s1 → ∃ y, y ∈ s2 ∧ deepEqualBase x y = true.

(** Every key of [m1] is bound in [m2] to a deeply equal value. *)
Definition mapIncluded (m1 m2 : gmap MapKey Base) : Prop :=
  ∀ k v, m1 !! k = Some v → ∃ v', m2 !! k = Some v' ∧ isEqualValue (VBase v) (VBase v') = true.

(** A base value that Go's [==] finds equal to itself: anything but a NaN. *)
Definition selfEqual (x : Base) : Prop := deepEqualBase x x = true.

(** ** The pairing invariant *)

(** I3: the number of writes is the number of events plus the nil-event
    counter. *)
Definition pairing (etcd : Etcd) : Prop :=
  len (Then etcd) = len (Events etcd) + EventsNilCount etcd.

(** ** Specification side of RowMutate *)

Section MutationSpec.
Context `{ext : External}.

(** Every mutation of the group compiles and applies without error, one
    after the other, and takes the working copy [row] of [shared] to the last
    working copy. *)
Inductive mutatesTo (tableSchema : TableSchema) (mapUUID : MapUUID)
  : list Value → Row → Row → Row → Row → Prop :=
  | mutatesTo_nil shared row : mutatesTo tableSchema mapUUID [] shared row shared row
  | mutatesTo_cons mt mutation rest shared row shared1 row1 shared2 row2 :
      NewMutation tableSchema mapUUID mt = Ret mutation →
      Mutation_Mutate mutation shared row = (shared1, row1, Ret tt) →
      mutatesTo tableSchema mapUUID rest shared1 row1 shared2 row2 →
      mutatesTo tableSchema mapUUID (VSlice mt :: rest) shared row shared2 row2.

(** Some mutation of the group fails with [e], after all the mutations
    before it succeeded; [shared'] is what the row that was copied holds
    then. *)
Inductive mutationFails (tableSchema : TableSchema) (mapUUID : MapUUID)
  : list Value → Row → Row → Row → string → Prop :=
  | mutationFails_compile mt rest shared row e :
      NewMutation tableSchema mapUUID mt = Fail e →
      mutationFails tableSchema mapUUID (VSlice mt :: rest) shared row shared e
  | mutationFails_apply mt mutation rest shared row shared1 row1 e :
      NewMutation tableSchema mapUUID mt = Ret mutation →
      Mutation_Mutate mutation shared row = (shared1, row1, Fail e) →
      mutationFails tableSchema mapUUID (VSlice mt :: rest) shared row shared1 e
  | mutationFails_later mt mutation rest shared row shared1 row1 shared2 e :
      NewMutation tableSchema mapUUID mt = Ret mutation →
      Mutation_Mutate mutation shared row = (shared1, row1, Ret tt) →
      mutationFails tableSchema mapUUID rest shared1 row1 shared2 e →
      mutationFails tableSchema mapUUID (VSlice mt :: rest) shared row shared2 e.

(** The columns of [row] are columns of [row']. *)
Definition covers (row row' : Row) : Prop :=
  ∀ column, is_Some (row !! column) → is_Some (row' !! column).

(** The map columns of [row] are the map columns of [shared], with the same
    content: what two rows that hold the same map objects look like. *)
Definition sharesMaps (shared row : Row) : Prop :=
  ∀ column g, shared !! column = Some (VMap g) ↔ row !! column = Some (VMap g).

End MutationSpec.

(** ** Specification side of doSelect *)

Section SelectSpec.
Context `{ext : External}.

(** The where clause selects the row, without error. *)
Definition selects (tableSchema : TableSchema) (mapUUID : MapUUID)
    (where_ : option (list Value)) (entry : string * Row) : bool :=
  match isRowSelectedByWhere tableSchema mapUUID entry.2 where_ with
  | Ret true => true
  | _ => false
  end.

(** [resultRow] has exactly the columns asked for, each with what the row
    has under that name, which is nil for a name that the row does not
    have. *)
Definition projects (columns : list string) (resultRow : Row) (entry : string * Row) : Prop :=
  ∀ column,
    resultRow !! column
    = if bool_decide (column ∈ columns) then Some (rowGet entry.2 column) else None.

End SelectSpec.

(** ** Specification side of RowUpdate *)

(** A column that an update may write: the schema knows it, it is not
    [_uuid] or [_version], and it is not declared immutable. *)
Definition updatable (tableSchema : TableSchema) (column : string) : Prop :=
  ∃ columnSchema, ts_Columns tableSchema !! column = Some columnSchema ∧
                  column ≠ COL_UUID ∧ column ≠ COL_VERSION ∧
                  cs_Mutable columnSchema ≠ Some false.

(** ** Specification side of the named uuids *)

Section ResolvSpec.
Context `{ext : External}.

(** A base value that ResolvUUID leaves alone: anything but a uuid whose
    text is not empty and does not validate. *)
Definition resolvedBase (b : Base) : Prop :=
  match b with
  | BKey (KUUID goUUID) => goUUID = "" ∨ ValidateUUID goUUID = Ret tt
  | _ => True
  end.

(** The uuids that the names stand for are uuids, not names. *)
Definition resolvedNames (mapUUID : MapUUID) : Prop :=
  ∀ uuidName uuid, mapUUID !! uuidName = Some uuid → resolvedBase (BKey (KUUID uuid)).

(** What Resolv makes of a value, and the value itself where Resolv
    fails. *)
Definition resolveValue (mapUUID : MapUUID) (value : Value) : Value :=
  match Resolv mapUUID value with
  | Ret value' => value'
  | _ => value
  end.

End ResolvSpec.

(** ** Specification side of the row cache *)

#[global] Instance Key_eq_dec : EqDecision Key.
Proof. solve_decision. Defined.

(** The row that the cache holds under a key, if any. *)
Definition Cache_lookup (c : Cache) (key : Key) : option Row :=
  databaseCache ← c !! key_DBName key;
  tableCache ← databaseCache !! key_TableName key;
  tableCache !! key_UUID key.

(** ** A world to run the engine in

    An instance of the collaborators for the examples below: keys are
    [ovsdb/nb/<database>/<table>/<uuid>], the schema hooks accept every
    value as it is, a uuid is valid when it has 36 characters, rows are
    rendered by [showRow], the clock stands still, and the backend is empty
    and logs every batch that is submitted to it. *)
Module Example.

Record world : Type := mkWorld {
  uuids : nat;
  submitted : list (list Op)
}.

Definition keyString (k : Key) : string :=
  "ovsdb/nb/" +:+ key_DBName k +:+ "/" +:+ key_TableName k +:+ "/" +:+ key_UUID k.

Definition uuidOf (n : nat) : string :=
  "00000000-0000-0000-0000-00000000000" +:+ String (Ascii.ascii_of_nat (48 + n mod 10)) "".

(** A rendering of a row in the manner of JSON: strings, integers and
    uuids are shown, any other value is a question mark. *)
Definition showValue (v : Value) : string :=
  match v with
  | VString s => s
  | VInt n => pretty n
  | VUUID u => u
  | _ => "?"
  end.

Definition showRow (row : Row) : string :=
  "{" +:+ String.concat "," ((λ '(column, v), column +:+ ":" +:+ showValue v)
                               <$> map_to_list row) +:+ "}".

Definition respond (op : Op) : ResponseOp :=
  match op_t op with
  | tRange => ResponseRange []
  | tPut => ResponsePut
  | tDeleteRange => ResponseDeleteRange
  end.

Definition external : External := {|
  World := world;
  Key_String := keyString;
  ParseKey := λ _, Fail "not a key";
  NewCommentKey := λ timestamp, mkKey "_" "_comment" timestamp;
  GenerateUUID := λ w, (uuidOf (uuids w), mkWorld (S (uuids w)) (submitted w));
  time_Now_RFC3339 := λ w, ("2021-06-01T12:00:00Z", w);
  json_Marshal := λ row, Ret (showRow row);
  json_Unmarshal := λ _, Fail "not a row";
  ColumnSchema_Unmarshal := λ _ value, Ret value;
  ColumnSchema_Validate := λ _ _, Ret tt;
  TableSchema_Unmarshal := λ _ row, Ret row;
  TableSchema_Validate := λ _ _, Ret tt;
  Schemas_Default := λ _ _ _ row, row;
  Schemas_Unmarshal := λ _ _ _ row, Ret row;
  Schemas_Validate := λ _ _ _ _, Ret tt;
  UnmarshalUUID := λ value, Ret value;
  ValidateUUID := λ s, if bool_decide (String.length s = 36%nat) then Ret tt
                       else Fail "invalid uuid";
  Txn_Commit := λ w _ ops _,
    (Ret (mkTxnResponse 1 (respond <$> ops)), mkWorld (uuids w) (submitted w ++ [ops]))
|}.

(** The schema of the tests: database simple, table1 with a string column
    key1 and an integer column key2. *)
Definition testSchemaSimple : DatabaseSchema :=
  mkDatabaseSchema "simple" "0.0.0"
    {[ "table1" := mkTableSchema
         {[ "key1" := mkColumnSchema TypeString None None;
            "key2" := mkColumnSchema TypeInteger None None ]} ]}.

Definition noOperation (op : string) : Operation :=
  mkOperation op None None None None None None None None None None None None.

Definition onTable1 (op : string) (row : Row) : Operation :=
  mkOperation op (Some "table1") (Some row) None None None None None None None None None None.

End Example.

(** A request on the database simple, as the tests build it, committed on
    the empty backend of the example world. *)
Definition scenario (operations : list Operation) :=
  Commit (ext := Example.external) (Example.mkWorld 0 [])
    (AddSchema Example.testSchemaSimple (NewTransaction (mkTransact "simple" operations))).

(** ** A world whose backend holds rows

    A second instance of the collaborators, for the examples on loading the
    cache: the text of a key is the uuid of a row of table1 in the database
    simple, and the text of a value is the column key1 of the row; the empty
    text is no key and no row.  The rest is as in the first world. *)
Module ExampleStore.

Definition parseKey (s : string) : outcome Key :=
  if bool_decide (s = "") then Fail "empty key" else Ret (mkKey "simple" "table1" s).

Definition unmarshalRow (s : string) : outcome Row :=
  if bool_decide (s = "") then Fail "unexpected end of JSON input"
  else Ret {[ "key1" := VString s ]}.

Definition external : External := {|
  World := Example.world;
  Key_String := key_UUID;
  ParseKey := parseKey;
  NewCommentKey := @NewCommentKey Example.external;
  GenerateUUID := @GenerateUUID Example.external;
  time_Now_RFC3339 := @time_Now_RFC3339 Example.external;
  json_Marshal := @json_Marshal Example.external;
  json_Unmarshal := unmarshalRow;
  ColumnSchema_Unmarshal := @ColumnSchema_Unmarshal Example.external;
  ColumnSchema_Validate := @ColumnSchema_Validate Example.external;
  TableSchema_Unmarshal := @TableSchema_Unmarshal Example.external;
  TableSchema_Validate := @TableSchema_Validate Example.external;
  Schemas_Default := @Schemas_Default Example.external;
  Schemas_Unmarshal := @Schemas_Unmarshal Example.external;
  Schemas_Validate := @Schemas_Validate Example.external;
  UnmarshalUUID := @UnmarshalUUID Example.external;
  ValidateUUID := @ValidateUUID Example.external;
  Txn_Commit := @Txn_Commit Example.external
|}.

End ExampleStore.

(** * Properties *)

(** ** Loops over the indices of a slice *)

Lemma rangeLoop_app {S : Type} (body : S → nat → option S) st l1 l2 :
  rangeLoop body st (l1 ++ l2) = (st' ← rangeLoop body st l1; rangeLoop body st' l2).
Proof.
  revert st. induction l1 as [|i l1 IH]; intros st; simpl; [done|].
  destruct (body st i) as [st'|]; simpl; [apply IH | done].
Qed.

(** An invariant [P i] that every iteration carries from [i] to [S i] holds
    at the end, and the loop does not panic. *)
Lemma rangeLoop_invariant {S : Type} (body : S → nat → option S)
    (P : nat → S → Prop) (n : nat) (st0 : S) :
  P 0%nat st0 →
  (∀ i st, (i < n)%nat → P i st → ∃ st', body st i = Some st' ∧ P (Datatypes.S i) st') →
  ∃ st', rangeLoop body st0 (seq 0 n) = Some st' ∧ P n st'.
Proof.
  intros H0 Hstep. induction n as [|n IH].
  - exists st0. done.
  - destruct IH as (st & Hrun & HP).
    { intros i st' Hi. apply Hstep. lia. }
    destruct (Hstep n st) as (st' & Hbody & HP'); [lia | done |].
    exists st'. split; [|done].
    rewrite seq_S, rangeLoop_app, Hrun. simpl. by rewrite Hbody.
Qed.

(** ** etcdRemoveDupThen keeps the last write of every key *)

Lemma thenInv_init ops : thenInv ops 0 ((λ op, Some op) <$> ops, ∅).
Proof.
  split; [simpl; by rewrite length_fmap|]. split.
  - intros j op Hj. left. split; [|intros; lia].
    simpl. by rewrite list_lookup_fmap, Hj.
  - intros k. simpl. rewrite lookup_empty. intros; lia.
Qed.

Lemma thenInv_step ops i st :
  (i < length ops)%nat → thenInv ops i st →
  ∃ st', etcdRemoveDupThen_body st i = Some st' ∧ thenInv ops (S i) st'.
Proof.
  intros Hi (Hlen & Hslots & Hidx). destruct st as [newThen idx]. simpl in *.
  destruct (lookup_lt_is_Some_2 ops i Hi) as [op Hop].
  assert (newThen !! i = Some (Some op)) as Hcur.
  { destruct (Hslots i op Hop) as [[? _]|[_ (j' & ? & ? & _)]]; [done | lia]. }
  unfold etcdRemoveDupThen_body. rewrite Hcur.
  eexists. split; [reflexivity|].
  pose proof (Hidx (etcdOpKey op)) as Hk.
  split; [|split]; simpl.
  - destruct (idx !! etcdOpKey op); [by rewrite length_insert | done].
  - intros j opj Hj. destruct (Hslots j opj Hj) as [[Hkept Hno]|[Hnil Hdup]].
    + destruct (idx !! etcdOpKey op) as [prev|] eqn:Hprev.
      * destruct Hk as (Hlt & (opp & Hopp & Hkp) & Hlast).
        destruct (decide (j = prev)) as [->|Hne].
        -- right. split.
           ++ apply list_lookup_insert_eq. lia.
           ++ exists i, op. split; [lia|]. split; [done|]. congruence.
        -- left. split; [by rewrite list_lookup_insert_ne|].
           intros j' op' Hj' Hop'. destruct (decide (j' = i)) as [->|].
           ++ assert (op' = op) as -> by congruence. intros Heq.
              destruct (decide (j < prev)%nat).
              ** apply (Hno prev opp); [lia | done | congruence].
              ** destruct (decide (j < i)%nat); [|lia].
                 apply (Hlast j opj); [lia | done | congruence].
           ++ apply (Hno j' op'); [lia | done].
      * left. split; [done|].
        intros j' op' Hj' Hop'. destruct (decide (j' = i)) as [->|].
        -- assert (op' = op) as -> by congruence. intros Heq.
           apply (Hk j opj); [lia | done | congruence].
        -- apply (Hno j' op'); [lia | done].
    + right. destruct Hdup as (j' & op' & Hj' & Hop' & Heq). split.
      * destruct (idx !! etcdOpKey op) as [prev|]; [|done].
        destruct (decide (j = prev)) as [->|].
        -- apply list_lookup_insert_eq.
           apply lookup_lt_Some in Hnil. lia.
        -- by rewrite list_lookup_insert_ne.
      * exists j', op'. split; [lia | done].
  - intros k. destruct (decide (etcdOpKey op = k)) as [<-|Hne].
    + rewrite lookup_insert_eq. split; [lia|]. split; [eauto|]. intros; lia.
    + rewrite lookup_insert_ne by done. pose proof (Hidx k) as Hk'.
      destruct (idx !! k) as [p|].
      * destruct Hk' as (? & ? & Hlast). split; [lia|]. split; [done|].
        intros j' op' Hj' Hop'. destruct (decide (j' = i)) as [->|].
        -- congruence.
        -- apply (Hlast j' op'); [lia | done].
      * intros j' op' Hj' Hop'. destruct (decide (j' = i)) as [->|].
        -- congruence.
        -- apply (Hk' j' op'); [lia | done].
Qed.

(** Slots that are nil exactly where a later write has the key compact to
    [keepLastWrite]. *)
Lemma compactNil_keepLastWrite ops (newThen : list (option Op)) :
  length newThen = length ops →
  (∀ j op, ops !! j = Some op →
     (newThen !! j = Some (Some op) ∧
      ∀ j' op', (j < j')%nat → ops !! j' = Some op' → etcdOpKey op' ≠ etcdOpKey op)
     ∨ (newThen !! j = Some None ∧
        ∃ j' op', (j < j')%nat ∧ ops !! j' = Some op' ∧ etcdOpKey op' = etcdOpKey op)) →
  compactNil newThen = keepLastWrite ops.
Proof.
  revert newThen. induction ops as [|op ops IH]; intros newThen Hlen Hslots.
  - by destruct newThen.
  - destruct newThen as [|o newThen]; [done|]. simpl in Hlen.
    assert (compactNil newThen = keepLastWrite ops) as Htail.
    { apply IH; [lia|]. intros j opj Hj.
      destruct (Hslots (S j) opj Hj) as [[? Hno]|[? (j' & op' & ? & Hop' & ?)]].
      - left. split; [done|]. intros j' op' ? Hop'. apply (Hno (S j') op'); [lia | done].
      - right. split; [done|]. destruct j' as [|j']; [lia|].
        exists j', op'. split; [lia | done]. }
    simpl. unfold compactNil in *. simpl.
    destruct (Hslots 0%nat op eq_refl) as [[Ho Hno]|[Ho (j' & op' & Hj' & Hop' & Heq)]];
      simpl in Ho; simplify_eq; simpl.
    + rewrite bool_decide_eq_false_2; [by rewrite Htail|].
      intros (op' & Heq & Hin)%list_elem_of_fmap.
      apply list_elem_of_lookup in Hin as [j' Hj'].
      by apply (Hno (S j') op'); [lia | done |].
    + destruct j' as [|j']; [lia|]. simpl in Hop'.
      rewrite bool_decide_eq_true_2; [done|].
      apply list_elem_of_fmap. exists op'. split; [done|].
      by apply list_elem_of_lookup_2 in Hop'.
Qed.

(** etcdRemoveDupThen never panics and leaves [keepLastWrite] of the write
    stream. *)
Lemma etcdRemoveDupThen_keepLastWrite etcd :
  etcdRemoveDupThen etcd = Some (set_Then (keepLastWrite (Then etcd)) etcd).
Proof.
  unfold etcdRemoveDupThen. rewrite length_fmap.
  destruct (rangeLoop_invariant etcdRemoveDupThen_body (thenInv (Then etcd))
              (length (Then etcd)) ((λ op, Some op) <$> Then etcd, ∅))
    as (st & -> & Hlen & Hslots & _).
  - apply thenInv_init.
  - intros i st Hi. by apply thenInv_step.
  - simpl. f_equal. f_equal. apply compactNil_keepLastWrite; [done|].
    intros j op Hj. destruct (Hslots j op Hj) as [[? Hno]|[? (j' & op' & ? & ? & ?)]].
    + left. split; [done|]. intros j' op' ? Hop'. apply (Hno j' op'); [|done].
      apply lookup_lt_Some in Hop'. lia.
    + right. split; [done|]. exists j', op'. split; [lia | done].
Qed.

Lemma keepLastWrite_subset ops op : op ∈ keepLastWrite ops → op ∈ ops.
Proof.
  induction ops as [|o ops IH]; simpl; [done|].
  case_bool_decide; intros Hin.
  - right. by apply IH.
  - apply elem_of_cons in Hin as [->|Hin]; [left | right; by apply IH].
Qed.

Lemma keepLastWrite_NoDup ops : NoDup (etcdOpKey <$> keepLastWrite ops).
Proof.
  induction ops as [|o ops IH]; simpl; [constructor|].
  case_bool_decide as Hin; [done|].
  rewrite fmap_cons. constructor; [|done].
  intros (op' & Heq & Hin')%list_elem_of_fmap. apply Hin.
  apply list_elem_of_fmap. exists op'. split; [done|].
  by apply keepLastWrite_subset.
Qed.

(** Every key written keeps a write, and the write kept for a key is the
    last one written to it. *)
Lemma keepLastWrite_keys ops k :
  k ∈ etcdOpKey <$> keepLastWrite ops ↔ k ∈ etcdOpKey <$> ops.
Proof.
  induction ops as [|o ops IH]; simpl; [done|].
  case_bool_decide as Hin; rewrite ?fmap_cons, ?elem_of_cons, IH; [|done].
  split; [tauto|]. intros [->|?]; done.
Qed.

Lemma keepLastWrite_last ops l1 op l2 :
  ops = l1 ++ op :: l2 → etcdOpKey op ∉ etcdOpKey <$> l2 →
  op ∈ keepLastWrite ops.
Proof.
  intros -> Hlast. induction l1 as [|o l1 IH]; simpl.
  - rewrite bool_decide_eq_false_2 by done. left.
  - case_bool_decide; [done | by right].
Qed.

(** ** etcdRemoveDupEvents keeps the first event of every key *)

Lemma countNil_cons_Some ev events : countNil (Some ev :: events) = countNil events.
Proof. unfold countNil. by rewrite filter_cons_False. Qed.

Lemma countNil_cons_None events : countNil (None :: events) = countNil events + 1.
Proof. unfold countNil, len. rewrite filter_cons_True by done. simpl length. lia. Qed.

Lemma countNil_nil : countNil [] = 0.
Proof. done. Qed.

Lemma etcdRemoveDupEvents_copy_wf events prevEvents newEvents nilCount :
  wfEvents events →
  etcdRemoveDupEvents_copy events (prevEvents, newEvents, nilCount)
  = Some (prevEvents ++ events, newEvents ++ events, nilCount + countNil events).
Proof.
  revert prevEvents newEvents nilCount.
  induction events as [|curr events IH]; intros prevEvents newEvents nilCount Hwf.
  - cbn [etcdRemoveDupEvents_copy]. rewrite !app_nil_r, countNil_nil, Z.add_0_r. done.
  - assert (wfEvents events) as Hwf' by (intros ev ?; apply Hwf; by right).
    cbn [etcdRemoveDupEvents_copy]. destruct curr as [ev|].
    + destruct (Hwf ev) as [[k ->] _]; [left|]. cbn [mbind option_bind].
      rewrite IH, countNil_cons_Some, <- !app_assoc by done. done.
    + rewrite IH, countNil_cons_None, <- !app_assoc by done.
      cbn [app]. do 2 f_equal. lia.
Qed.

Lemma etcdEventIsModify_wf ev :
  (ev_Type ev = PUT → is_Some (ev_Kv ev)) →
  ∃ b, etcdEventIsModify ev = Some b ∧ (b = true → is_Some (ev_Kv ev)).
Proof.
  intros HKv. unfold etcdEventIsModify. case_bool_decide as HT.
  - by exists false.
  - destruct HKv as [kv Hkv]; [by destruct (ev_Type ev)|].
    rewrite Hkv. simpl. eauto.
Qed.

Lemma etcdEventIsCreate_wf ev :
  (ev_Type ev = PUT → is_Some (ev_Kv ev)) → ∃ b, etcdEventIsCreate ev = Some b.
Proof.
  intros HKv. unfold etcdEventIsCreate. case_bool_decide as HT.
  - by exists false.
  - destruct HKv as [kv Hkv]; [by destruct (ev_Type ev)|].
    rewrite Hkv. simpl. eauto.
Qed.

Lemma eventInv_init events : eventInv events 0 (events, ∅).
Proof.
  split; [done|]. split; [done|]. split; [intros; lia|]. split; [intros; lia|].
  intros k. simpl. rewrite lookup_empty. intros; lia.
Qed.

Lemma eventInv_step events i st :
  wfEvents events → (i < length events)%nat → eventInv events i st →
  ∃ st', etcdRemoveDupEvents_body events st i = Some st' ∧ eventInv events (S i) st'.
Proof.
  intros Hwf Hi (Hlen & Hrest & Hnil & Hslots & Hidx).
  destruct st as [newEvents idx]. simpl in *.
  destruct (lookup_lt_is_Some_2 events i Hi) as [curr Hcurr].
  unfold etcdRemoveDupEvents_body. rewrite (Hrest i), Hcurr by lia. simpl.
  destruct curr as [ev|].
  - (* an event: its slot is set to nil when its key is known *)
    destruct (Hwf ev) as [[k Hk] HKv]; [by eapply list_elem_of_lookup_2|].
    rewrite Hk. simpl. pose proof (Hidx k) as Hp.
    assert (∃ newEvents',
      match idx !! k with
      | Some prevIndex =>
          prev ← events !! prevIndex;
          isModify ← etcdEventIsModify ev;
          newEvents0 ←
            (if (isModify : bool) then
               prev ← prev;
               isCreate ← etcdEventIsCreate prev;
               if (isCreate : bool) then
                 created ← etcdEventCreateFromModify ev;
                 Some (<[i := Some created]> newEvents)
               else Some newEvents
             else Some newEvents);
          Some (<[i := None]> newEvents0)
      | None => Some newEvents
      end = Some newEvents' ∧
      length newEvents' = length events ∧
      (∀ j, j ≠ i → newEvents' !! j = newEvents !! j) ∧
      newEvents' !! i = Some (if idx !! k is Some _ then None else Some ev)) as (ne' & -> & Hlen' & Hother & Hat).
    { destruct (idx !! k) as [p|].
      - destruct Hp as (Hlt & evp & Hevp & Hkp). rewrite Hevp. simpl.
        assert (∃ ne0, (isModify ← etcdEventIsModify ev;
                       if (isModify : bool) then
                         isCreate ← etcdEventIsCreate evp;
                         if (isCreate : bool) then
                           created ← etcdEventCreateFromModify ev;
                           Some (<[i := Some created]> newEvents)
                         else Some newEvents
                       else Some newEvents) = Some ne0 ∧
                      length ne0 = length events ∧
                      ∀ j, j ≠ i → ne0 !! j = newEvents !! j) as (ne0 & Hne0 & Hl0 & Ho0).
        { destruct (Hwf evp) as [_ HKvp]; [by eapply list_elem_of_lookup_2|].
          destruct (etcdEventIsModify_wf ev HKv) as (isModify & -> & HM).
          destruct (etcdEventIsCreate_wf evp HKvp) as (isCreate & ->).
          destruct isModify; simpl; [|by eexists].
          destruct isCreate; simpl; [|by eexists].
          destruct (HM eq_refl) as [kv Hkv].
          unfold etcdEventCreateFromModify. rewrite Hkv. simpl.
          eexists. split; [done|]. split; [by rewrite length_insert|].
          intros j ?. by rewrite list_lookup_insert_ne. }
        simpl in Hne0. destruct (etcdEventIsModify ev) as [isModify|]; [|done].
        simpl in Hne0 |- *. destruct isModify; simpl in Hne0 |- *.
        + rewrite Hne0. simpl. eexists. split; [done|].
          split; [by rewrite length_insert|]. split.
          * intros j ?. rewrite list_lookup_insert_ne by done. by apply Ho0.
          * apply list_lookup_insert_eq. lia.
        + simplify_eq. eexists. split; [done|].
          split; [by rewrite length_insert|]. split.
          * intros j ?. by rewrite list_lookup_insert_ne.
          * apply list_lookup_insert_eq. lia.
      - eexists. split; [done|]. split; [done|]. split; [done|].
        rewrite (Hrest i), Hcurr by lia. done. }
    simpl. eexists. split; [reflexivity|].
    split; [|split; [|split; [|split]]]; simpl.
    + done.
    + intros j ?. rewrite Hother by lia. apply Hrest. lia.
    + intros j ? Hj. assert (j ≠ i) by congruence.
      rewrite Hother by done. apply Hnil; [lia | done].
    + intros j evj kj Hj Hevj Hkj. destruct (decide (j = i)) as [->|Hne].
      * assert (evj = ev) as -> by congruence. assert (kj = k) as -> by congruence.
        rewrite Hat. destruct (idx !! k) as [p|].
        -- right. split; [done|]. destruct Hp as (? & evp & ? & ?). by exists p, evp.
        -- left. split; [done|]. done.
      * rewrite Hother by done. apply Hslots; [lia | done | done].
    + intros k'. destruct (decide (k = k')) as [<-|Hne].
      * rewrite lookup_insert_eq. split; [lia|]. by exists ev.
      * rewrite lookup_insert_ne by done. pose proof (Hidx k') as Hp'.
        destruct (idx !! k') as [p'|].
        -- destruct Hp' as [? ?]. split; [lia | done].
        -- intros j' ev' ? Hev'. destruct (decide (j' = i)) as [->|].
           ++ assert (ev' = ev) as -> by congruence. congruence.
           ++ apply (Hp' j' ev'); [lia | done].
  - (* a nil placeholder is skipped *)
    eexists. split; [reflexivity|].
    split; [done|]. split; [intros; apply Hrest; lia|]. split; [|split]; simpl.
    + intros j ? Hj. destruct (decide (j = i)) as [->|].
      * by rewrite (Hrest i), Hcurr by lia.
      * apply Hnil; [lia | done].
    + intros j evj kj ? Hevj Hkj. assert (j ≠ i) by congruence.
      apply Hslots; [lia | done | done].
    + intros k. pose proof (Hidx k) as Hp. destruct (idx !! k) as [p|].
      * destruct Hp. split; [lia | done].
      * intros j' ev' ? Hev'. assert (j' ≠ i) by congruence.
        apply (Hp j' ev'); [lia | done].
Qed.

(** Slots that are nil exactly where the event was nil, or its key was seen
    or met earlier, filter to [keepFirstEvent]. *)
Lemma filter_keepFirstEvent seen events (newEvents : list (option Event)) :
  length newEvents = length events → wfEvents events →
  (∀ j, events !! j = Some None → newEvents !! j = Some None) →
  (∀ j ev k, events !! j = Some (Some ev) → etcdEventKey ev = Some k →
     (newEvents !! j = Some (Some ev) ∧ (k ∉ seen) ∧
      ∀ j' ev', (j' < j)%nat → events !! j' = Some (Some ev') → etcdEventKey ev' ≠ Some k)
     ∨ (newEvents !! j = Some None ∧
        (k ∈ seen ∨
         ∃ j' ev', (j' < j)%nat ∧ events !! j' = Some (Some ev') ∧ etcdEventKey ev' = Some k))) →
  filter is_Some newEvents = keepFirstEvent seen events.
Proof.
  revert seen newEvents.
  induction events as [|curr events IH]; intros seen newEvents Hlen Hwf Hnil Hslots.
  - by destruct newEvents.
  - destruct newEvents as [|o newEvents]; [done|]. simpl in Hlen.
    assert (wfEvents events) as Hwf' by (intros ev ?; apply Hwf; by right).
    assert (∀ j, events !! j = Some None → newEvents !! j = Some None) as Hnil'
      by (intros j Hj; apply (Hnil (S j) Hj)).
    destruct curr as [ev|].
    + destruct (Hwf ev) as [[k0 Hk0] _]; [left|].
      cbn [keepFirstEvent]. rewrite Hk0.
      destruct (Hslots 0%nat ev k0 eq_refl Hk0) as [(Ho & Hseen & _)|(Ho & Hseen)];
        simpl in Ho; simplify_eq.
      * rewrite bool_decide_eq_false_2 by done.
        rewrite filter_cons_True by done. f_equal.
        apply IH; [lia | done | done |].
        intros j ev' k Hj Hk.
        destruct (Hslots (S j) ev' k Hj Hk) as [(? & ? & Hno)|(? & Hdup)].
        -- left. split; [done|]. split.
           ++ rewrite not_elem_of_cons. split; [|done].
              intros ->. by apply (Hno 0%nat ev); [lia | |].
           ++ intros j' ev'' ? ?. apply (Hno (S j') ev''); [lia | done].
        -- right. split; [done|].
           destruct Hdup as [?|(j' & ev'' & ? & Hev'' & ?)]; [left; by right|].
           destruct j' as [|j']; simpl in Hev''.
           ++ left. apply elem_of_cons. left. congruence.
           ++ right. exists j', ev''. split; [lia | done].
      * destruct Hseen as [Hseen|(j' & ? & ? & _)]; [|lia].
        rewrite bool_decide_eq_true_2 by done.
        rewrite filter_cons_False by (by intros [? ?]).
        apply IH; [lia | done | done |].
        intros j ev' k Hj Hk.
        destruct (Hslots (S j) ev' k Hj Hk) as [(? & ? & Hno)|(? & Hdup)].
        -- left. split; [done|]. split; [done|].
           intros j' ev'' ? ?. apply (Hno (S j') ev''); [lia | done].
        -- right. split; [done|].
           destruct Hdup as [?|(j' & ev'' & ? & Hev'' & ?)]; [by left|].
           destruct j' as [|j']; simpl in Hev''.
           ++ left. congruence.
           ++ right. exists j', ev''. split; [lia | done].
    + cbn [keepFirstEvent]. pose proof (Hnil 0%nat eq_refl) as Ho. simpl in Ho. simplify_eq.
      rewrite filter_cons_False by (by intros [? ?]).
      apply IH; [lia | done | done |].
      intros j ev' k Hj Hk.
      destruct (Hslots (S j) ev' k Hj Hk) as [(? & ? & Hno)|(? & Hdup)].
      * left. split; [done|]. split; [done|].
        intros j' ev'' ? ?. apply (Hno (S j') ev''); [lia | done].
      * right. split; [done|].
        destruct Hdup as [?|(j' & ev'' & ? & Hev'' & ?)]; [by left|].
        destruct j' as [|j']; simpl in Hev''; [done|].
        right. exists j', ev''. split; [lia | done].
Qed.

(** On the events that the engine builds, etcdRemoveDupEvents does not
    panic, leaves for every key its first event and adds the nil
    placeholders to the counter. *)
Lemma etcdRemoveDupEvents_keepFirstEvent etcd :
  wfEvents (Events etcd) →
  etcdRemoveDupEvents etcd
  = Some (set_Events (keepFirstEvent [] (Events etcd))
            (set_EventsNilCount (EventsNilCount etcd + countNil (Events etcd)) etcd)).
Proof.
  intros Hwf. unfold etcdRemoveDupEvents.
  rewrite etcdRemoveDupEvents_copy_wf by done. cbn [mbind option_bind app].
  destruct (rangeLoop_invariant (etcdRemoveDupEvents_body (Events etcd))
              (eventInv (Events etcd)) (length (Events etcd)) (Events etcd, ∅))
    as (st & -> & Hlen & _ & Hnil & Hslots & _).
  - apply eventInv_init.
  - intros i st Hi. by apply eventInv_step.
  - cbn [mbind option_bind]. do 2 f_equal.
    apply filter_keepFirstEvent; [done | done | |].
    + intros j Hj. apply Hnil; [|done]. by apply lookup_lt_Some in Hj.
    + intros j ev k Hj Hk.
      destruct (Hslots j ev k) as [[? ?]|[? ?]]; [by apply lookup_lt_Some in Hj | done | done | |].
      * left. split; [done|]. split; [apply not_elem_of_nil | done].
      * right. split; [done|]. by right.
Qed.

(** ** Compaction keeps an aligned buffer paired *)

Lemma Etcd_Assert_pairing etcd : Etcd_Assert etcd = Some tt ↔ pairing etcd.
Proof.
  unfold Etcd_Assert, pairing. case_bool_decide; split; done.
Qed.

Lemma Etcd_Assert_Some etcd u : Etcd_Assert etcd = Some u → pairing etcd.
Proof. destruct u. apply Etcd_Assert_pairing. Qed.

Lemma len_app {A} (l1 l2 : list A) : len (l1 ++ l2) = len l1 + len l2.
Proof. unfold len. rewrite length_app. lia. Qed.

Lemma keepLastWrite_size ops :
  length (keepLastWrite ops) = size (list_to_set (etcdOpKey <$> ops) : gset string).
Proof.
  induction ops as [|op ops IH]; [done|].
  cbn [keepLastWrite]. rewrite fmap_cons, list_to_set_cons. case_bool_decide as Hin.
  - rewrite IH. f_equal. apply leibniz_equiv.
    apply (elem_of_list_to_set (C := gset string)) in Hin. set_solver.
  - cbn [length]. rewrite IH, size_union, size_singleton; [done|].
    rewrite <- (elem_of_list_to_set (C := gset string)) in Hin. set_solver.
Qed.

Lemma eventKeys_cons_Some ev k events :
  etcdEventKey ev = Some k → eventKeys (Some ev :: events) = k :: eventKeys events.
Proof. intros Hk. unfold eventKeys. simpl. by rewrite Hk. Qed.

Lemma eventKeys_cons_None events : eventKeys (None :: events) = eventKeys events.
Proof. done. Qed.

Lemma keepFirstEvent_size seen events :
  wfEvents events →
  length (keepFirstEvent seen events)
  = size ((list_to_set (eventKeys events) : gset string) ∖ list_to_set seen).
Proof.
  revert seen. induction events as [|curr events IH]; intros seen Hwf.
  - simpl. by rewrite difference_disjoint_L, size_empty by set_solver.
  - assert (wfEvents events) as Hwf' by (intros ev ?; apply Hwf; by right).
    destruct curr as [ev|]; [|by apply IH].
    destruct (Hwf ev) as [[k Hk] _]; [left|].
    rewrite (eventKeys_cons_Some ev k) by done.
    cbn [keepFirstEvent]. rewrite Hk, list_to_set_cons.
    set (E := list_to_set (eventKeys events) : gset string).
    set (S0 := list_to_set seen : gset string).
    case_bool_decide as Hseen.
    + rewrite IH by done. fold E S0. f_equal. apply leibniz_equiv.
      assert (k ∈ S0) by (unfold S0; by rewrite elem_of_list_to_set). set_solver.
    + cbn [length]. rewrite IH, list_to_set_cons by done. fold E S0.
      assert (k ∉ S0) by (unfold S0; by rewrite elem_of_list_to_set).
      assert (({[k]} ∪ E) ∖ S0 = {[k]} ∪ E ∖ ({[k]} ∪ S0)) as ->.
      { apply leibniz_equiv. intros x. destruct (decide (x = k)); set_solver. }
      rewrite (size_union {[k]} (E ∖ ({[k]} ∪ S0))), size_singleton; [done | set_solver].
Qed.

Lemma aligned_keys ops events :
  Forall2 (λ op curr,
             match curr with
             | Some ev => wfEvent ev ∧ etcdEventKey ev = Some (etcdOpKey op)
             | None => True
             end) ops events →
  wfEvents events ∧
  (list_to_set (etcdOpKey <$> ops) : gset string)
  = list_to_set (eventKeys events) ∪ list_to_set (commentKeys ops events) ∧
  countNil events = len (commentKeys ops events).
Proof.
  induction 1 as [|op curr ops events Hhead _ (Hwf & Hkeys & Hnil)].
  - split; [by intros ev ?%elem_of_nil|]. split; [|done].
    apply leibniz_equiv. set_solver.
  - destruct curr as [ev|].
    + destruct Hhead as [Hev Hk]. split; [|split].
      * intros ev' [[= ->]|?]%elem_of_cons; [done | by apply Hwf].
      * rewrite (eventKeys_cons_Some ev _ _ Hk). cbn [commentKeys].
        rewrite fmap_cons, !list_to_set_cons, Hkeys. apply leibniz_equiv. set_solver.
      * by rewrite countNil_cons_Some.
    + split; [|split].
      * intros ev' [[=]|?]%elem_of_cons. by apply Hwf.
      * rewrite eventKeys_cons_None. cbn [commentKeys].
        rewrite fmap_cons, !list_to_set_cons, Hkeys. apply leibniz_equiv. set_solver.
      * rewrite countNil_cons_None, Hnil. cbn [commentKeys]. unfold len. simpl. lia.
Qed.

(** Compaction of an aligned buffer returns when the keys of its comments
    differ from each other and from the keys of its rows; the buffer it
    leaves is paired, with the last write and the first event of every
    key. *)
Lemma etcdRemoveDup_aligned etcd :
  aligned etcd →
  NoDup (commentKeys (Then etcd) (Events etcd)) →
  (∀ k, k ∈ commentKeys (Then etcd) (Events etcd) → k ∉ eventKeys (Events etcd)) →
  ∃ etcd', etcdRemoveDup etcd = Some etcd' ∧ pairing etcd' ∧
           Then etcd' = keepLastWrite (Then etcd) ∧
           Events etcd' = keepFirstEvent [] (Events etcd).
Proof.
  intros [Hcount Hall] Hnodup Hdisj.
  destruct (aligned_keys _ _ Hall) as (Hwf & Hkeys & Hnil).
  unfold etcdRemoveDup. rewrite etcdRemoveDupThen_keepLastWrite. simpl.
  rewrite etcdRemoveDupEvents_keepFirstEvent by done. simpl.
  assert (pairing (set_Events (keepFirstEvent [] (Events etcd))
            (set_EventsNilCount (EventsNilCount etcd + countNil (Events etcd))
               (set_Then (keepLastWrite (Then etcd)) etcd)))) as Hp.
  { unfold pairing, len. simpl.
    rewrite keepLastWrite_size, keepFirstEvent_size, Hkeys, Hcount, Hnil by done.
    rewrite (size_union (list_to_set (eventKeys (Events etcd)))
                        (list_to_set (commentKeys (Then etcd) (Events etcd)))).
    - rewrite (size_list_to_set (commentKeys (Then etcd) (Events etcd))) by done.
      rewrite difference_disjoint_L by set_solver. unfold len. lia.
    - intros k Hk1%elem_of_list_to_set Hk2%elem_of_list_to_set. by apply (Hdisj k). }
  apply Etcd_Assert_pairing in Hp as Ha. rewrite Ha. simpl. eauto.
Qed.

(** Two comments of one transaction get one timestamp when the clock does
    not move between them, and so one key: compaction keeps one write, counts
    two nil events, and Assert panics. *)
Lemma etcdRemoveDup_two_comments_panic :
  let comment text := mkOperation OP_COMMENT None None None None None None None None None
                                  (Some text) None None in
  let txn := NewTransaction (mkTransact "simple" [comment "a"; comment "b"]) in
  ∃ w1 txn1 op1 r1 w2 txn2 op2 r2,
    doComment (ext := Example.external) (Example.mkWorld 0 []) txn (comment "a") emptyResult
    = Some (w1, txn1, op1, r1, None) ∧
    doComment (ext := Example.external) w1 txn1 (comment "b") emptyResult
    = Some (w2, txn2, op2, r2, None) ∧
    etcdRemoveDup (etcd txn2) = None.
Proof. intros comment txn. do 8 eexists. repeat split. Qed.

(** ** Compaction of a key that is created and then modified *)

(** C1: for a key that is created and then modified, etcdRemoveDupEvents
    emits the create event with the value of the creation: the modify event
    is dropped, and its value with it. *)
Theorem etcdRemoveDupEvents_keeps_created_value (key val val' : string) :
  etcdRemoveDupEvents
    (mkEtcd [] [] [] None 0
            [Some (etcdEventCreate key val); Some (etcdEventModify key val' val)])
  = Some (mkEtcd [] [] [] None 0 [Some (etcdEventCreate key val)]).
Proof.
  rewrite etcdRemoveDupEvents_keepFirstEvent.
  - simpl. rewrite (bool_decide_eq_true_2 (key ∈ [key])) by left. done.
  - intros ev [[= ->]|[[= ->]|[]%elem_of_nil]%elem_of_cons]%elem_of_cons;
      split; simpl; eauto.
Qed.

(** C7: for two writes to one key, compaction keeps the last write and
    the first event: the later event is the one set to nil, not the earlier
    one. *)
Theorem etcdRemoveDup_keeps_last_write_first_event (key val val' : string) :
  etcdRemoveDup
    (mkEtcd [] [OpPut key val; OpPut key val'] [] None 0
            [Some (etcdEventCreate key val); Some (etcdEventModify key val' val)])
  = Some (mkEtcd [] [OpPut key val'] [] None 0 [Some (etcdEventCreate key val)]).
Proof.
  unfold etcdRemoveDup. rewrite etcdRemoveDupThen_keepLastWrite. simpl.
  rewrite (bool_decide_eq_true_2 (key ∈ [key])) by left. simpl.
  rewrite etcdRemoveDupEvents_keepFirstEvent.
  - simpl. rewrite (bool_decide_eq_true_2 (key ∈ [key])) by left. done.
  - intros ev [[= ->]|[[= ->]|[]%elem_of_nil]%elem_of_cons]%elem_of_cons;
      split; simpl; eauto.
Qed.

(** X1: the write stream alone is compacted as I4 asks: etcdRemoveDupThen
    returns, no two writes it leaves have the same key, every key written
    still has a write, and a write that no later write overrides is kept. *)
Lemma etcdRemoveDupThen_dedup etcd :
  ∃ etcd', etcdRemoveDupThen etcd = Some etcd' ∧
    NoDup (etcdOpKey <$> Then etcd') ∧
    (∀ k, k ∈ etcdOpKey <$> Then etcd' ↔ k ∈ etcdOpKey <$> Then etcd) ∧
    (∀ l1 op l2, Then etcd = l1 ++ op :: l2 → etcdOpKey op ∉ etcdOpKey <$> l2 →
                 op ∈ Then etcd').
Proof.
  eexists. split; [apply etcdRemoveDupThen_keepLastWrite|]. simpl.
  split; [apply keepLastWrite_NoDup|]. split; [apply keepLastWrite_keys|].
  intros l1 op l2. apply keepLastWrite_last.
Qed.

(** ** The pairing invariant of the write buffer *)

Section Pairing.
Context `{ext : External}.

(** A write appended with its event keeps the buffer paired. *)
Lemma pairing_append etcdOp etcdEvent txn :
  pairing (etcd txn) → pairing (etcd (appendEvent etcdEvent (appendThen etcdOp txn))).
Proof. unfold pairing. simpl. rewrite !len_app. unfold len. simpl. lia. Qed.

Lemma Etcd_Clear_pairing etcd : ∃ cleared, Etcd_Clear etcd = Some cleared ∧ pairing cleared.
Proof. eexists. split; [reflexivity|]. done. Qed.

Lemma etcdCreateRow_pairing txn k row val :
  pairing (etcd txn) → makeValue row = Ret val →
  ∃ txn', etcdCreateRow txn k row = Some (txn', None) ∧ pairing (etcd txn').
Proof.
  intros Hp Hval. unfold etcdCreateRow. rewrite Hval.
  pose proof (pairing_append (OpPut (Key_String k) val)
                (Some (etcdEventCreate (Key_String k) val)) txn Hp) as Hp'.
  apply Etcd_Assert_pairing in Hp' as Ha. rewrite Ha. simpl. eauto.
Qed.

Lemma etcdModifyRow_pairing txn k row val prevVal :
  pairing (etcd txn) → makeValue row = Ret val →
  makeValue (Cache_Row (cache txn) k).1 = Ret prevVal →
  ∃ txn', etcdModifyRow txn k row = Some (txn', None) ∧ pairing (etcd txn').
Proof.
  intros Hp Hval Hprev. unfold etcdModifyRow. rewrite Hval.
  change (cache (appendThen (OpPut (Key_String k) val) txn)) with (cache txn).
  destruct (Cache_Row (cache txn) k) as [prevRow c]. simpl in Hprev. rewrite Hprev.
  assert (pairing (etcd (appendEvent (Some (etcdEventModify (Key_String k) val prevVal))
                           (set_cache c (appendThen (OpPut (Key_String k) val) txn))))) as Hp'.
  { revert Hp. unfold pairing. simpl. rewrite !len_app. unfold len. simpl. lia. }
  apply Etcd_Assert_pairing in Hp' as Ha. rewrite Ha. simpl. eauto.
Qed.

Lemma etcdDeleteRow_pairing txn k prevVal :
  pairing (etcd txn) → makeValue (Cache_Row (cache txn) k).1 = Ret prevVal →
  ∃ txn', etcdDeleteRow txn k = Some (txn', None) ∧ pairing (etcd txn').
Proof.
  intros Hp Hprev. unfold etcdDeleteRow.
  change (cache (appendThen (OpDelete (Key_String k)) txn)) with (cache txn).
  destruct (Cache_Row (cache txn) k) as [prevRow c]. simpl in Hprev. rewrite Hprev.
  assert (pairing (etcd (appendEvent (Some (etcdEventDelete (Key_String k) prevVal))
                           (set_cache c (appendThen (OpDelete (Key_String k)) txn))))) as Hp'.
  { revert Hp. unfold pairing. simpl. rewrite !len_app. unfold len. simpl. lia. }
  apply Etcd_Assert_pairing in Hp' as Ha. rewrite Ha. simpl. eauto.
Qed.

Lemma doComment_pairing w txn ovsOp ovsResult comment :
  pairing (etcd txn) → o_Comment ovsOp = Some comment →
  ∃ w' txn', doComment w txn ovsOp ovsResult = Some (w', txn', ovsOp, ovsResult, None) ∧
             pairing (etcd txn').
Proof.
  intros Hp Hc. unfold doComment. destruct (time_Now_RFC3339 w) as [timestamp w'].
  rewrite Hc. cbn -[Etcd_Assert appendEvent appendThen].
  pose proof (pairing_append (OpPut (Key_String (NewCommentKey timestamp)) comment)
                None txn Hp) as Hp'.
  apply Etcd_Assert_pairing in Hp' as Ha. rewrite Ha. simpl. eauto.
Qed.

Lemma etcdRemoveDup_pairing etcd etcd' : etcdRemoveDup etcd = Some etcd' → pairing etcd'.
Proof.
  unfold etcdRemoveDup. intros H.
  destruct (etcdRemoveDupThen etcd) as [e1|]; [|done]. simpl in H.
  destruct (etcdRemoveDupEvents e1) as [e2|]; [|done]. simpl in H.
  destruct (Etcd_Assert e2) as [u|] eqn:Ha; [|done]. simpl in H.
  simplify_eq. by eapply Etcd_Assert_Some.
Qed.

(** A range-get is appended without an event: the buffer that was paired is
    not paired any more. *)
Lemma etcdGetData_unpairs txn key :
  pairing (etcd txn) → ¬ pairing (etcd (etcdGetData txn key)).
Proof. unfold pairing. simpl. rewrite len_app. unfold len. simpl. lia. Qed.

(** C6, as amended: the buffer is paired after Clear; a row write or a
    comment appended to a paired buffer returns, without error when the rows
    marshal, and leaves it paired; the buffer that compaction returns is
    paired, and compaction does return on an aligned buffer whose comments
    have keys of their own.  A range-get appended in the fetch pass unpairs
    the buffer. *)
Theorem pairing_of_the_write_buffer :
  (∀ etcd, ∃ cleared, Etcd_Clear etcd = Some cleared ∧ pairing cleared) ∧
  (∀ txn k row val, pairing (etcd txn) → makeValue row = Ret val →
     ∃ txn', etcdCreateRow txn k row = Some (txn', None) ∧ pairing (etcd txn')) ∧
  (∀ txn k row val prevVal, pairing (etcd txn) → makeValue row = Ret val →
     makeValue (Cache_Row (cache txn) k).1 = Ret prevVal →
     ∃ txn', etcdModifyRow txn k row = Some (txn', None) ∧ pairing (etcd txn')) ∧
  (∀ txn k prevVal, pairing (etcd txn) →
     makeValue (Cache_Row (cache txn) k).1 = Ret prevVal →
     ∃ txn', etcdDeleteRow txn k = Some (txn', None) ∧ pairing (etcd txn')) ∧
  (∀ w txn ovsOp ovsResult comment, pairing (etcd txn) → o_Comment ovsOp = Some comment →
     ∃ w' txn', doComment w txn ovsOp ovsResult = Some (w', txn', ovsOp, ovsResult, None) ∧
                pairing (etcd txn')) ∧
  (∀ etcd etcd', etcdRemoveDup etcd = Some etcd' → pairing etcd') ∧
  (∀ etcd, aligned etcd → NoDup (commentKeys (Then etcd) (Events etcd)) →
     (∀ k, k ∈ commentKeys (Then etcd) (Events etcd) → k ∉ eventKeys (Events etcd)) →
     ∃ etcd', etcdRemoveDup etcd = Some etcd' ∧ pairing etcd') ∧
  (∀ txn key, pairing (etcd txn) → ¬ pairing (etcd (etcdGetData txn key))).
Proof.
  split; [apply Etcd_Clear_pairing|].
  split; [apply etcdCreateRow_pairing|].
  split; [apply etcdModifyRow_pairing|].
  split; [apply etcdDeleteRow_pairing|].
  split; [apply doComment_pairing|].
  split; [apply etcdRemoveDup_pairing|].
  split; [|apply etcdGetData_unpairs].
  intros etcd Ha Hn Hd.
  destruct (etcdRemoveDup_aligned etcd Ha Hn Hd) as (etcd' & ? & ? & _). eauto.
Qed.

End Pairing.

(** C6, as stated, fails: the range-get that preSelect appends to the
    cleared buffer of a new transaction leaves one operation and no event,
    and Assert would panic on it. *)
Lemma etcdGetData_pairing_counterexample :
  let txn := NewTransaction (mkTransact "simple" []) in
  let txn' := etcdGetData (ext := Example.external) txn (NewTableKey "simple" "table1") in
  pairing (etcd txn) ∧
  len (Then (etcd txn')) = 1 ∧ len (Events (etcd txn')) = 0 ∧
  EventsNilCount (etcd txn') = 0 ∧ Etcd_Assert (etcd txn') = None.
Proof. repeat split. Qed.

(** The pairing of the buffer of a new transaction after the write of an
    inserted row. *)
Lemma pairing_of_the_write_buffer_witness :
  let txn := NewTransaction (mkTransact "simple" []) in
  let key := NewDataKey "simple" "table1" "00000000-0000-0000-0000-000000000001" in
  ∃ txn', etcdCreateRow (ext := Example.external) txn key {[ "key1" := VString "val1" ]}
          = Some (txn', None) ∧ pairing (etcd txn').
Proof.
  intros txn key.
  destruct (pairing_of_the_write_buffer (ext := Example.external)) as (_ & HCreate & _).
  eapply HCreate; reflexivity.
Defined.

(** ** Value equality *)

(** Go's [==] on float64, through the specification of binary64. *)
Lemma SFeqb_trans f1 f2 f3 :
  SFeqb f1 f2 = true → SFeqb f2 f3 = true → SFeqb f1 f3 = true.
Proof.
  assert (∀ s m e s' m' e',
            SFeqb (S754_finite s m e) (S754_finite s' m' e') = true →
            s = s' ∧ m = m' ∧ e = e') as Hfin.
  { intros s m e s' m' e'. unfold SFeqb, SFcompare.
    destruct s, s'; try done; destruct (e ?= e') eqn:He; try done;
      apply Z.compare_eq in He; subst;
      destruct (Pos.compare_cont Eq m m') eqn:Hm; try done;
      apply Pos.compare_eq in Hm; by subst. }
  destruct f1 as [s1|s1| |s1 m1 e1], f2 as [s2|s2| |s2 m2 e2]; try done;
    destruct f3 as [s3|s3| |s3 m3 e3]; try done;
    try (by destruct s1, s2, s3); try (by destruct s1, s2); try (by destruct s2, s3);
    try (by destruct s1); try (by destruct s2).
  by intros (-> & -> & ->)%Hfin.
Qed.

Lemma deepEqualBase_trans x y z :
  deepEqualBase x y = true → deepEqualBase y z = true → deepEqualBase x z = true.
Proof.
  destruct x as [k1|f1], y as [k2|f2], z as [k3|f3]; simpl; try done.
  - rewrite !bool_decide_eq_true. congruence.
  - rewrite !FloatAxioms.eqb_spec. apply SFeqb_trans.
Qed.

Lemma selfEqual_key k : selfEqual (BKey k).
Proof. unfold selfEqual. simpl. by rewrite bool_decide_eq_true. Qed.

(** The two loops of isEqualSet as a bounded quantification. *)
Lemma isEqualSet_found_existsb x actualSet :
  isEqualSet_found x actualSet = existsb (deepEqualBase x) actualSet.
Proof.
  unfold isEqualSet_found.
  assert (∀ acc, foldl (λ foundVal actualVal,
                     if isEqualValue (VBase x) (VBase actualVal) then true else foundVal)
                   acc actualSet = acc || existsb (deepEqualBase x) actualSet) as H.
  { induction actualSet as [|y l IH]; intros acc; simpl.
    - by rewrite orb_false_r.
    - rewrite IH. destruct (deepEqualBase x y), acc; done. }
  by rewrite H.
Qed.

Lemma isEqualSet_loop_forallb expectedSet actualSet :
  isEqualSet_loop expectedSet actualSet
  = forallb (λ x, existsb (deepEqualBase x) actualSet) expectedSet.
Proof.
  induction expectedSet as [|x l IH]; simpl; [done|].
  rewrite isEqualSet_found_existsb, IH.
  by destruct (existsb (deepEqualBase x) actualSet).
Qed.

Lemma isEqualSet_included s1 s2 :
  isEqualSet (VSet s1) (VSet s2) = Some true ↔ setIncluded s1 s2.
Proof.
  simpl. rewrite isEqualSet_loop_forallb. split.
  - intros [= H] x Hx. rewrite forallb_forall in H.
    apply list_elem_of_In, H, existsb_exists in Hx as (y & Hy & Heq).
    exists y. by rewrite list_elem_of_In.
  - intros H. f_equal. apply forallb_forall. intros x Hx%list_elem_of_In.
    apply existsb_exists. destruct (H x Hx) as (y & Hy & Heq).
    exists y. by rewrite <- list_elem_of_In.
Qed.

Lemma isEqualSet_not_included s1 s2 :
  isEqualSet (VSet s1) (VSet s2) = Some false ↔ ¬ setIncluded s1 s2.
Proof.
  rewrite <- isEqualSet_included. simpl.
  destruct (isEqualSet_loop s1 s2); split; try done; congruence.
Qed.

Lemma isEqualSet_refl s :
  Forall selfEqual s → isEqualSet (VSet s) (VSet s) = Some true.
Proof.
  intros Hs. apply isEqualSet_included. intros x Hx. exists x. split; [done|].
  by apply (proj1 (Forall_forall _ _) Hs).
Qed.

Lemma isEqualSet_trans s1 s2 s3 :
  isEqualSet (VSet s1) (VSet s2) = Some true →
  isEqualSet (VSet s2) (VSet s3) = Some true →
  isEqualSet (VSet s1) (VSet s3) = Some true.
Proof.
  rewrite !isEqualSet_included. intros H12 H23 x Hx.
  destruct (H12 x Hx) as (y & Hy & Hxy). destruct (H23 y Hy) as (z & Hz & Hyz).
  exists z. split; [done|]. by eapply deepEqualBase_trans.
Qed.

Lemma setIncluded_Permutation s1 s1' s2 s2' :
  s1 ≡ₚ s1' → s2 ≡ₚ s2' → setIncluded s1 s2 → setIncluded s1' s2'.
Proof.
  intros H1 H2 H x Hx. rewrite <- H1 in Hx. destruct (H x Hx) as (y & Hy & Heq).
  exists y. by rewrite <- H2.
Qed.

Lemma isEqualSet_Permutation s1 s1' s2 s2' :
  s1 ≡ₚ s1' → s2 ≡ₚ s2' →
  isEqualSet (VSet s1) (VSet s2) = isEqualSet (VSet s1') (VSet s2').
Proof.
  intros H1 H2.
  destruct (isEqualSet (VSet s1) (VSet s2)) as [[]|] eqn:E; [| |done]; symmetry.
  - apply isEqualSet_included. apply isEqualSet_included in E.
    by eapply setIncluded_Permutation.
  - apply isEqualSet_not_included. apply isEqualSet_not_included in E.
    intros H. apply E. by eapply setIncluded_Permutation.
Qed.

(** What isEqualSet computes: the inclusion of the expected set in the
    actual one, up to deep equality of the elements.  It is reflexive on the
    sets without a NaN, transitive, and does not depend on the order of the
    elements of either set. *)
Theorem isEqualSet_is_inclusion :
  (∀ s1 s2, isEqualSet (VSet s1) (VSet s2) = Some true ↔ setIncluded s1 s2) ∧
  (∀ s, Forall selfEqual s → isEqualSet (VSet s) (VSet s) = Some true) ∧
  (∀ s1 s2 s3,
     isEqualSet (VSet s1) (VSet s2) = Some true →
     isEqualSet (VSet s2) (VSet s3) = Some true →
     isEqualSet (VSet s1) (VSet s3) = Some true) ∧
  (∀ s1 s1' s2 s2', s1 ≡ₚ s1' → s2 ≡ₚ s2' →
     isEqualSet (VSet s1) (VSet s2) = isEqualSet (VSet s1') (VSet s2')).
Proof.
  split; [apply isEqualSet_included|].
  split; [apply isEqualSet_refl|].
  split; [apply isEqualSet_trans | apply isEqualSet_Permutation].
Qed.

(** The laws at three sets of integers: {1,2} is included in {2,1,3}, which
    is included in {3,2,1,1}. *)
Lemma isEqualSet_is_inclusion_witness :
  isEqualSet (VSet [BKey (KInt 1); BKey (KInt 2)])
             (VSet [BKey (KInt 3); BKey (KInt 2); BKey (KInt 1); BKey (KInt 1)])
  = Some true.
Proof.
  destruct isEqualSet_is_inclusion as (_ & _ & Htrans & _).
  apply (Htrans _ [BKey (KInt 2); BKey (KInt 1); BKey (KInt 3)]); reflexivity.
Defined.

(** C2: isEqualSet is not symmetric.  It finds the empty set equal to {1},
    and {1} not equal to the empty set: the elements of the actual set are
    never looked for in the expected one. *)
Lemma isEqualSet_not_symmetric :
  isEqualSet (VSet []) (VSet [BKey (KInt 1)]) = Some true ∧
  isEqualSet (VSet [BKey (KInt 1)]) (VSet []) = Some false.
Proof. split; reflexivity. Qed.

(** A set that holds a NaN is not equal to itself. *)
Lemma isEqualSet_not_reflexive_nan :
  isEqualSet (VSet [BReal nan]) (VSet [BReal nan]) = Some false.
Proof. reflexivity. Qed.

Lemma isEqualMap_loop_included entries actualMap :
  isEqualMap_loop entries actualMap = true ↔
  ∀ k v, (k, v) ∈ entries →
         ∃ v', actualMap !! k = Some v' ∧ isEqualValue (VBase v) (VBase v') = true.
Proof.
  induction entries as [|[key expectedVal] rest IH]; simpl.
  - split; [|done]. by intros _ k v ?%elem_of_nil.
  - destruct (actualMap !! key) as [actualVal|] eqn:Hkey.
    + destruct (deepEqualBase expectedVal actualVal) eqn:Heq; simpl.
      * rewrite IH. split.
        -- intros H k v [[= -> ->]|Hin]%elem_of_cons; [eauto | by apply H].
        -- intros H k v Hin. apply H. by right.
      * split; [done|]. intros H.
        destruct (H key expectedVal) as (v' & Hv' & Hvv'); [left|].
        simpl in Hvv'. congruence.
    + split; [done|]. intros H.
      destruct (H key expectedVal) as (v' & Hv' & _); [left|]. congruence.
Qed.

(** What isEqualMap computes: it holds exactly when every key of the
    expected map is bound in the actual map to a deeply equal value; the keys
    that only the actual map has are not looked at. *)
Theorem isEqualMap_is_inclusion (expectedMap actualMap : gmap MapKey Base) :
  isEqualMap (VMap expectedMap) (VMap actualMap) = Some true ↔
  mapIncluded expectedMap actualMap.
Proof.
  simpl. split.
  - intros [= H] k v Hk. rewrite isEqualMap_loop_included in H.
    apply H. by apply elem_of_map_to_list.
  - intros H. f_equal. apply isEqualMap_loop_included.
    intros k v Hin%elem_of_map_to_list. by apply H.
Qed.

(** C3: isEqualMap holds without inclusion in both directions.  It finds
    the empty map equal to the map {k: v}, which is not included in the empty
    map: the entries of the actual map are never looked up in the expected
    one. *)
Lemma isEqualMap_not_both_directions :
  isEqualMap (VMap ∅) (VMap {[KString "k" := BKey (KString "v")]}) = Some true ∧
  ¬ mapIncluded {[KString "k" := BKey (KString "v")]} ∅.
Proof.
  split; [reflexivity|].
  intros H. destruct (H (KString "k") (BKey (KString "v"))) as (v' & Hv' & _).
  - apply lookup_singleton_eq.
  - by rewrite lookup_empty in Hv'.
Qed.

(** ** preInsert *)

Section PreInsert.
Context `{ext : External}.

(** C4: an insert without a uuid-name returns from preInsert with the
    transaction as it was: no name is reserved, and the range-get of the
    table is not appended to the buffer. *)
Theorem preInsert_without_uuid_name w txn ovsOp ovsResult :
  o_UUIDName ovsOp = None →
  preInsert w txn ovsOp ovsResult = Some (w, txn, ovsOp, ovsResult, None).
Proof. intros H. unfold preInsert. by rewrite H. Qed.

(** With a uuid-name that is not reserved yet, preInsert reserves it (for
    the uuid of the operation, or a generated one) and appends the range-get
    of the table. *)
Lemma preInsert_reserves w txn ovsOp ovsResult uuidName table :
  o_UUIDName ovsOp = Some uuidName → mapUUID txn !! uuidName = None →
  o_Table ovsOp = Some table →
  let uuid := default (GenerateUUID w).1 (o_UUID ovsOp) in
  let txn' := set_mapUUID (<[uuidName := uuid]> (mapUUID txn)) txn in
  preInsert w txn ovsOp ovsResult
  = Some ((GenerateUUID w).2,
          etcdGetData txn' (NewTableKey (t_DBName (request txn)) table),
          ovsOp, ovsResult, None).
Proof.
  intros Hname Hfree Htable. unfold preInsert. rewrite Hname. simpl.
  destruct (GenerateUUID w) as [generated w']. rewrite Hfree. simpl.
  rewrite Htable. simpl. by destruct (o_UUID ovsOp).
Qed.

(** I5: a uuid-name that is already reserved fails with
    [duplicate uuid-name], and nothing is appended. *)
Lemma preInsert_duplicate w txn ovsOp ovsResult uuidName uuid :
  o_UUIDName ovsOp = Some uuidName → mapUUID txn !! uuidName = Some uuid →
  preInsert w txn ovsOp ovsResult
  = Some ((GenerateUUID w).2, txn, ovsOp, ovsResult, Some E_DUP_UUIDNAME).
Proof.
  intros Hname Htaken. unfold preInsert. rewrite Hname. simpl.
  destruct (GenerateUUID w) as [generated w']. by rewrite Htaken.
Qed.

End PreInsert.

(** The insert of the test TestTransactInsert: after preInsert the buffer of
    the new transaction is still empty. *)
Lemma preInsert_without_uuid_name_witness :
  let ovsOp :=
    mkOperation OP_INSERT (Some "table1") (Some {[ "key1" := VString "val1" ]})
                None None None None None None None None None None in
  let txn := AddSchema Example.testSchemaSimple (NewTransaction (mkTransact "simple" [ovsOp])) in
  ∃ w' txn',
    preInsert (ext := Example.external) (Example.mkWorld 0 []) txn ovsOp emptyResult
    = Some (w', txn', ovsOp, emptyResult, None) ∧ Then (etcd txn') = [].
Proof.
  intros ovsOp txn. eexists _, _. split.
  - apply (preInsert_without_uuid_name (ext := Example.external)). reflexivity.
  - reflexivity.
Defined.

(** ** Commit and the select-isolation check *)

Section CommitProperties.
Context `{ext : External}.

Lemma hasSelectAndOther_spec operations :
  hasSelectAndOther operations
  = (existsb (λ ovsOp, bool_decide (o_Op ovsOp = OP_SELECT)) operations,
     existsb (λ ovsOp, negb (bool_decide (o_Op ovsOp = OP_SELECT))) operations).
Proof.
  unfold hasSelectAndOther.
  assert (∀ a b,
    foldl (λ '(hasSelect, hasOther) ovsOp,
             if bool_decide (o_Op ovsOp = OP_SELECT) then (true, hasOther)
             else (hasSelect, true)) (a, b) operations
    = (a || existsb (λ ovsOp, bool_decide (o_Op ovsOp = OP_SELECT)) operations,
       b || existsb (λ ovsOp, negb (bool_decide (o_Op ovsOp = OP_SELECT))) operations)) as H.
  { induction operations as [|op ops IH]; intros a b; simpl.
    - by rewrite !orb_false_r.
    - case_bool_decide; rewrite IH; simpl; by destruct a, b. }
  by rewrite H.
Qed.

Lemma TxnLock_Lock_Unlock l dbname :
  lock_root l = false → held l dbname = false →
  ∃ l1 l2, TxnLock_Lock l dbname = Acquired l1 ∧ TxnLock_Unlock l1 dbname = Acquired l2.
Proof.
  unfold TxnLock_Lock, TxnLock_Unlock, held. intros -> Hfree.
  destruct (lock_databases l !! dbname) as [[]|] eqn:Hdb; simpl in *; [done| |].
  - rewrite Hdb. eexists _, _. split; [done|]. simpl. by rewrite lookup_insert_eq.
  - rewrite lookup_insert_eq. eexists _, _. split; [done|]. simpl.
    by rewrite lookup_insert_eq.
Qed.

(** C5: a request with a select and with another operation fails in Commit
    with [constraint violation], and the response carries that error.  The
    check comes before any dispatch and any submission: the world, the
    buffer, the cache, the named uuids, the request and the results are as
    they were, also for an operation that has no callback and would panic
    when dispatched. *)
Theorem Commit_select_mixed w txn opSelect opOther :
  opSelect ∈ t_Operations (request txn) → o_Op opSelect = OP_SELECT →
  opOther ∈ t_Operations (request txn) → o_Op opOther ≠ OP_SELECT →
  lock_root (lock txn) = false → held (lock txn) (t_DBName (request txn)) = false →
  ∃ txn', Commit w txn = Some (w, txn', -1, Some E_CONSTRAINT_VIOLATION) ∧
          tr_Error (response txn') = Some E_CONSTRAINT_VIOLATION ∧
          tr_Result (response txn') = tr_Result (response txn) ∧
          etcd txn' = etcd txn ∧ cache txn' = cache txn ∧
          mapUUID txn' = mapUUID txn ∧ request txn' = request txn.
Proof.
  intros Hs HsOp Ho HoOp Hroot Hfree.
  destruct (TxnLock_Lock_Unlock _ _ Hroot Hfree) as (l1 & l2 & Hlock & Hunlock).
  unfold Commit. rewrite Hlock. unfold Commit_locked.
  change (request (set_lock l1 txn)) with (request txn).
  rewrite hasSelectAndOther_spec.
  assert (existsb (λ ovsOp, bool_decide (o_Op ovsOp = OP_SELECT))
                  (t_Operations (request txn)) = true) as ->.
  { apply existsb_exists. exists opSelect. rewrite <- list_elem_of_In.
    split; [done|]. by apply bool_decide_eq_true. }
  assert (existsb (λ ovsOp, negb (bool_decide (o_Op ovsOp = OP_SELECT)))
                  (t_Operations (request txn)) = true) as ->.
  { apply existsb_exists. exists opOther. rewrite <- list_elem_of_In.
    split; [done|]. by rewrite bool_decide_eq_false_2. }
  simpl. rewrite Hunlock. eexists. split; [reflexivity|]. done.
Qed.

End CommitProperties.

(** The request [select; insert] on database simple: Commit fails with
    [constraint violation], and the log of the backend stays empty. *)
Lemma Commit_select_mixed_witness :
  let opSelect := mkOperation OP_SELECT (Some "table1") None None None None None None
                              None None None None None in
  let opInsert := mkOperation OP_INSERT (Some "table1") (Some {[ "key1" := VString "val1" ]})
                              None None None None None None None None None None in
  let txn := AddSchema Example.testSchemaSimple
               (NewTransaction (mkTransact "simple" [opSelect; opInsert])) in
  let w := Example.mkWorld 0 [] in
  ∃ txn', Commit (ext := Example.external) w txn
          = Some (w, txn', -1, Some E_CONSTRAINT_VIOLATION) ∧
          tr_Error (response txn') = Some E_CONSTRAINT_VIOLATION ∧
          Example.submitted w = [].
Proof.
  intros opSelect opInsert txn w.
  destruct (Commit_select_mixed (ext := Example.external) w txn opSelect opInsert)
    as (txn' & HCommit & HError & _).
  - left.
  - reflexivity.
  - right. left.
  - discriminate.
  - reflexivity.
  - reflexivity.
  - exists txn'. split; [exact HCommit|]. split; [exact HError | reflexivity].
Defined.

(** ** RowMutate *)

Section RowMutateProperties.
Context `{ext : External}.

Lemma covers_refl row : covers row row.
Proof. by intros column. Qed.

Lemma covers_trans row1 row2 row3 : covers row1 row2 → covers row2 row3 → covers row1 row3.
Proof. intros H12 H23 column H. by apply H23, H12. Qed.

Lemma covers_insert row column value : covers row (<[column := value]> row).
Proof. intros c H. rewrite lookup_insert_is_Some. destruct (decide (column = c)); auto. Qed.

Lemma covers_GoMap_written row column GoMap : covers row (GoMap_written column GoMap row).
Proof. unfold GoMap_written. repeat case_match; auto using covers_refl, covers_insert. Qed.

#[local] Hint Resolve covers_refl covers_insert covers_GoMap_written : core.

(** A write into a map object shows in the map columns only. *)
Lemma GoMap_written_frame column GoMap row c :
  (∀ g, row !! c ≠ Some (VMap g)) → GoMap_written column GoMap row !! c = row !! c.
Proof.
  intros Hc. unfold GoMap_written.
  destruct (row !! column) as [[| | |g|]|] eqn:Hcol; try done.
  destruct (decide (column = c)) as [->|]; [by destruct (Hc g)|].
  by rewrite lookup_insert_ne.
Qed.

(** In a row that holds a map in the column, the write leaves the content
    of the object. *)
Lemma GoMap_written_map column GoMap row g :
  row !! column = Some (VMap g) → GoMap_written column GoMap row = <[column := VMap GoMap]> row.
Proof. intros H. unfold GoMap_written. by rewrite H. Qed.

Lemma GoMap_written_same column row g :
  row !! column = Some (VMap g) → GoMap_written column g row = row.
Proof. intros H. unfold GoMap_written. rewrite H. by apply insert_id. Qed.

Lemma rowGet_VMap row column g : rowGet row column = VMap g → row !! column = Some (VMap g).
Proof. unfold rowGet. destruct (row !! column) as [v|]; simpl; [by intros -> | done]. Qed.

(** A mutation only writes a column: it removes none. *)
Lemma Mutation_Mutate_covers m shared row shared' row' o :
  Mutation_Mutate m shared row = (shared', row', o) → covers row row'.
Proof.
  unfold Mutation_Mutate, Mutation_MutateInteger, Mutation_MutateReal,
    Mutation_MutateSet, Mutation_MutateMap.
  intros H. repeat case_match; simplify_eq; simpl; eauto using covers_trans.
Qed.

(** What a mutation changes in the row that was copied is in a map
    column. *)
Lemma Mutation_Mutate_shared_frame m shared row shared' row' o c :
  Mutation_Mutate m shared row = (shared', row', o) →
  (∀ g, shared !! c ≠ Some (VMap g)) → shared' !! c = shared !! c.
Proof.
  unfold Mutation_Mutate, Mutation_MutateMap.
  intros H Hc. repeat case_match; simplify_eq; simpl; try done;
    by apply GoMap_written_frame.
Qed.

Lemma sharesMaps_insert shared row column v :
  sharesMaps shared row → (∀ g, v ≠ VMap g) → (∀ g, row !! column ≠ Some (VMap g)) →
  sharesMaps shared (<[column := v]> row).
Proof.
  intros Hs Hv Hrow c g. destruct (decide (column = c)) as [<-|Hne].
  - rewrite lookup_insert_eq. split.
    + intros H%Hs. by destruct (Hrow g).
    + intros [= ->]. by destruct (Hv g).
  - rewrite lookup_insert_ne by done. apply Hs.
Qed.

Lemma sharesMaps_written shared row column g0 g :
  sharesMaps shared row → row !! column = Some (VMap g0) →
  sharesMaps (GoMap_written column g shared) (<[column := VMap g]> row).
Proof.
  intros Hs Hrow c g'. unfold GoMap_written. rewrite (proj2 (Hs column g0) Hrow).
  destruct (decide (column = c)) as [<-|Hne].
  - by rewrite !lookup_insert_eq.
  - rewrite !lookup_insert_ne by done. apply Hs.
Qed.

Lemma insertToMap_Ret original toInsert GoMap mutated :
  insertToMap original toInsert = (GoMap, Ret mutated) → mutated = GoMap.
Proof. unfold insertToMap. destruct toInsert; intros; by simplify_eq. Qed.

Lemma deleteFromMap_Ret original toDelete GoMap mutated :
  deleteFromMap original toDelete = (GoMap, Ret mutated) → mutated = GoMap.
Proof. unfold deleteFromMap. destruct toDelete; intros; by simplify_eq. Qed.

(** A mutation keeps the working copy and the row that was copied on the
    same map objects: their map columns stay the same. *)
Lemma Mutation_Mutate_shares m shared row shared' row' o :
  sharesMaps shared row → Mutation_Mutate m shared row = (shared', row', o) →
  sharesMaps shared' row'.
Proof.
  intros Hs. unfold Mutation_Mutate.
  destruct (_ || _); [by intros; simplify_eq|].
  case_bool_decide; [by intros; simplify_eq|].
  destruct (cs_Type (m_ColumnSchema m)); try (by intros; simplify_eq).
  - unfold Mutation_MutateInteger.
    destruct (rowGet row (m_Column m)) as [|[[n| | |]|]| | |] eqn:Hrow;
      try (by intros; simplify_eq).
    assert (∀ g, row !! m_Column m ≠ Some (VMap g)) as Hnm.
    { intros g Hg. unfold rowGet in Hrow. by rewrite Hg in Hrow. }
    intros Hm. repeat case_match; simplify_eq; simpl; try done;
      by apply sharesMaps_insert.
  - unfold Mutation_MutateReal.
    destruct (rowGet row (m_Column m)) as [|[|f]| | |] eqn:Hrow;
      try (by intros; simplify_eq).
    assert (∀ g, row !! m_Column m ≠ Some (VMap g)) as Hnm.
    { intros g Hg. unfold rowGet in Hrow. by rewrite Hg in Hrow. }
    intros Hm. repeat case_match; simplify_eq; simpl; try done;
      by apply sharesMaps_insert.
  - unfold Mutation_MutateSet.
    destruct (rowGet row (m_Column m)) as [| |s| |] eqn:Hrow;
      try (by intros; simplify_eq).
    assert (∀ g, row !! m_Column m ≠ Some (VMap g)) as Hnm.
    { intros g Hg. unfold rowGet in Hrow. by rewrite Hg in Hrow. }
    intros Hm. repeat case_match; simplify_eq; simpl; try done;
      by apply sharesMaps_insert.
  - unfold Mutation_MutateMap.
    destruct (rowGet row (m_Column m)) as [| | |original|] eqn:Hrow;
      try (by intros; simplify_eq).
    apply rowGet_VMap in Hrow.
    destruct (if bool_decide (m_Mutator m = MT_INSERT) then _ else _)
      as [GoMap mutated] eqn:Hcall.
    rewrite (GoMap_written_map _ _ _ _ Hrow).
    assert (sharesMaps (GoMap_written (m_Column m) GoMap shared)
                       (<[m_Column m := VMap GoMap]> row)) as Hs'
      by (by eapply sharesMaps_written).
    destruct mutated as [mutated|e|]; intros; simplify_eq; try done.
    assert (mutated = GoMap) as ->.
    { repeat case_match; simplify_eq;
        eauto using insertToMap_Ret, deleteFromMap_Ret. }
    by rewrite insert_insert_eq.
Qed.

Lemma copier_Copy_empty row : copier_Copy ∅ row = row.
Proof. unfold copier_Copy. apply (right_id ∅ (∪)). Qed.

Lemma copier_Copy_covers original mutated :
  covers original mutated → copier_Copy original mutated = mutated.
Proof.
  intros Hcov. unfold copier_Copy. apply map_eq. intros column.
  rewrite lookup_union. destruct (mutated !! column) eqn:Hm.
  - by destruct (original !! column).
  - destruct (original !! column) eqn:Ho; [|done].
    destruct (Hcov column) as [? ?]; [by rewrite Ho | congruence].
Qed.

Lemma Mutation_Mutate_shared_covers m shared row shared' row' o :
  Mutation_Mutate m shared row = (shared', row', o) →
  covers shared shared' ∧ covers shared' shared.
Proof.
  unfold Mutation_Mutate, Mutation_MutateMap, GoMap_written.
  intros H. repeat case_match; simplify_eq; simpl; split; auto;
    intros c; rewrite lookup_insert_is_Some; intros [<-|[_ ?]]; eauto.
Qed.

Lemma RowMutate_loop_covers tableSchema mapUUID mutations shared row shared' row' o :
  RowMutate_loop tableSchema mapUUID mutations shared row = (shared', row', o) →
  covers row row' ∧ covers shared shared' ∧ covers shared' shared.
Proof.
  revert shared row. induction mutations as [|mt rest IH]; intros shared row H; simpl in H.
  - by simplify_eq.
  - destruct mt as [| | | |mt]; try by simplify_eq.
    destruct (NewMutation tableSchema mapUUID mt) as [mutation| |]; try by simplify_eq.
    destruct (Mutation_Mutate mutation shared row) as [[shared1 row1] [[]| |]] eqn:Hm;
      pose proof (Mutation_Mutate_covers _ _ _ _ _ _ Hm) as Hcov;
      pose proof (Mutation_Mutate_shared_covers _ _ _ _ _ _ Hm) as [Hs1 Hs2];
      simplify_eq; [|by repeat split..].
    destruct (IH _ _ H) as (H1 & H2 & H3).
    repeat split; eauto using covers_trans.
Qed.

Lemma RowMutate_loop_Ret tableSchema mapUUID mutations shared row shared' row' :
  RowMutate_loop tableSchema mapUUID mutations shared row = (shared', row', Ret tt) ↔
  mutatesTo tableSchema mapUUID mutations shared row shared' row'.
Proof.
  split.
  - revert shared row. induction mutations as [|mt rest IH]; intros shared row H; simpl in H.
    + simplify_eq. constructor.
    + destruct mt as [| | | |mt]; try done.
      destruct (NewMutation tableSchema mapUUID mt) as [mutation| |] eqn:Hn; try done.
      destruct (Mutation_Mutate mutation shared row) as [[shared1 row1] [[]| |]] eqn:Hm;
        try done.
      econstructor; [done | done | by apply IH].
  - induction 1 as [|mt mutation rest shared row shared1 row1 shared2 row2 Hn Hm _ IH];
      simpl; [done|].
    by rewrite Hn, Hm.
Qed.

Lemma RowMutate_loop_Fail tableSchema mapUUID mutations shared row shared' e :
  (∃ row', RowMutate_loop tableSchema mapUUID mutations shared row = (shared', row', Fail e)) ↔
  mutationFails tableSchema mapUUID mutations shared row shared' e.
Proof.
  split.
  - revert shared row.
    induction mutations as [|mt rest IH]; intros shared row [row' H]; simpl in H.
    + done.
    + destruct mt as [| | | |mt]; try done.
      destruct (NewMutation tableSchema mapUUID mt) as [mutation|e'|] eqn:Hn; try done.
      * destruct (Mutation_Mutate mutation shared row) as [[shared1 row1] [[]|e'|]] eqn:Hm;
          try done.
        -- eapply mutationFails_later; [done | done |]. apply IH. eauto.
        -- simplify_eq. by eapply mutationFails_apply.
      * simplify_eq. by apply mutationFails_compile.
  - induction 1 as [mt rest shared row e Hn | mt mutation rest shared row shared1 row1 e Hn Hm
                    | mt mutation rest shared row shared1 row1 shared2 e Hn Hm _ IH]; simpl.
    + rewrite Hn. eauto.
    + rewrite Hn, Hm. eauto.
    + rewrite Hn, Hm. done.
Qed.

Lemma RowMutate_loop_shares tableSchema mapUUID mutations shared row shared' row' o :
  sharesMaps shared row →
  RowMutate_loop tableSchema mapUUID mutations shared row = (shared', row', o) →
  sharesMaps shared' row'.
Proof.
  revert shared row. induction mutations as [|mt rest IH]; intros shared row Hs H; simpl in H.
  - by simplify_eq.
  - destruct mt as [| | | |mt]; try by simplify_eq.
    destruct (NewMutation tableSchema mapUUID mt) as [mutation| |]; try by simplify_eq.
    destruct (Mutation_Mutate mutation shared row) as [[shared1 row1] [[]| |]] eqn:Hm;
      pose proof (Mutation_Mutate_shares _ _ _ _ _ _ Hs Hm) as Hs1;
      simplify_eq; [|done..].
    by eapply IH.
Qed.

(** RowMutate returns without error exactly when every mutation of the
    group compiles and applies, and then the row is the mutated copy. *)
Lemma RowMutate_Ret tableSchema mapUUID original mutations row' :
  RowMutate tableSchema mapUUID original (Some mutations) = (row', Ret tt) ↔
  ∃ shared', mutatesTo tableSchema mapUUID mutations original original shared' row'.
Proof.
  unfold RowMutate. rewrite copier_Copy_empty.
  destruct (RowMutate_loop tableSchema mapUUID mutations original original)
    as [[shared mutated] o] eqn:Hloop.
  destruct (RowMutate_loop_covers _ _ _ _ _ _ _ _ Hloop) as (Hcov & Hs1 & Hs2).
  setoid_rewrite <- RowMutate_loop_Ret. rewrite Hloop.
  destruct o as [[]| |]; [|split; [done | by intros [? ?]]..].
  rewrite copier_Copy_covers by eauto using covers_trans.
  split; [intros; simplify_eq; eauto | by intros [? ?]; simplify_eq].
Qed.

(** When a mutation fails, the error of that mutation is returned, and the
    row is the row that was copied, with what the mutations before the
    failing one wrote into its map objects. *)
Lemma RowMutate_Fail tableSchema mapUUID original mutations row' e :
  RowMutate tableSchema mapUUID original (Some mutations) = (row', Fail e) ↔
  mutationFails tableSchema mapUUID mutations original original row' e.
Proof.
  unfold RowMutate. rewrite copier_Copy_empty, <- RowMutate_loop_Fail.
  destruct (RowMutate_loop tableSchema mapUUID mutations original original)
    as [[shared mutated] [[]|e'|]] eqn:Hloop.
  - split; [done|]. by intros [? ?].
  - split.
    + intros ?. simplify_eq. eauto.
    + intros [? ?]. by simplify_eq.
  - split; [done|]. by intros [? ?].
Qed.

(** After a failure, the map columns of the row are those of the working
    copy at the mutation that failed. *)
Lemma RowMutate_Fail_maps tableSchema mapUUID original mutations row' e :
  RowMutate tableSchema mapUUID original (Some mutations) = (row', Fail e) →
  ∃ mutated,
    RowMutate_loop tableSchema mapUUID mutations original original = (row', mutated, Fail e) ∧
    sharesMaps row' mutated.
Proof.
  unfold RowMutate. rewrite copier_Copy_empty.
  destruct (RowMutate_loop tableSchema mapUUID mutations original original)
    as [[shared mutated] [[]|e'|]] eqn:Hloop; intros; simplify_eq.
  exists mutated. split; [done|].
  eapply RowMutate_loop_shares; [|done]. by intros column g.
Qed.

(** What a failed group leaves changed in the row is in its map columns:
    the other columns are as they were. *)
Lemma mutationFails_frame tableSchema mapUUID mutations shared row shared' e c :
  mutationFails tableSchema mapUUID mutations shared row shared' e →
  (∀ g, shared !! c ≠ Some (VMap g)) → shared' !! c = shared !! c.
Proof.
  induction 1 as [mt rest shared row e Hn | mt mutation rest shared row shared1 row1 e Hn Hm
                  | mt mutation rest shared row shared1 row1 shared2 e Hn Hm _ IH];
    intros Hc; [done | by eapply Mutation_Mutate_shared_frame |].
  pose proof (Mutation_Mutate_shared_frame _ _ _ _ _ _ c Hm Hc) as Heq.
  rewrite <- Heq. apply IH. intros g. by rewrite Heq.
Qed.

Lemma RowMutate_Fail_frame tableSchema mapUUID original mutations row' e c :
  RowMutate tableSchema mapUUID original (Some mutations) = (row', Fail e) →
  (∀ g, original !! c ≠ Some (VMap g)) → row' !! c = original !! c.
Proof. rewrite RowMutate_Fail. apply mutationFails_frame. Qed.

(** Division and modulo by zero on an integer column fail with
    [domain error]. *)
Lemma Mutation_Mutate_by_zero m shared row original :
  m_Column m ≠ COL_UUID → m_Column m ≠ COL_VERSION →
  cs_Mutable (m_ColumnSchema m) ≠ Some false →
  cs_Type (m_ColumnSchema m) = TypeInteger →
  rowGet row (m_Column m) = VInt original →
  m_Value m = VInt 0 →
  m_Mutator m = MT_QUOTIENT ∨ m_Mutator m = MT_REMAINDER →
  ∃ row', Mutation_Mutate m shared row = (shared, row', Fail E_DOMAIN_ERROR).
Proof.
  intros Hu Hv Hmut Hty Hrow Hval Hop. unfold Mutation_Mutate.
  rewrite !bool_decide_eq_false_2 by done. simpl. rewrite Hty.
  unfold Mutation_MutateInteger. rewrite Hrow, Hval.
  destruct Hop as [-> | ->]; simpl; eauto.
Qed.

(** So does the division of a real column by a zero of either sign. *)
Lemma Mutation_Mutate_real_by_zero m shared row original value :
  m_Column m ≠ COL_UUID → m_Column m ≠ COL_VERSION →
  cs_Mutable (m_ColumnSchema m) ≠ Some false →
  cs_Type (m_ColumnSchema m) = TypeReal →
  rowGet row (m_Column m) = VReal original →
  m_Value m = VReal value → PrimFloat.eqb value PrimFloat.zero = true →
  m_Mutator m = MT_QUOTIENT →
  ∃ row', Mutation_Mutate m shared row = (shared, row', Fail E_DOMAIN_ERROR).
Proof.
  intros Hu Hv Hmut Hty Hrow Hval Hzero Hop. unfold Mutation_Mutate.
  rewrite !bool_decide_eq_false_2 by done. simpl. rewrite Hty.
  unfold Mutation_MutateReal. rewrite Hrow, Hval, Hop, Hzero. simpl. eauto.
Qed.

End RowMutateProperties.

(** C8: RowMutate is not all-or-nothing on a row with a map column.  On the
    row {m: {a: 1}, i: 1}, the group [m insert {b: 2}; i /= 0] fails with
    [domain error] at its second mutation, and the row holds
    m = {a: 1, b: 2} afterwards: the insert was written into the map object
    that the working copy shares with the row.  The integer column is as it
    was. *)
Theorem RowMutate_keeps_map_writes :
  let tableSchema := mkTableSchema {[ "m" := mkColumnSchema TypeMap None None;
                                      "i" := mkColumnSchema TypeInteger None None ]} in
  let original : Row := {[ "m" := VMap {[ KString "a" := BKey (KInt 1) ]}; "i" := VInt 1 ]} in
  let mutations := [VSlice [VString "m"; VString "insert";
                            VMap {[ KString "b" := BKey (KInt 2) ]}];
                    VSlice [VString "i"; VString "/="; VInt 0]] in
  let row' : Row := {[ "m" := VMap {[ KString "a" := BKey (KInt 1);
                                      KString "b" := BKey (KInt 2) ]};
                       "i" := VInt 1 ]} in
  RowMutate (ext := Example.external) tableSchema ∅ original (Some mutations)
  = (row', Fail E_DOMAIN_ERROR) ∧
  row' ≠ original ∧
  mutationFails (ext := Example.external) tableSchema ∅ mutations original original row'
                E_DOMAIN_ERROR.
Proof.
  intros tableSchema original mutations row'.
  assert (RowMutate (ext := Example.external) tableSchema ∅ original (Some mutations)
          = (row', Fail E_DOMAIN_ERROR)) as Hrun by (vm_compute; reflexivity).
  split; [exact Hrun|]. split.
  - intros Heq. apply (f_equal (λ row : Row, row !! "m")) in Heq.
    vm_compute in Heq. discriminate.
  - by apply RowMutate_Fail.
Qed.

(** ** doSelect *)

Section SelectProperties.
Context `{ext : External}.

Lemma reduceRowByColumns_projects row columns :
  ∃ resultRow, reduceRowByColumns row (Some columns) = Ret resultRow ∧
               ∀ uuid, projects columns resultRow (uuid, row).
Proof.
  eexists. split; [reflexivity|]. intros uuid column. simpl.
  assert (∀ (acc : Row),
    foldl (λ (newRow : Row) c, <[c := rowGet row c]> newRow) acc columns !! column
    = if bool_decide (column ∈ columns) then Some (rowGet row column) else acc !! column) as H.
  { induction columns as [|c cs IH]; intros acc; simpl.
    - done.
    - rewrite IH. destruct (decide (column ∈ cs)) as [Hin|Hnin].
      + rewrite !bool_decide_eq_true_2; [done | by right | done].
      + rewrite (bool_decide_eq_false_2 (column ∈ cs)) by done.
        destruct (decide (column = c)) as [->|Hne].
        * rewrite lookup_insert_eq, bool_decide_eq_true_2; [done | left].
        * rewrite lookup_insert_ne by done.
          rewrite bool_decide_eq_false_2; [done|].
          rewrite not_elem_of_cons. done. }
  rewrite H. by rewrite lookup_empty.
Qed.

Lemma r_Rows_AppendRows resultRows ovsResult acc :
  r_Rows ovsResult = Some acc →
  r_Rows (foldl (λ r row, AppendRows row r) ovsResult resultRows) = Some (acc ++ resultRows).
Proof.
  revert ovsResult acc. induction resultRows as [|row rows IH]; intros ovsResult acc Hacc.
  - simpl. by rewrite app_nil_r.
  - simpl. erewrite IH; [|simpl; by rewrite Hacc]. simpl. by rewrite <- app_assoc.
Qed.

(** The loop of doSelect appends the projection of every selected row, in
    the order of the rows, and returns no error when the where clause
    evaluates on every row. *)
Lemma doSelect_loop_projects tableSchema mapUUID ovsOp columns rows ovsResult :
  o_Columns ovsOp = Some columns →
  (∀ entry, entry ∈ rows →
     ∃ ok, isRowSelectedByWhere tableSchema mapUUID entry.2 (o_Where ovsOp) = Ret ok) →
  ∃ resultRows,
    doSelect_loop tableSchema mapUUID ovsOp rows ovsResult
    = Some (foldl (λ r row, AppendRows row r) ovsResult resultRows, None) ∧
    Forall2 (projects columns) resultRows
            (filter (λ entry, selects tableSchema mapUUID (o_Where ovsOp) entry = true) rows).
Proof.
  intros Hcols. revert ovsResult.
  induction rows as [|[uuid row] rows IH]; intros ovsResult Hwhere.
  - exists []. split; [done | constructor].
  - destruct (Hwhere (uuid, row)) as [ok Hok]; [left|]. simpl in Hok.
    assert (∀ entry, entry ∈ rows →
              ∃ ok, isRowSelectedByWhere tableSchema mapUUID entry.2 (o_Where ovsOp) = Ret ok)
      as Hwhere' by (intros entry ?; apply Hwhere; by right).
    simpl. rewrite Hok. destruct ok; simpl.
    + rewrite Hcols.
      destruct (reduceRowByColumns_projects row columns) as (resultRow & -> & Hproj).
      destruct (IH (AppendRows resultRow ovsResult) Hwhere') as (resultRows & -> & Hall).
      exists (resultRow :: resultRows). split; [done|].
      rewrite filter_cons_True by (unfold selects; simpl; by rewrite Hok).
      constructor; [apply Hproj | done].
    + destruct (IH ovsResult Hwhere') as (resultRows & -> & Hall).
      exists resultRows. split; [done|].
      rewrite filter_cons_False; [done|]. unfold selects. simpl. by rewrite Hok.
Qed.

(** C10: doSelect does not look the asked columns up in the schema or in
    the row.  When the table is known and the where clause evaluates on the
    cached rows, doSelect returns no error, and its result has one row for
    every selected row, with exactly the asked columns: a name that the
    selected row does not have is bound to nil. *)
Theorem doSelect_projects_unknown_columns w txn ovsOp ovsResult table tableSchema columns :
  o_Table ovsOp = Some table →
  LookupTable (schemas txn) (t_DBName (request txn)) table = Ret tableSchema →
  o_Columns ovsOp = Some columns →
  let tableCache := (Cache_Table (cache txn) (t_DBName (request txn)) table).1 in
  (∀ uuid row, tableCache !! uuid = Some row →
     ∃ ok, isRowSelectedByWhere tableSchema (mapUUID txn) row (o_Where ovsOp) = Ret ok) →
  ∃ txn' result resultRows,
    doSelect w txn ovsOp ovsResult = Some (w, txn', ovsOp, result, None) ∧
    r_Rows result = Some resultRows ∧
    Forall2 (projects columns) resultRows
      (filter (λ entry, selects tableSchema (mapUUID txn) (o_Where ovsOp) entry = true)
              (map_to_list tableCache)) ∧
    Forall2 (λ resultRow entry,
               ∀ column, column ∈ columns → entry.2 !! column = None →
                         resultRow !! column = Some VNil)
      resultRows
      (filter (λ entry, selects tableSchema (mapUUID txn) (o_Where ovsOp) entry = true)
              (map_to_list tableCache)).
Proof.
  intros Htable Hlookup Hcols tableCache Hwhere. unfold doSelect.
  rewrite Htable. simpl. rewrite Hlookup.
  subst tableCache.
  destruct (Cache_Table (cache txn) (t_DBName (request txn)) table) as [tableCache c].
  simpl in Hwhere.
  change (mapUUID (set_cache c txn)) with (mapUUID txn).
  destruct (doSelect_loop_projects tableSchema (mapUUID txn) ovsOp columns
              (map_to_list tableCache) (InitRows ovsResult) Hcols)
    as (resultRows & -> & Hall).
  { intros [uuid row] Hin%elem_of_map_to_list. by eapply Hwhere. }
  simpl. eexists _, _, resultRows. split; [reflexivity|].
  split; [by apply (r_Rows_AppendRows resultRows (InitRows ovsResult) [])|].
  split; [done|].
  eapply Forall2_impl; [done|]. intros resultRow entry Hproj column Hin Hmiss.
  rewrite (Hproj column), bool_decide_eq_true_2 by done.
  unfold rowGet. by rewrite Hmiss.
Qed.

End SelectProperties.

(** A select of the columns key1 and nosuch on a cached row {key1: val1}:
    no error, and the result row binds nosuch to nil. *)
Lemma doSelect_projects_unknown_columns_witness :
  let ovsOp := mkOperation OP_SELECT (Some "table1") None None (Some ["key1"; "nosuch"])
                           None None None None None None None None in
  let txn0 := AddSchema Example.testSchemaSimple (NewTransaction (mkTransact "simple" [ovsOp])) in
  let txn := set_cache {[ "simple" := {[ "table1" :=
                 {[ "00000000-0000-0000-0000-000000000001" := {[ "key1" := VString "val1" ]} ]}
               ]} ]} txn0 in
  ∃ w' txn' result resultRow,
    doSelect (ext := Example.external) (Example.mkWorld 0 []) txn ovsOp emptyResult
    = Some (w', txn', ovsOp, result, None) ∧
    r_Rows result = Some [resultRow] ∧
    resultRow !! "key1" = Some (VString "val1") ∧
    resultRow !! "nosuch" = Some VNil.
Proof.
  intros ovsOp txn0 txn.
  destruct (doSelect_projects_unknown_columns (ext := Example.external)
              (Example.mkWorld 0 []) txn ovsOp emptyResult "table1"
              (mkTableSchema {[ "key1" := mkColumnSchema TypeString None None;
                                "key2" := mkColumnSchema TypeInteger None None ]})
              ["key1"; "nosuch"])
    as (txn' & result & resultRows & Hrun & Hrows & Hproj & Hnil).
  - reflexivity.
  - vm_compute. reflexivity.
  - reflexivity.
  - intros uuid row _. exists true. reflexivity.
  - vm_compute in Hproj.
    apply Forall2_cons_inv_r in Hproj as (resultRow & rest & Hp & ->%Forall2_nil_inv_r & ->).
    exists (Example.mkWorld 0 []), txn', result, resultRow.
    split; [exact Hrun|]. split; [exact Hrows|].
    split; [apply (Hp "key1") | apply (Hp "nosuch")].
Defined.

(** ** Locking *)

Lemma TxnLock_Lock_fresh dbname :
  TxnLock_Lock NewTxnLock dbname
  = Acquired (mkTxnLock false (<[dbname := true]> (<[dbname := false]> ∅))).
Proof.
  unfold TxnLock_Lock, NewTxnLock. simpl.
  by rewrite lookup_empty, lookup_insert_eq.
Qed.

Lemma system_step_Lock heap threads i th l l' :
  threads !! i = Some th →
  th_phase th = BeforeLock →
  heap !! th_lock th = Some l →
  TxnLock_Lock l (th_dbname th) = Acquired l' →
  system_step (heap, threads)
    (<[th_lock th := l']> heap,
     <[i := mkThread (th_lock th) (th_dbname th) InCommit]> threads).
Proof. intros. eapply step_thread; [done|]. by eapply step_Lock. Qed.

(** C9: two transactions made by NewTransaction for the same database can
    both be inside Commit at once: each locks the mutex of its own registry,
    so the commits are not serialized. *)
Theorem NewTransaction_commits_overlap (dbname : string) (ops1 ops2 : list Operation) :
  let '(heap1, t1) := NewTransaction_lock [] (mkTransact dbname ops1) in
  let '(heap2, t2) := NewTransaction_lock heap1 (mkTransact dbname ops2) in
  ∃ heap threads,
    rtc system_step (heap2, [t1; t2]) (heap, threads) ∧ overlap threads.
Proof.
  unfold NewTransaction_lock. simpl. eexists _, _. split.
  - eapply rtc_l.
    { apply (system_step_Lock _ _ 0%nat (mkThread 0 dbname BeforeLock) NewTxnLock);
        [reflexivity | reflexivity | reflexivity | apply TxnLock_Lock_fresh]. }
    simpl. eapply rtc_l.
    { apply (system_step_Lock _ _ 1%nat (mkThread 1 dbname BeforeLock) NewTxnLock);
        [reflexivity | reflexivity | reflexivity | apply TxnLock_Lock_fresh]. }
    simpl. apply rtc_refl.
  - exists 0%nat, 1%nat, (mkThread 0 dbname InCommit), (mkThread 1 dbname InCommit).
    repeat split; done.
Qed.

Lemma inCommit_split threads i th :
  threads !! i = Some th →
  inCommit threads
  = (inCommit (take i threads) + inCommit [th] + inCommit (drop (S i) threads))%nat.
Proof.
  intros Hi. rewrite <- (take_drop_middle threads i th Hi) at 1.
  unfold inCommit. rewrite filter_app, length_app.
  change (th :: drop (S i) threads) with ([th] ++ drop (S i) threads).
  rewrite filter_app, length_app. lia.
Qed.

Lemma inCommit_insert threads i th th' :
  threads !! i = Some th →
  (inCommit (<[i := th']> threads) + inCommit [th] = inCommit threads + inCommit [th'])%nat.
Proof.
  intros Hi. pose proof (lookup_lt_Some _ _ _ Hi) as Hlt.
  rewrite (inCommit_split threads i th Hi).
  rewrite (inCommit_split (<[i := th']> threads) i th')
    by (by apply list_lookup_insert_eq).
  rewrite take_insert_ge, drop_insert_lt by lia. lia.
Qed.

Lemma inCommit_one th :
  inCommit [th] = (if decide (th_phase th = InCommit) then 1 else 0)%nat.
Proof.
  unfold inCommit. case_decide.
  - by rewrite filter_cons_True.
  - by rewrite filter_cons_False.
Qed.

Lemma overlap_inCommit threads : overlap threads → (2 ≤ inCommit threads)%nat.
Proof.
  assert (∀ i j ti tj, (i < j)%nat → threads !! i = Some ti → threads !! j = Some tj →
            th_phase ti = InCommit → th_phase tj = InCommit →
            (2 ≤ inCommit threads)%nat) as Hlt.
  { intros i j ti tj Hij Hi Hj Pi Pj.
    rewrite (inCommit_split threads i ti Hi), inCommit_one.
    rewrite decide_True by done.
    assert (drop (S i) threads !! (j - S i)%nat = Some tj) as Hd.
    { rewrite lookup_drop. rewrite <- Hj. f_equal. lia. }
    rewrite (inCommit_split _ _ _ Hd), inCommit_one, decide_True by done. lia. }
  intros (i & j & ti & tj & Hne & Hi & Hj & Pi & Pj & _).
  destruct (decide (i < j)%nat).
  - by eapply (Hlt i j).
  - eapply (Hlt j i); [lia | done..].
Qed.

Lemma TxnLock_Lock_inv l dbname l' :
  TxnLock_Lock l dbname = Acquired l' →
  lock_root l = false ∧ held l dbname = false ∧ lock_root l' = false ∧ held l' dbname = true.
Proof.
  unfold TxnLock_Lock, held. destruct (lock_root l); [done|]. intros Hacq.
  destruct (lock_databases l !! dbname) as [[]|] eqn:Hdbs; simpl in *.
  - by rewrite Hdbs in Hacq.
  - rewrite Hdbs in Hacq. simplify_eq. simpl. by rewrite lookup_insert_eq.
  - rewrite lookup_insert_eq in Hacq. simplify_eq. simpl. by rewrite lookup_insert_eq.
Qed.

(** A Lock that waits in [db.Lock()] has taken the root mutex and has left
    the mutexes of the databases as they were. *)
Lemma TxnLock_Lock_wait_inv l dbname l' :
  lock_root l = false → TxnLock_Lock l dbname = Blocked l' →
  l' = mkTxnLock true (lock_databases l) ∧ held l dbname = true.
Proof.
  unfold TxnLock_Lock, held. intros -> Hwait.
  destruct (lock_databases l !! dbname) as [[]|] eqn:Hdbs; simpl in *.
  - rewrite Hdbs in Hwait. by simplify_eq.
  - by rewrite Hdbs in Hwait.
  - by rewrite lookup_insert_eq in Hwait.
Qed.

Lemma TxnLock_Lock_wake_inv l dbname l' :
  TxnLock_Lock_wake l dbname = Acquired l' →
  held l dbname = false ∧ lock_root l' = false ∧ held l' dbname = true.
Proof.
  unfold TxnLock_Lock_wake, held. intros Hacq.
  destruct (lock_databases l !! dbname) as [[]|] eqn:Hdbs; simplify_eq.
  simpl. by rewrite lookup_insert_eq.
Qed.

Lemma TxnLock_Unlock_inv l dbname l' :
  TxnLock_Unlock l dbname = Acquired l' →
  lock_root l = false ∧ held l dbname = true ∧ lock_root l' = false ∧ held l' dbname = false.
Proof.
  unfold TxnLock_Unlock, held. destruct (lock_root l); [done|]. intros Hacq.
  destruct (lock_databases l !! dbname) as [[]|] eqn:Hdbs; simpl in *; simplify_eq.
  simpl. by rewrite lookup_insert_eq.
Qed.

Lemma sharedInv_step registry dbname st st' :
  sharedInv registry dbname st → system_step st st' → sharedInv registry dbname st'.
Proof.
  intros (l & Hl & Hall & Hcount) Hstep.
  destruct Hstep as [heap threads i th heap' th' Hi Hth]. simpl in *.
  pose proof (Forall_lookup_1 _ _ _ _ Hall Hi) as [Hreg Hdb].
  pose proof (inCommit_insert threads i th th' Hi) as Hins.
  rewrite !inCommit_one in Hins.
  destruct Hth as [heap th l0 l' Hphase Hl0 Hacq | heap th l0 l' Hphase Hl0 Hroot Hwait
                   | heap th l0 l' Hphase Hl0 Hacq | heap th l0 l' Hphase Hl0 Hacq];
    rewrite Hreg in Hl0 |- *;
    [rewrite Hdb in Hacq |- * | rewrite Hdb in Hwait |- *
     | rewrite Hdb in Hacq |- * | rewrite Hdb in Hacq |- *];
    assert (l0 = l) as -> by congruence;
    simpl in Hins; rewrite Hphase in Hins;
    (exists l'; split; [apply list_lookup_insert_eq; by eapply lookup_lt_Some|];
     split; [apply Forall_insert; [done | simpl; split; congruence]|]); simpl.
  - (* Lock: the mutex was free and is now held *)
    destruct (TxnLock_Lock_inv _ _ _ Hacq) as (_ & Hfree & _ & Hheld).
    rewrite Hfree in Hcount. rewrite Hheld.
    rewrite Hreg, Hdb in Hins. case_decide; [done|]. lia.
  - (* a Lock starts to wait: the mutex is held by another thread *)
    destruct (TxnLock_Lock_wait_inv _ _ _ Hroot Hwait) as [-> Hheld].
    rewrite Hheld in Hcount. unfold held in *. simpl. rewrite Hheld.
    rewrite Hreg, Hdb in Hins. case_decide; [done|]. lia.
  - (* a Lock that waited takes the mutex *)
    destruct (TxnLock_Lock_wake_inv _ _ _ Hacq) as (Hfree & _ & Hheld).
    rewrite Hfree in Hcount. rewrite Hheld.
    rewrite Hreg, Hdb in Hins. case_decide; [done|]. lia.
  - (* Unlock: the mutex was held by this thread and is now free *)
    destruct (TxnLock_Unlock_inv _ _ _ Hacq) as (_ & Hwas & _ & Hfree).
    rewrite Hwas in Hcount. rewrite Hfree.
    rewrite Hreg, Hdb in Hins. case_decide; [|done]. lia.
Qed.

(** X26: with one registry shared by every transaction, as the lock is
    meant to be used, no two commits on a database overlap, whatever steps
    of Lock and Unlock the transactions take. *)
Lemma shared_registry_excludes heap registry dbname (requests : list Transact) st :
  heap !! registry = Some NewTxnLock →
  Forall (λ request, t_DBName request = dbname) requests →
  rtc system_step (heap, sharedTransaction_lock registry <$> requests) st →
  ¬ overlap st.2.
Proof.
  intros Hreg Hdb Hsteps.
  assert (sharedInv registry dbname st) as (l & _ & _ & Hcount).
  { eapply (rtc_ind_r (λ st, sharedInv registry dbname st)); [|by eauto using sharedInv_step|done].
    exists NewTxnLock. split; [done|]. split.
    - apply Forall_fmap. eapply Forall_impl; [done|]. by intros request <-.
    - simpl. unfold held. simpl. rewrite lookup_empty. simpl.
      unfold inCommit. clear. induction requests as [|r rs IH]; [done|].
      rewrite fmap_cons, filter_cons_False; done. }
  intros Hov%overlap_inCommit. destruct (held l dbname); lia.
Qed.

(** ** The engine on the scenarios of the tests *)

(** An abort fails the batch with [aborted], and nothing is submitted. *)
Example scenario_abort :
  ∃ w txn, scenario [Example.noOperation OP_ABORT] = Some (w, txn, -1, Some E_ABORTED) ∧
           tr_Error (response txn) = Some E_ABORTED ∧ Example.submitted w = [].
Proof. eexists _, _. split; [vm_compute; reflexivity|]. split; reflexivity. Qed.

(** An insert and an update of the inserted row in one batch: the batch
    that is submitted holds one put, with the updated row, and the one event
    the engine keeps for the key still carries the inserted row. *)
Example scenario_insert_then_update :
  let key := "ovsdb/nb/simple/table1/00000000-0000-0000-0000-000000000000" in
  let inserted := "{_uuid:00000000-0000-0000-0000-000000000000,key1:val1}" in
  let updated := "{_uuid:00000000-0000-0000-0000-000000000000,key1:val2}" in
  ∃ w txn, scenario [Example.onTable1 OP_INSERT {[ "key1" := VString "val1" ]};
                     Example.onTable1 OP_UPDATE {[ "key1" := VString "val2" ]}]
           = Some (w, txn, 1, None) ∧
           Example.submitted w = [[OpGet_WithPrefix "ovsdb/nb/simple/table1/"];
                                  [OpPut key updated]] ∧
           Events (etcd txn) = [Some (mkEvent PUT (Some (mkKeyValue key inserted 1 1)) None)].
Proof. eexists _, _. split; [vm_compute; reflexivity|]. split; reflexivity. Qed.

(** ** More on the compaction of the write stream *)

Lemma keepLastWrite_sublist ops : sublist (keepLastWrite ops) ops.
Proof.
  induction ops as [|op ops IH]; [done|].
  cbn [keepLastWrite]. case_bool_decide; [by apply sublist_cons | by apply sublist_skip].
Qed.

Lemma keepLastWrite_id ops : NoDup (etcdOpKey <$> ops) → keepLastWrite ops = ops.
Proof.
  induction ops as [|op ops IH]; [done|].
  rewrite fmap_cons, NoDup_cons. intros [Hnotin Hnodup].
  cbn [keepLastWrite]. rewrite bool_decide_eq_false_2 by done. by rewrite IH.
Qed.

(** X2: the write stream that etcdRemoveDupThen leaves is a subsequence of
    the stream it was given (no write is moved or changed, the rest of the
    buffer is as it was), a stream whose keys are all different is left as
    it is, and compacting twice is compacting once. *)
Theorem etcdRemoveDupThen_idempotent etcd :
  ∃ etcd', etcdRemoveDupThen etcd = Some etcd' ∧
    sublist (Then etcd') (Then etcd) ∧
    Events etcd' = Events etcd ∧ EventsNilCount etcd' = EventsNilCount etcd ∧
    (NoDup (etcdOpKey <$> Then etcd) → Then etcd' = Then etcd) ∧
    etcdRemoveDupThen etcd' = Some etcd'.
Proof.
  exists (set_Then (keepLastWrite (Then etcd)) etcd).
  split; [apply etcdRemoveDupThen_keepLastWrite|].
  split; [apply keepLastWrite_sublist|].
  split; [done|]. split; [done|].
  split; [apply keepLastWrite_id|].
  rewrite etcdRemoveDupThen_keepLastWrite. simpl.
  rewrite keepLastWrite_id by apply keepLastWrite_NoDup.
  by destruct etcd.
Qed.

(** ** More on the compaction of the event stream *)

Lemma wfEvents_cons curr events : wfEvents (curr :: events) → wfEvents events.
Proof. intros Hwf ev ?. apply Hwf. by right. Qed.

Lemma wfEvents_Forall events :
  Forall (λ curr, match curr with Some ev => wfEvent ev | None => True end) events →
  wfEvents events.
Proof. intros Hall ev Hin. by apply (proj1 (Forall_forall _ _) Hall (Some ev)). Qed.

Lemma keepFirstEvent_subset seen events curr :
  curr ∈ keepFirstEvent seen events → curr ∈ events ∧ curr ≠ None.
Proof.
  revert seen. induction events as [|[ev|] events IH]; intros seen; cbn [keepFirstEvent].
  - by intros ?%elem_of_nil.
  - destruct (etcdEventKey ev) as [k|].
    + case_bool_decide.
      * intros [??]%IH. split; [by right | done].
      * intros [->|[??]%IH]%elem_of_cons; (split; [|done]); [by left | by right].
    + intros [??]%IH. split; [by right | done].
  - intros [??]%IH. split; [by right | done].
Qed.

Lemma keepFirstEvent_keys seen events k :
  wfEvents events →
  k ∈ eventKeys (keepFirstEvent seen events) ↔ k ∈ eventKeys events ∧ k ∉ seen.
Proof.
  revert seen. induction events as [|[ev|] events IH]; intros seen Hwf.
  - simpl. split; [by intros ?%elem_of_nil | by intros [?%elem_of_nil _]].
  - destruct (Hwf ev) as [[k' Hk'] _]; [left|].
    apply wfEvents_cons in Hwf.
    rewrite (eventKeys_cons_Some ev k') by done.
    cbn [keepFirstEvent]. rewrite Hk'. case_bool_decide as Hseen.
    + rewrite IH, elem_of_cons by done. split; [tauto|].
      intros [[->|?] ?]; done.
    + rewrite (eventKeys_cons_Some ev k'), !elem_of_cons, IH by done.
      rewrite elem_of_cons. split.
      * intros [->|[? ?]]; [by auto|]. split; [by right | tauto].
      * intros [[->|?] ?]; [by left|]. destruct (decide (k = k')); [by left|]. right. tauto.
  - rewrite eventKeys_cons_None. cbn [keepFirstEvent]. apply IH. by eapply wfEvents_cons.
Qed.

Lemma keepFirstEvent_NoDup seen events :
  wfEvents events → NoDup (eventKeys (keepFirstEvent seen events)).
Proof.
  revert seen. induction events as [|[ev|] events IH]; intros seen Hwf.
  - constructor.
  - destruct (Hwf ev) as [[k' Hk'] _]; [left|].
    apply wfEvents_cons in Hwf.
    cbn [keepFirstEvent]. rewrite Hk'. case_bool_decide as Hseen; [by apply IH|].
    rewrite (eventKeys_cons_Some ev k') by done. constructor; [|by apply IH].
    rewrite keepFirstEvent_keys by done. intros [_ Hnot]. apply Hnot. by left.
  - cbn [keepFirstEvent]. apply IH. by eapply wfEvents_cons.
Qed.

Lemma keepFirstEvent_first seen events l1 ev l2 k :
  wfEvents events → events = l1 ++ Some ev :: l2 → etcdEventKey ev = Some k →
  k ∉ eventKeys l1 → k ∉ seen → Some ev ∈ keepFirstEvent seen events.
Proof.
  revert seen events. induction l1 as [|[ev1|] l1 IH]; intros seen events Hwf -> Hk Hl1 Hseen.
  - cbn [app keepFirstEvent]. rewrite Hk, bool_decide_eq_false_2 by done. by left.
  - destruct (Hwf ev1) as [[k1 Hk1] _]; [left|].
    rewrite (eventKeys_cons_Some ev1 k1) in Hl1 by done.
    apply not_elem_of_cons in Hl1 as [Hne Hl1].
    cbn [app keepFirstEvent]. rewrite Hk1. apply wfEvents_cons in Hwf.
    case_bool_decide.
    + by eapply IH.
    + right. eapply IH; [done..|]. by apply not_elem_of_cons.
  - cbn [app keepFirstEvent]. apply wfEvents_cons in Hwf. by eapply IH.
Qed.

Lemma keepFirstEvent_id seen events :
  keepFirstEvent seen (keepFirstEvent seen events) = keepFirstEvent seen events.
Proof.
  revert seen. induction events as [|[ev|] events IH]; intros seen; cbn [keepFirstEvent]; [done|..].
  - destruct (etcdEventKey ev) as [k|] eqn:Hk; [|by apply IH].
    case_bool_decide as Hseen; [by apply IH|].
    cbn [keepFirstEvent]. rewrite Hk, bool_decide_eq_false_2 by done. by rewrite IH.
  - apply IH.
Qed.

Lemma countNil_no_nil events : None ∉ events → countNil events = 0.
Proof.
  induction events as [|[ev|] events IH]; [done|..].
  - rewrite not_elem_of_cons, countNil_cons_Some. intros [_ ?]. by apply IH.
  - rewrite not_elem_of_cons. by intros [? _].
Qed.

Lemma keepFirstEvent_countNil seen events : countNil (keepFirstEvent seen events) = 0.
Proof. apply countNil_no_nil. by intros [_ ?]%keepFirstEvent_subset. Qed.

Lemma keepFirstEvent_wf seen events : wfEvents events → wfEvents (keepFirstEvent seen events).
Proof. intros Hwf ev [? _]%keepFirstEvent_subset. by apply Hwf. Qed.

(** X3: on the events that the engine builds, etcdRemoveDupEvents returns
    and leaves the writes as they were; the stream it leaves has no nil
    placeholder, no two events of one key, an event for every key that had
    one, and for every key the first of its events; the counter of nil
    events grows by the number of placeholders that were dropped. *)
Theorem etcdRemoveDupEvents_dedup etcd :
  wfEvents (Events etcd) →
  ∃ etcd', etcdRemoveDupEvents etcd = Some etcd' ∧
    Then etcd' = Then etcd ∧
    (None ∉ Events etcd') ∧
    NoDup (eventKeys (Events etcd')) ∧
    (∀ k, k ∈ eventKeys (Events etcd') ↔ k ∈ eventKeys (Events etcd)) ∧
    (∀ l1 ev l2 k, Events etcd = l1 ++ Some ev :: l2 → etcdEventKey ev = Some k →
                   k ∉ eventKeys l1 → Some ev ∈ Events etcd') ∧
    EventsNilCount etcd' = EventsNilCount etcd + countNil (Events etcd).
Proof.
  intros Hwf. eexists. split; [by apply etcdRemoveDupEvents_keepFirstEvent|]. simpl.
  split; [done|].
  split; [by intros [_ ?]%keepFirstEvent_subset|].
  split; [by apply keepFirstEvent_NoDup|].
  split.
  - intros k. rewrite keepFirstEvent_keys by done. split; [tauto|].
    intros ?. split; [done | by intros ?%elem_of_nil].
  - split; [|done]. intros l1 ev l2 k Hev Hk Hl1.
    eapply keepFirstEvent_first; [done..|]. by intros ?%elem_of_nil.
Qed.

(** The events of an insert, a comment, an update and a delete of one row:
    the stream that is left holds the create event alone. *)
Lemma etcdRemoveDupEvents_dedup_witness :
  let events := [Some (etcdEventCreate "k" "v1"); None; Some (etcdEventModify "k" "v2" "v1");
                 Some (etcdEventDelete "k" "v2")] in
  ∃ etcd', etcdRemoveDupEvents (mkEtcd [] [] [] None 0 events) = Some etcd' ∧
           Events etcd' = [Some (etcdEventCreate "k" "v1")] ∧ EventsNilCount etcd' = 1.
Proof.
  intros events.
  assert (wfEvents events) as Hwf.
  { apply wfEvents_Forall. unfold events.
    repeat first [apply Forall_nil_2 | apply Forall_cons_2]; try done;
      (split; [by eexists | first [by eexists | by intros [=]]]). }
  destruct (etcdRemoveDupEvents_dedup (mkEtcd [] [] [] None 0 events) Hwf)
    as (etcd' & Hrun & _).
  exists etcd'. split; [done|]. vm_compute in Hrun. by injection Hrun as <-.
Defined.

(** ** Compaction panics *)

Lemma etcdRemoveDupEvents_copy_malformed events st ev :
  Some ev ∈ events → etcdEventKey ev = None → etcdRemoveDupEvents_copy events st = None.
Proof.
  intros Hin Hk. revert st.
  induction events as [|curr events IH]; intros [[prevEvents newEvents] nilCount];
    [by apply elem_of_nil in Hin|].
  cbn [etcdRemoveDupEvents_copy]. apply elem_of_cons in Hin as [<-|Hin].
  - by rewrite Hk.
  - destruct curr as [ev'|]; [|by apply IH].
    destruct (etcdEventKey ev'); [|done]. cbn [mbind option_bind]. by apply IH.
Qed.

(** An event that carries neither Kv nor PrevKv has no key:
    etcdRemoveDupEvents panics on a stream that holds one, wherever it is,
    and so does etcdRemoveDup. *)
Theorem etcdRemoveDupEvents_malformed etcd ev :
  Some ev ∈ Events etcd → ev_Kv ev = None → ev_PrevKv ev = None →
  etcdRemoveDupEvents etcd = None ∧ etcdRemoveDup etcd = None.
Proof.
  intros Hin HKv HPrevKv.
  assert (etcdEventKey ev = None) as Hk by (unfold etcdEventKey; by rewrite HKv, HPrevKv).
  split.
  - unfold etcdRemoveDupEvents. by erewrite etcdRemoveDupEvents_copy_malformed.
  - unfold etcdRemoveDup. rewrite etcdRemoveDupThen_keepLastWrite. cbn [mbind option_bind].
    unfold etcdRemoveDupEvents. by erewrite etcdRemoveDupEvents_copy_malformed.
Qed.

(** A delete event that lost its PrevKv, behind a well-formed create
    event. *)
Lemma etcdRemoveDupEvents_malformed_witness :
  let etcd := mkEtcd [] [OpPut "k" "v"; OpDelete "k"] [] None 0
                     [Some (etcdEventCreate "k" "v"); Some (mkEvent DELETE None None)] in
  etcdRemoveDupEvents etcd = None ∧ etcdRemoveDup etcd = None.
Proof.
  intros etcd. apply (etcdRemoveDupEvents_malformed etcd (mkEvent DELETE None None)).
  - right. left.
  - reflexivity.
  - reflexivity.
Defined.

(** ** When compaction returns *)

Lemma size_list_to_set_le (l : list string) : (size (list_to_set l : gset string) ≤ length l)%nat.
Proof.
  induction l as [|x l IH]; [done|].
  rewrite list_to_set_cons, size_union_alt, size_singleton. simpl.
  assert (size (list_to_set l ∖ {[x]} : gset string) ≤ size (list_to_set l : gset string))%nat
    by (apply subseteq_size; set_solver).
  lia.
Qed.

Lemma size_list_to_set_NoDup (l : list string) :
  size (list_to_set l : gset string) = length l → NoDup l.
Proof.
  induction l as [|x l IH]; [constructor|].
  rewrite list_to_set_cons, size_union_alt, size_singleton. simpl. intros Hsize.
  pose proof (size_list_to_set_le l).
  assert (size (list_to_set l ∖ {[x]} : gset string) ≤ size (list_to_set l : gset string))%nat
    as Hle by (apply subseteq_size; set_solver).
  constructor; [|apply IH; lia].
  intros Hin.
  assert (list_to_set l ∖ {[x]} =@{gset string} list_to_set l) as Heq.
  { apply set_subseteq_size_eq; [set_solver | lia]. }
  assert (x ∈ (list_to_set l : gset string)) as Hx by by apply elem_of_list_to_set.
  rewrite <- Heq in Hx. set_solver.
Qed.

(** X4: on a buffer whose writes and events are aligned, etcdRemoveDup
    returns exactly when the keys of the comments differ from each other
    and from the keys of the rows; otherwise its Assert panics: the writes
    to one key count once, the nil events of the comments count each. *)
Theorem etcdRemoveDup_aligned_returns etcd :
  aligned etcd →
  is_Some (etcdRemoveDup etcd) ↔
  NoDup (commentKeys (Then etcd) (Events etcd)) ∧
  ∀ k, k ∈ commentKeys (Then etcd) (Events etcd) → k ∉ eventKeys (Events etcd).
Proof.
  intros Ha. split.
  - destruct Ha as [Hcount Hall].
    destruct (aligned_keys _ _ Hall) as (Hwf & Hkeys & Hnil).
    intros [etcd' Hrun]. unfold etcdRemoveDup in Hrun.
    rewrite etcdRemoveDupThen_keepLastWrite in Hrun. cbn [mbind option_bind] in Hrun.
    rewrite etcdRemoveDupEvents_keepFirstEvent in Hrun by done.
    cbn [mbind option_bind] in Hrun.
    destruct (Etcd_Assert _) as [u|] eqn:Hassert; [|done].
    apply Etcd_Assert_Some in Hassert. unfold pairing, len in Hassert. simpl in Hassert.
    rewrite keepLastWrite_size, keepFirstEvent_size, Hkeys, Hcount, Hnil in Hassert by done.
    rewrite list_to_set_nil, difference_empty_L in Hassert.
    set (E := list_to_set (eventKeys (Events etcd)) : gset string) in *.
    set (cs := commentKeys (Then etcd) (Events etcd)) in *.
    rewrite (size_union_alt E (list_to_set cs)) in Hassert. unfold len in Hassert.
    pose proof (size_list_to_set_le cs) as Hle1.
    assert (size (list_to_set cs ∖ E) ≤ size (list_to_set cs : gset string))%nat as Hle2
      by (apply subseteq_size; set_solver).
    split.
    + apply size_list_to_set_NoDup. lia.
    + intros k Hk HE.
      assert (list_to_set cs ∖ E =@{gset string} list_to_set cs) as Heq.
      { apply set_subseteq_size_eq; [set_solver | lia]. }
      assert (k ∈ (list_to_set cs : gset string)) as Hkc by by apply elem_of_list_to_set.
      rewrite <- Heq in Hkc. apply elem_of_difference in Hkc as [_ Hnot]. apply Hnot.
      unfold E. by apply elem_of_list_to_set.
  - intros [Hnodup Hdisj].
    destruct (etcdRemoveDup_aligned etcd Ha Hnodup Hdisj) as (etcd' & Hrun & _). by exists etcd'.
Qed.

(** The buffer of two comments that got one key: it is aligned, and
    compaction does not return. *)
Lemma etcdRemoveDup_aligned_returns_witness :
  let etcd := mkEtcd [] [OpPut "c" "first"; OpPut "c" "second"] [] None 0 [None; None] in
  aligned etcd ∧ etcdRemoveDup etcd = None.
Proof.
  intros etcd.
  assert (aligned etcd) as Ha by (split; [done | by repeat constructor]).
  split; [done|].
  pose proof (etcdRemoveDup_aligned_returns etcd Ha) as Hiff.
  destruct (etcdRemoveDup etcd) eqn:Hrun; [|done].
  destruct (proj1 Hiff) as [Hnodup _]; [by eexists|].
  apply NoDup_cons in Hnodup as [Hnotin _]. exfalso. apply Hnotin. left.
Defined.

(** X5: on the events that the engine builds, the buffer that etcdRemoveDup
    returns is compacted: etcdRemoveDup returns it unchanged. *)
Theorem etcdRemoveDup_idempotent etcd etcd' :
  wfEvents (Events etcd) → etcdRemoveDup etcd = Some etcd' → etcdRemoveDup etcd' = Some etcd'.
Proof.
  intros Hwf Hrun. unfold etcdRemoveDup in Hrun.
  rewrite etcdRemoveDupThen_keepLastWrite in Hrun. cbn [mbind option_bind] in Hrun.
  rewrite etcdRemoveDupEvents_keepFirstEvent in Hrun by done.
  cbn [mbind option_bind] in Hrun.
  destruct (Etcd_Assert _) as [u|] eqn:Hassert; [|done].
  cbn [mbind option_bind] in Hrun. injection Hrun as <-.
  unfold etcdRemoveDup.
  rewrite etcdRemoveDupThen_keepLastWrite. cbn [mbind option_bind].
  rewrite etcdRemoveDupEvents_keepFirstEvent by (simpl; by apply keepFirstEvent_wf).
  cbn [mbind option_bind]. simpl.
  rewrite keepLastWrite_id by apply keepLastWrite_NoDup.
  rewrite keepFirstEvent_id, keepFirstEvent_countNil, Z.add_0_r.
  unfold set_Events, set_EventsNilCount, set_Then in *. simpl in *.
  by rewrite Hassert.
Qed.

(** Two writes to a row and a comment: compaction leaves one write of the
    row, the comment and one event, and leaves that buffer as it is when it
    runs again. *)
Lemma etcdRemoveDup_idempotent_witness :
  let etcd := mkEtcd [] [OpPut "k" "v1"; OpPut "c" "note"; OpPut "k" "v2"] [] None 0
                     [Some (etcdEventCreate "k" "v1"); None;
                      Some (etcdEventModify "k" "v2" "v1")] in
  let etcd' := mkEtcd [] [OpPut "c" "note"; OpPut "k" "v2"] [] None 1
                      [Some (etcdEventCreate "k" "v1")] in
  etcdRemoveDup etcd = Some etcd' ∧ etcdRemoveDup etcd' = Some etcd'.
Proof.
  intros etcd etcd'. split; [reflexivity|].
  apply (etcdRemoveDup_idempotent etcd etcd'); [|reflexivity].
  apply wfEvents_Forall.
  repeat first [apply Forall_nil_2 | apply Forall_cons_2]; try done;
    (split; [by eexists | first [by eexists | by intros [=]]]).
Defined.

(** ** Etcd.Split *)

Lemma Etcd_Split_loop etcd ops split child :
  len (Then child) < ETCD_MAX_TXN_OPS →
  Forall (λ c, len (Then c) = ETCD_MAX_TXN_OPS) split →
  Forall (λ c, Events c = [] ∧ EventsNilCount c = 0) (split ++ [child]) →
  ∃ split' child',
    foldl (Etcd_Split_body etcd) (split, child) ops = (split', child') ∧
    len (Then child') < ETCD_MAX_TXN_OPS ∧
    Forall (λ c, len (Then c) = ETCD_MAX_TXN_OPS) split' ∧
    Forall (λ c, Events c = [] ∧ EventsNilCount c = 0) (split' ++ [child']) ∧
    concat (Then <$> split') ++ Then child' = concat (Then <$> split) ++ Then child ++ ops.
Proof.
  revert split child. induction ops as [|op ops IH]; intros split child Hlt Hfull Hev.
  - exists split, child. by rewrite app_nil_r.
  - cbn [foldl]. unfold Etcd_Split_body at 2.
    apply Forall_app in Hev as [Hev1 [Hev2 _]%Forall_cons].
    case_bool_decide as Hlen; simpl in Hlen.
    + destruct (IH (split ++ [set_Then (Then child ++ [op]) child]) (NewEtcd etcd))
        as (split' & child' & -> & ? & ? & ? & Hcat).
      * done.
      * apply Forall_app. split; [done|]. by apply Forall_singleton.
      * rewrite !Forall_app, !Forall_singleton. done.
      * exists split', child'. repeat split; [done..|].
        rewrite Hcat, fmap_app, concat_app. simpl. by rewrite !app_nil_r, <- !app_assoc.
    + destruct (IH split (set_Then (Then child ++ [op]) child))
        as (split' & child' & -> & ? & ? & ? & Hcat).
      * simpl. rewrite len_app in *. unfold len, ETCD_MAX_TXN_OPS in *. simpl in *. lia.
      * done.
      * apply Forall_app. split; [done|]. by apply Forall_singleton.
      * exists split', child'. repeat split; [done..|].
        rewrite Hcat. simpl. by rewrite <- !app_assoc.
Qed.

(** X6: Etcd.Split loses no write and keeps their order; every child but
    the last holds ETCD_MAX_TXN_OPS writes and the last one fewer, so a
    buffer whose number of writes is a multiple of ETCD_MAX_TXN_OPS (the
    empty buffer too) gets a last child without a write; no child holds an
    event. *)
Theorem Etcd_Split_chunks etcd :
  ∃ full last,
    Etcd_Split etcd = full ++ [last] ∧
    concat (Then <$> Etcd_Split etcd) = Then etcd ∧
    Forall (λ c, len (Then c) = ETCD_MAX_TXN_OPS) full ∧
    len (Then last) = len (Then etcd) `mod` ETCD_MAX_TXN_OPS ∧
    len full = len (Then etcd) `div` ETCD_MAX_TXN_OPS ∧
    Forall (λ c, Events c = [] ∧ EventsNilCount c = 0) (Etcd_Split etcd).
Proof.
  destruct (Etcd_Split_loop etcd (Then etcd) [] (NewEtcd etcd))
    as (full & last & Hrun & Hlt & Hfull & Hev & Hcat); [done | done | by apply Forall_singleton |].
  exists full, last. unfold Etcd_Split. rewrite Hrun. simpl in Hcat.
  assert (len (Then etcd) = ETCD_MAX_TXN_OPS * len full + len (Then last)) as Hlen.
  { rewrite <- Hcat, len_app. f_equal. clear -Hfull.
    induction Hfull as [|c full Hc _ IH]; [done|].
    rewrite fmap_cons. cbn [concat]. rewrite len_app, IH, Hc. unfold len. simpl length. lia. }
  assert (0 ≤ len (Then last)) by (unfold len; lia).
  split; [done|]. split.
  - rewrite fmap_app, concat_app. simpl. by rewrite app_nil_r.
  - split; [done|]. unfold ETCD_MAX_TXN_OPS in *. split; [|split; [|done]].
    + rewrite Hlen. rewrite Z.add_comm, Z.mul_comm, Z_mod_plus_full. by rewrite Z.mod_small by lia.
    + rewrite Hlen. rewrite Z.add_comm, Z.mul_comm, Z_div_plus_full by lia.
      rewrite Z.div_small by lia. lia.
Qed.

(** ** Mutations of sets *)

Lemma SFeqb_sym f1 f2 : SFeqb f1 f2 = true → SFeqb f2 f1 = true.
Proof.
  assert (∀ s m e s' m' e',
            SFeqb (S754_finite s m e) (S754_finite s' m' e') = true →
            s = s' ∧ m = m' ∧ e = e') as Hfin.
  { intros s m e s' m' e'. unfold SFeqb, SFcompare.
    destruct s, s'; try done; destruct (e ?= e') eqn:He; try done;
      apply Z.compare_eq in He; subst;
      destruct (Pos.compare_cont Eq m m') eqn:Hm; try done;
      apply Pos.compare_eq in Hm; by subst. }
  destruct f1 as [s1|s1| |s1 m1 e1], f2 as [s2|s2| |s2 m2 e2]; try done;
    try (by destruct s1, s2).
  intros H. by destruct (Hfin _ _ _ _ _ _ H) as (-> & -> & ->).
Qed.

Lemma deepEqualBase_sym x y : deepEqualBase x y = deepEqualBase y x.
Proof.
  destruct x as [k1|f1], y as [k2|f2]; simpl; try done.
  - apply bool_decide_ext. split; congruence.
  - apply eq_true_iff_eq. rewrite !FloatAxioms.eqb_spec. split; apply SFeqb_sym.
Qed.

Lemma inSet_existsb set a : inSet set a = existsb (deepEqualBase a) set.
Proof. induction set as [|b set IH]; simpl; [done|]. rewrite IH. by destruct (deepEqualBase a b). Qed.

Lemma deleteFromSet_found_existsb current toDeleteSet :
  deleteFromSet_found current toDeleteSet = existsb (deepEqualBase current) toDeleteSet.
Proof.
  induction toDeleteSet as [|v l IH]; simpl; [done|]. rewrite IH.
  by destruct (deepEqualBase current v).
Qed.

Lemma foldl_append_filter {A} (P : A → bool) (l acc : list A) :
  foldl (λ mutated v, if P v then mutated ++ [v] else mutated) acc l
  = acc ++ filter (λ v, P v = true) l.
Proof.
  revert acc. induction l as [|v l IH]; intros acc; simpl; [by rewrite app_nil_r|].
  rewrite IH. destruct (P v) eqn:HP.
  - rewrite filter_cons_True by done. by rewrite <- app_assoc.
  - rewrite filter_cons_False by congruence. done.
Qed.

Lemma filter_all {A} (P : A → Prop) `{∀ x, Decision (P x)} (l : list A) :
  Forall P l → filter P l = l.
Proof.
  induction 1 as [|x l Hx _ IH]; [done|]. by rewrite filter_cons_True, IH.
Qed.

Lemma filter_none {A} (P : A → Prop) `{∀ x, Decision (P x)} (l : list A) :
  Forall (λ x, ¬ P x) l → filter P l = [].
Proof.
  induction 1 as [|x l Hx _ IH]; [done|]. by rewrite filter_cons_False.
Qed.

Lemma insertToSet_filter original toInsert :
  insertToSet original (VSet toInsert)
  = Ret (original ++ filter (λ v, existsb (deepEqualBase v) original = false) toInsert).
Proof.
  unfold insertToSet.
  rewrite (foldl_append_filter (λ v, negb (inSet original v))). do 2 f_equal.
  apply list_filter_iff. intros v. rewrite inSet_existsb. by destruct (existsb _ _).
Qed.

(** X7: insertToSet keeps the original set as it is and appends, in their
    order, the values to insert that are not equal to an element of the
    original set.  The values to insert are not compared with each other: a
    value given twice is appended twice.  A value to insert that is not a
    set is a constraint violation. *)
Theorem insertToSet_appends original toInsert :
  insertToSet original (VSet toInsert)
  = Ret (original ++ filter (λ v, existsb (deepEqualBase v) original = false) toInsert) ∧
  (∀ v, existsb (deepEqualBase v) original = false →
        insertToSet original (VSet [v; v]) = Ret (original ++ [v; v])) ∧
  (∀ v, (∀ s, v ≠ VSet s) → insertToSet original v = Fail E_CONSTRAINT_VIOLATION).
Proof.
  split; [apply insertToSet_filter|]. split.
  - intros v Hv. rewrite insertToSet_filter.
    by rewrite !filter_cons_True, filter_nil by done.
  - intros v Hv. destruct v; try done. by destruct (Hv GoSet).
Qed.

(** deleteFromSet keeps, in their order, the elements of the original set
    that are not equal to a value to delete. *)
Lemma deleteFromSet_filter original toDelete :
  deleteFromSet original (VSet toDelete)
  = Ret (filter (λ c, existsb (deepEqualBase c) toDelete = false) original).
Proof.
  unfold deleteFromSet.
  rewrite (foldl_append_filter (λ c, negb (deleteFromSet_found c toDelete))). simpl. f_equal.
  apply list_filter_iff. intros c. rewrite deleteFromSet_found_existsb.
  by destruct (existsb _ _).
Qed.

(** X8: when none of the values to insert is equal to an element of the
    set and none is a NaN, insertToSet appends them all, and deleteFromSet
    of the same values gives the original set back. *)
Theorem deleteFromSet_insertToSet original toInsert inserted :
  Forall selfEqual toInsert →
  (∀ x y, x ∈ original → y ∈ toInsert → deepEqualBase x y = false) →
  insertToSet original (VSet toInsert) = Ret inserted →
  inserted = original ++ toInsert ∧
  deleteFromSet inserted (VSet toInsert) = Ret original.
Proof.
  intros Hself Hfresh Hins.
  rewrite insertToSet_filter in Hins. injection Hins as <-.
  assert (filter (λ v, existsb (deepEqualBase v) original = false) toInsert = toInsert) as ->.
  { apply filter_all. apply Forall_forall. intros y Hy.
    destruct (existsb (deepEqualBase y) original) eqn:Hex; [|done].
    apply existsb_exists in Hex as (x & Hx%list_elem_of_In & Hxy).
    rewrite deepEqualBase_sym, (Hfresh x y) in Hxy; done. }
  split; [done|].
  rewrite deleteFromSet_filter, filter_app. f_equal.
  rewrite (filter_all _ original), (filter_none _ toInsert), app_nil_r.
  - done.
  - apply Forall_forall. intros y Hy Hex.
    assert (existsb (deepEqualBase y) toInsert = true) as Hin; [|congruence].
    apply existsb_exists. exists y. split; [by apply list_elem_of_In|].
    by apply (proj1 (Forall_forall _ _) Hself).
  - apply Forall_forall. intros x Hx.
    destruct (existsb (deepEqualBase x) toInsert) eqn:Hex; [|done].
    apply existsb_exists in Hex as (y & Hy%list_elem_of_In & Hxy).
    rewrite (Hfresh x y) in Hxy; done.
Qed.

(** Two strings inserted into a set of two other strings, and deleted
    again. *)
Lemma deleteFromSet_insertToSet_witness :
  let original := [BKey (KString "a"); BKey (KString "b")] in
  let toInsert := [BKey (KString "c"); BKey (KString "d")] in
  insertToSet original (VSet toInsert) = Ret (original ++ toInsert) ∧
  deleteFromSet (original ++ toInsert) (VSet toInsert) = Ret original.
Proof.
  intros original toInsert.
  destruct (deleteFromSet_insertToSet original toInsert (original ++ toInsert))
    as (_ & Hdel).
  - repeat first [apply Forall_nil_2 | apply Forall_cons_2]; apply selfEqual_key.
  - intros x y Hx Hy. unfold original, toInsert in *.
    repeat (apply elem_of_cons in Hx as [->|Hx]); try (by apply elem_of_nil in Hx);
      repeat (apply elem_of_cons in Hy as [->|Hy]); try (by apply elem_of_nil in Hy); done.
  - reflexivity.
  - split; [reflexivity | exact Hdel].
Defined.

(** ** Mutations of maps *)

Lemma foldl_insert_union {K A} `{Countable K} (l : list (K * A)) (m : gmap K A) :
  NoDup l.*1 →
  foldl (λ (mutated : gmap K A) kv, <[kv.1 := kv.2]> mutated) m l = list_to_map l ∪ m.
Proof.
  revert m. induction l as [|[k v] l IH]; intros m Hnodup.
  - simpl. by rewrite (left_id_L ∅ (∪)).
  - rewrite fmap_cons in Hnodup. apply NoDup_cons in Hnodup as [Hnotin Hnodup].
    cbn [foldl]. rewrite IH, list_to_map_cons by done. cbn [fst snd].
    rewrite <- insert_union_l. symmetry. apply insert_union_r.
    by apply not_elem_of_list_to_map_1.
Qed.

Lemma insertToMap_union original toInsert :
  insertToMap original (VMap toInsert) = (toInsert ∪ original, Ret (toInsert ∪ original)).
Proof.
  unfold insertToMap. rewrite foldl_insert_union by apply NoDup_fst_map_to_list.
  by rewrite list_to_map_to_list.
Qed.

(** X9: insertToMap binds every key of the map to insert to its value
    there, also a key that the original map already binds to another value;
    the other keys keep their value.  The map it returns is what it leaves in
    the map object of the original map.  A value to insert that is not a map
    is a constraint violation, and the map object is as it was. *)
Theorem insertToMap_overwrites original toInsert :
  insertToMap original (VMap toInsert) = (toInsert ∪ original, Ret (toInsert ∪ original)) ∧
  (∀ k v v', original !! k = Some v → toInsert !! k = Some v' →
     ∃ mutated, insertToMap original (VMap toInsert) = (mutated, Ret mutated) ∧
                mutated !! k = Some v') ∧
  (∀ v, (∀ m, v ≠ VMap m) → insertToMap original v = (original, Fail E_CONSTRAINT_VIOLATION)).
Proof.
  split; [apply insertToMap_union|]. split.
  - intros k v v' _ Hk. exists (toInsert ∪ original).
    split; [apply insertToMap_union | by apply lookup_union_Some_l].
  - intros v Hv. destruct v; try done. by destruct (Hv GoMap).
Qed.

(** The loop of deleteFromMap over the entries of a map to delete. *)
Lemma deleteFromMap_loop (l : list (MapKey * Base)) (m : gmap MapKey Base) k :
  NoDup l.*1 →
  foldl (λ (mutated : gmap MapKey Base) kv,
           match mutated !! kv.1 with
           | Some v => if deepEqualBase v kv.2 then delete kv.1 mutated else mutated
           | None => mutated
           end) m l !! k
  = match m !! k, (list_to_map l : gmap MapKey Base) !! k with
    | Some v, Some v' => if deepEqualBase v v' then None else Some v
    | o, _ => o
    end.
Proof.
  revert m. induction l as [|[k' v'] l IH]; intros m Hnodup.
  - simpl. rewrite lookup_empty. by destruct (m !! k).
  - rewrite fmap_cons in Hnodup. apply NoDup_cons in Hnodup as [Hnotin Hnodup].
    cbn [foldl]. rewrite IH, list_to_map_cons by done. cbn [fst snd] in *.
    apply not_elem_of_list_to_map_1 in Hnotin.
    destruct (decide (k = k')) as [->|Hne].
    + rewrite lookup_insert_eq, Hnotin.
      destruct (m !! k') as [v|] eqn:Hm.
      * destruct (deepEqualBase v v').
        -- by rewrite lookup_delete_eq.
        -- by rewrite Hm.
      * by rewrite Hm.
    + rewrite lookup_insert_ne by done.
      destruct (m !! k') as [v|]; [|done].
      destruct (deepEqualBase v v'); [|done]. by rewrite lookup_delete_ne.
Qed.

Lemma deleteFromMap_keys_None (l : list Base) (m : gmap MapKey Base) k :
  m !! k = None → foldl deleteKey m l !! k = None.
Proof.
  revert m. induction l as [|b l IH]; intros m Hm; [done|].
  cbn [foldl]. apply IH. destruct b as [k'|f]; [|done]. simpl.
  by rewrite lookup_delete_None; right.
Qed.

Lemma deleteFromMap_keys (l : list Base) (m : gmap MapKey Base) k :
  (BKey k ∈ l → foldl deleteKey m l !! k = None) ∧
  (BKey k ∉ l → foldl deleteKey m l !! k = m !! k).
Proof.
  revert m. induction l as [|b l IH]; intros m.
  - split; [by intros ?%elem_of_nil | done].
  - cbn [foldl]. destruct (IH (deleteKey m b)) as [IH1 IH2]. split.
    + intros [<-|Hin]%elem_of_cons; [|by apply IH1].
      apply deleteFromMap_keys_None. simpl. apply lookup_delete_eq.
    + intros [Hne Hnotin]%not_elem_of_cons. rewrite IH2 by done.
      destruct b as [k'|f]; [|done]. simpl. apply lookup_delete_ne. congruence.
Qed.

(** X10: deleteFromMap with a map removes a key when the value it is bound
    to is equal to the value given for it, and keeps it otherwise; with a set
    it removes the keys of the set; the other keys keep their value.  A
    value to delete of any other type leaves the map as it is, without
    error.  The map it returns is what it leaves in the map object of the
    original map. *)
Theorem deleteFromMap_lookup original :
  (∀ toDelete, ∃ mutated,
     deleteFromMap original (VMap toDelete) = (mutated, Ret mutated) ∧
     ∀ k, mutated !! k
          = match original !! k, toDelete !! k with
            | Some v, Some v' => if deepEqualBase v v' then None else Some v
            | o, _ => o
            end) ∧
  (∀ toDelete, ∃ mutated,
     deleteFromMap original (VSet toDelete) = (mutated, Ret mutated) ∧
     ∀ k, (BKey k ∈ toDelete → mutated !! k = None) ∧
          (BKey k ∉ toDelete → mutated !! k = original !! k)) ∧
  (∀ toDelete, (∀ m, toDelete ≠ VMap m) → (∀ s, toDelete ≠ VSet s) →
     deleteFromMap original toDelete = (original, Ret original)).
Proof.
  split; [|split].
  - intros toDelete. eexists. split; [reflexivity|]. intros k.
    rewrite deleteFromMap_loop by apply NoDup_fst_map_to_list.
    by rewrite list_to_map_to_list.
  - intros toDelete. eexists. split; [reflexivity|]. intros k. apply deleteFromMap_keys.
  - intros toDelete Hm Hs. destruct toDelete; try done.
    + by destruct (Hs GoSet).
    + by destruct (Hm GoMap).
Qed.

(** X11: when no key of the map to insert is bound in the original map and
    no value to insert is a NaN, deleteFromMap of the inserted map, or of
    the set of its keys, takes what insertToMap returns back to the original
    map. *)
Theorem deleteFromMap_insertToMap original toInsert GoMap inserted :
  toInsert ##ₘ original →
  map_Forall (λ _ v, selfEqual v) toInsert →
  insertToMap original (VMap toInsert) = (GoMap, Ret inserted) →
  deleteFromMap inserted (VMap toInsert) = (original, Ret original) ∧
  deleteFromMap inserted (VSet ((λ kv, BKey kv.1) <$> map_to_list toInsert))
  = (original, Ret original).
Proof.
  intros Hdisj Hself Hins.
  rewrite insertToMap_union in Hins. injection Hins as <- <-.
  assert (∀ m : gmap MapKey Base, m = original → (m, Ret m) = (original, Ret original)) as Hpair
    by (by intros m ->).
  split.
  - cbn [deleteFromMap]. apply Hpair. apply map_eq. intros k.
    rewrite deleteFromMap_loop by apply NoDup_fst_map_to_list.
    rewrite list_to_map_to_list. destruct (toInsert !! k) as [v|] eqn:Hk.
    + rewrite (lookup_union_Some_l _ _ _ _ Hk).
      rewrite (Hself k v Hk). symmetry. by eapply map_disjoint_Some_l.
    + rewrite lookup_union_r by done. by destruct (original !! k).
  - cbn [deleteFromMap]. apply Hpair. apply map_eq. intros k.
    destruct (deleteFromMap_keys ((λ kv, BKey kv.1) <$> map_to_list toInsert)
                (toInsert ∪ original) k) as [Hin Hnotin].
    destruct (toInsert !! k) as [v|] eqn:Hk.
    + rewrite Hin.
      * symmetry. by eapply map_disjoint_Some_l.
      * apply list_elem_of_fmap. exists (k, v). split; [done|]. by apply elem_of_map_to_list.
    + rewrite Hnotin.
      * by apply lookup_union_r.
      * intros ([k' v'] & [= ->] & Hkv%elem_of_map_to_list)%list_elem_of_fmap. congruence.
Qed.

(** Two options inserted into a map that holds a third one, and deleted
    again. *)
Lemma deleteFromMap_insertToMap_witness :
  let original : gmap MapKey Base := {[ KString "mtu" := BKey (KInt 1500) ]} in
  let toInsert : gmap MapKey Base :=
    {[ KString "name" := BKey (KString "eth0"); KString "up" := BKey (KBool true) ]} in
  deleteFromMap (toInsert ∪ original) (VMap toInsert) = (original, Ret original).
Proof.
  intros original toInsert.
  assert (toInsert ##ₘ original) as Hdisj.
  { apply map_disjoint_spec. intros k v v' Hk Hk'.
    apply lookup_singleton_Some in Hk' as [<- _].
    apply lookup_insert_Some in Hk as [[[=] _]|[_ Hk]].
    by apply lookup_singleton_Some in Hk as [[=] _]. }
  assert (map_Forall (λ _ v, selfEqual v) toInsert) as Hself.
  { intros k v Hk.
    apply lookup_insert_Some in Hk as [[_ <-]|[_ [_ <-]%lookup_singleton_Some]];
      apply selfEqual_key. }
  destruct (deleteFromMap_insertToMap original toInsert (toInsert ∪ original)
              (toInsert ∪ original) Hdisj Hself)
    as [Hdel _]; [|exact Hdel].
  apply insertToMap_union.
Defined.

(** ** Arithmetic mutations *)

Lemma wrap64_range z : - 2 ^ 63 ≤ wrap64 z < 2 ^ 63.
Proof. unfold wrap64. pose proof (Z.mod_pos_bound (z + 2 ^ 63) (2 ^ 64)). lia. Qed.

Lemma wrap64_small z : - 2 ^ 63 ≤ z < 2 ^ 63 → wrap64 z = z.
Proof. intros Hz. unfold wrap64. rewrite Z.mod_small by lia. lia. Qed.

Lemma wrap64_sum_difference a b : - 2 ^ 63 ≤ a < 2 ^ 63 → wrap64 (wrap64 (a + b) - b) = a.
Proof.
  intros Ha. unfold wrap64.
  replace ((a + b + 2 ^ 63) `mod` 2 ^ 64 - 2 ^ 63 - b + 2 ^ 63)
    with ((a + b + 2 ^ 63) `mod` 2 ^ 64 - b) by lia.
  rewrite Zminus_mod_idemp_l.
  replace (a + b + 2 ^ 63 - b) with (a + 2 ^ 63) by lia.
  rewrite Z.mod_small by lia. lia.
Qed.

Lemma rowGet_Some row column v : rowGet row column = v → v ≠ VNil → row !! column = Some v.
Proof. unfold rowGet. destruct (row !! column); simpl; congruence. Qed.

Section MutationProperties.
Context `{ext : External}.

(** X12: [+=] on an integer column writes the sum wrapped to 64 bits and
    returns no error, also when the sum overflows; [-=] of the same value
    then writes the original integer back. *)
Theorem Mutation_MutateInteger_wraps m row original value :
  rowGet row (m_Column m) = VInt original →
  m_Value m = VInt value → m_Mutator m = MT_SUM →
  - 2 ^ 63 ≤ original < 2 ^ 63 →
  let mutated := wrap64 (original + value) in
  let m' := mkMutation (m_Column m) MT_DIFFERENCE (VInt value) (m_ColumnSchema m) in
  Mutation_MutateInteger m row = (<[m_Column m := VInt mutated]> row, Ret tt) ∧
  - 2 ^ 63 ≤ mutated < 2 ^ 63 ∧
  Mutation_MutateInteger m' (<[m_Column m := VInt mutated]> row) = (row, Ret tt).
Proof.
  intros Hrow Hvalue Hsum Hrange mutated m'. split; [|split].
  - unfold Mutation_MutateInteger. by rewrite Hrow, Hvalue, Hsum.
  - apply wrap64_range.
  - unfold Mutation_MutateInteger, rowGet. simpl. rewrite lookup_insert_eq. simpl.
    unfold mutated. rewrite wrap64_sum_difference by done.
    rewrite insert_insert_eq, insert_id; [done|]. by apply rowGet_Some.
Qed.

(** X13: a mutation of an integer, real, set or map column panics on a row
    that does not hold the column: the value of the row is asserted to its
    type without a check.  RowMutate panics with it, and the row it was given
    is as it was. *)
Theorem Mutation_Mutate_missing_column tableSchema mapUUID mt rest m shared row :
  NewMutation tableSchema mapUUID mt = Ret m →
  m_Column m ≠ COL_UUID → m_Column m ≠ COL_VERSION →
  cs_Mutable (m_ColumnSchema m) ≠ Some false →
  cs_Type (m_ColumnSchema m) = TypeInteger ∨ cs_Type (m_ColumnSchema m) = TypeReal ∨
  cs_Type (m_ColumnSchema m) = TypeSet ∨ cs_Type (m_ColumnSchema m) = TypeMap →
  row !! m_Column m = None →
  Mutation_Mutate m shared row = (shared, row, Panic) ∧
  RowMutate tableSchema mapUUID row (Some (VSlice mt :: rest)) = (row, Panic).
Proof.
  intros Hnew Hu Hv Hmut Hty Hrow.
  assert (∀ shared, Mutation_Mutate m shared row = (shared, row, Panic)) as Hpanic.
  { intros shared'. unfold Mutation_Mutate. rewrite !bool_decide_eq_false_2 by done. simpl.
    destruct Hty as [-> | [-> | [-> | ->]]];
      unfold Mutation_MutateInteger, Mutation_MutateReal, Mutation_MutateSet,
        Mutation_MutateMap, rowGet; by rewrite Hrow. }
  split; [done|].
  unfold RowMutate. rewrite copier_Copy_empty. cbn [RowMutate_loop].
  by rewrite Hnew, Hpanic.
Qed.

(** ** RowUpdate *)

Lemma LookupColumn_updatable tableSchema column :
  updatable tableSchema column ∨
  (∀ original rest v, RowUpdate_loop tableSchema ((column, v) :: rest) original
                      = (original, Fail E_CONSTRAINT_VIOLATION)).
Proof.
  unfold updatable. destruct (ts_Columns tableSchema !! column) as [cs|] eqn:Hcs.
  - destruct (decide (column = COL_UUID)) as [Hu|Hu].
    { right. intros. cbn [RowUpdate_loop]. unfold LookupColumn. rewrite Hcs.
      by rewrite (bool_decide_eq_true_2 _ Hu). }
    destruct (decide (column = COL_VERSION)) as [Hv|Hv].
    { right. intros. cbn [RowUpdate_loop]. unfold LookupColumn. rewrite Hcs.
      rewrite (bool_decide_eq_true_2 _ Hv). by rewrite orb_true_r. }
    destruct (decide (cs_Mutable cs = Some false)) as [Hm|Hm].
    { right. intros. cbn [RowUpdate_loop]. unfold LookupColumn. rewrite Hcs.
      rewrite !bool_decide_eq_false_2 by done. simpl. by rewrite bool_decide_eq_true_2. }
    left. by exists cs.
  - right. intros. cbn [RowUpdate_loop]. unfold LookupColumn. by rewrite Hcs.
Qed.

Lemma RowUpdate_loop_updatable tableSchema column v rest original :
  updatable tableSchema column →
  RowUpdate_loop tableSchema ((column, v) :: rest) original
  = RowUpdate_loop tableSchema rest (<[column := v]> original).
Proof.
  intros (cs & Hcs & Hu & Hv & Hm). cbn [RowUpdate_loop]. unfold LookupColumn.
  rewrite Hcs. by rewrite !bool_decide_eq_false_2.
Qed.

Lemma RowUpdate_loop_ok tableSchema (l : list (string * Value)) original :
  NoDup l.*1 → (∀ column, column ∈ l.*1 → updatable tableSchema column) →
  RowUpdate_loop tableSchema l original = (list_to_map l ∪ original, Ret tt).
Proof.
  revert original. induction l as [|[column v] l IH]; intros original Hnodup Hall.
  - simpl. by rewrite (left_id_L ∅ (∪)).
  - rewrite fmap_cons in Hnodup, Hall. apply NoDup_cons in Hnodup as [Hnotin Hnodup].
    rewrite RowUpdate_loop_updatable by (apply Hall; left).
    rewrite IH; [|done|intros; apply Hall; by right].
    rewrite list_to_map_cons. f_equal.
    rewrite <- insert_union_l. symmetry. apply insert_union_r.
    by apply not_elem_of_list_to_map_1.
Qed.

Lemma RowUpdate_loop_fails tableSchema (l : list (string * Value)) original column :
  column ∈ l.*1 → ¬ updatable tableSchema column →
  (RowUpdate_loop tableSchema l original).2 = Fail E_CONSTRAINT_VIOLATION.
Proof.
  revert original. induction l as [|[column' v] l IH]; intros original Hin Hnot.
  - by apply elem_of_nil in Hin.
  - destruct (LookupColumn_updatable tableSchema column') as [Hup| ->]; [|done].
    rewrite RowUpdate_loop_updatable by done. apply IH; [|done].
    rewrite fmap_cons in Hin. apply elem_of_cons in Hin as [->|Hin]; done.
Qed.

Lemma RowUpdate_loop_frame tableSchema (l : list (string * Value)) original column :
  column ∉ l.*1 → (RowUpdate_loop tableSchema l original).1 !! column = original !! column.
Proof.
  revert original. induction l as [|[column' v] l IH]; intros original Hnotin; [done|].
  rewrite fmap_cons in Hnotin. apply not_elem_of_cons in Hnotin as [Hne Hnotin].
  destruct (LookupColumn_updatable tableSchema column') as [Hup| ->]; [|done].
  rewrite RowUpdate_loop_updatable, IH by done. by apply lookup_insert_ne.
Qed.

(** X14: RowUpdate returns without error exactly when every column of the
    update is known to the schema, is not [_uuid] or [_version] and is not
    immutable; the row then holds the values of the update over its own.  A
    column that fails one of these tests is a constraint violation.  In both
    cases a column that the update does not name keeps its value. *)
Theorem RowUpdate_columns tableSchema mapUUID original update :
  ((RowUpdate tableSchema mapUUID original update).2 = Ret tt ↔
   ∀ column, is_Some (update !! column) → updatable tableSchema column) ∧
  ((∀ column, is_Some (update !! column) → updatable tableSchema column) →
   RowUpdate tableSchema mapUUID original update = (update ∪ original, Ret tt)) ∧
  ((∃ column, is_Some (update !! column) ∧ ¬ updatable tableSchema column) →
   (RowUpdate tableSchema mapUUID original update).2 = Fail E_CONSTRAINT_VIOLATION) ∧
  (∀ column, update !! column = None →
   (RowUpdate tableSchema mapUUID original update).1 !! column = original !! column).
Proof.
  assert (∀ column, column ∈ (map_to_list update).*1 ↔ is_Some (update !! column)) as Hdom.
  { intros column. rewrite list_elem_of_fmap. split.
    - intros ([c v] & -> & Hin%elem_of_map_to_list). by exists v.
    - intros [v Hv]. exists (column, v). split; [done|]. by apply elem_of_map_to_list. }
  assert ((∀ column, is_Some (update !! column) → updatable tableSchema column) →
          RowUpdate tableSchema mapUUID original update = (update ∪ original, Ret tt)) as Hok.
  { intros Hall. unfold RowUpdate. rewrite RowUpdate_loop_ok.
    - by rewrite list_to_map_to_list.
    - apply NoDup_fst_map_to_list.
    - intros column ?%Hdom. by apply Hall. }
  assert ((∃ column, is_Some (update !! column) ∧ ¬ updatable tableSchema column) →
          (RowUpdate tableSchema mapUUID original update).2 = Fail E_CONSTRAINT_VIOLATION)
    as Hfail.
  { intros (column & Hin & Hnot). unfold RowUpdate.
    eapply RowUpdate_loop_fails; [by apply Hdom | done]. }
  split; [|split; [done|split; [done|]]].
  - split; [|by intros ->%Hok].
    intros Hret column Hin.
    destruct (LookupColumn_updatable tableSchema column) as [?|Hbad]; [done|].
    rewrite Hfail in Hret; [done|]. exists column. split; [done|].
    intros Hup. specialize (Hbad ∅ [] VNil).
    rewrite RowUpdate_loop_updatable in Hbad by done. done.
  - intros column Hnone. unfold RowUpdate. apply RowUpdate_loop_frame.
    rewrite Hdom, Hnone. by intros [? ?].
Qed.

End MutationProperties.

(** The largest integer plus one is the smallest integer, and minus one
    again the largest. *)
Lemma Mutation_MutateInteger_wraps_witness :
  let m := mkMutation "key2" MT_SUM (VInt 1) (mkColumnSchema TypeInteger None None) in
  let m' := mkMutation "key2" MT_DIFFERENCE (VInt 1) (mkColumnSchema TypeInteger None None) in
  let row : Row := {[ "key2" := VInt (2 ^ 63 - 1) ]} in
  let row' : Row := {[ "key2" := VInt (- 2 ^ 63) ]} in
  Mutation_MutateInteger m row = (row', Ret tt) ∧
  Mutation_MutateInteger m' row' = (row, Ret tt).
Proof.
  intros m m' row row'.
  destruct (Mutation_MutateInteger_wraps m row (2 ^ 63 - 1) 1) as (H1 & _ & H2);
    [reflexivity | reflexivity | reflexivity | lia |].
  split; [exact H1 | exact H2].
Defined.

(** The mutation [key2 += 1] on a row of table1 that has no key2. *)
Lemma Mutation_Mutate_missing_column_witness :
  let tableSchema := mkTableSchema {[ "key1" := mkColumnSchema TypeString None None;
                                      "key2" := mkColumnSchema TypeInteger None None ]} in
  let mt := [VString "key2"; VString MT_SUM; VInt 1] in
  let row : Row := {[ "key1" := VString "val1" ]} in
  RowMutate (ext := Example.external) tableSchema ∅ row (Some [VSlice mt]) = (row, Panic).
Proof.
  intros tableSchema mt row.
  destruct (Mutation_Mutate_missing_column (ext := Example.external) tableSchema ∅ mt [] 
              (mkMutation "key2" MT_SUM (VInt 1) (mkColumnSchema TypeInteger None None))
              row row)
    as [_ Hpanic]; [reflexivity | done | done | done | by left | reflexivity | exact Hpanic].
Defined.

(** ** Conditions on sets and maps *)

Lemma isEqualMap_included m1 m2 :
  isEqualMap (VMap m1) (VMap m2) = Some true ↔ mapIncluded m1 m2.
Proof.
  simpl. split.
  - intros [= H] k v Hk. rewrite isEqualMap_loop_included in H.
    apply H. by apply elem_of_map_to_list.
  - intros H. f_equal. apply isEqualMap_loop_included.
    intros k v Hin%elem_of_map_to_list. by apply H.
Qed.

Lemma isFn_true fn a b : isFn fn a b = true ↔ fn = a ∨ fn = b.
Proof. unfold isFn. rewrite orb_true_iff, !bool_decide_eq_true. done. Qed.

Lemma isFn_EQ_IN fn :
  fn = FN_EQ ∨ fn = FN_IN → isFn fn FN_EQ FN_IN = true ∧ isFn fn FN_NE FN_EX = false.
Proof. by intros [-> | ->]. Qed.

Lemma isFn_NE_EX fn :
  fn = FN_NE ∨ fn = FN_EX → isFn fn FN_EQ FN_IN = false ∧ isFn fn FN_NE FN_EX = true.
Proof. by intros [-> | ->]. Qed.

Section ConditionProperties.
Context `{ext : External}.

(** X15: a condition on a set column compares the set of the row against
    the set of the condition, in this order: [==] and [includes] select the
    row exactly when every element of the row's set is in the condition's
    set, [!=] and [excludes] exactly when one is not.  So [==] selects a row
    whose set is empty or smaller.  Conditions on map columns hold in the
    same way when the entries of the row's map are entries of the
    condition's map. *)
Theorem Condition_CompareSet_inclusion c row :
  (∀ actual expected,
     rowGet row (c_Column c) = VSet actual → c_Value c = VSet expected →
     (c_Function c = FN_EQ ∨ c_Function c = FN_IN →
        Condition_CompareSet c row = Ret true ↔ setIncluded actual expected) ∧
     (c_Function c = FN_NE ∨ c_Function c = FN_EX →
        Condition_CompareSet c row = Ret true ↔ ¬ setIncluded actual expected) ∧
     (c_Function c = FN_EQ → actual = [] → Condition_CompareSet c row = Ret true)) ∧
  (∀ actual expected,
     rowGet row (c_Column c) = VMap actual → c_Value c = VMap expected →
     (c_Function c = FN_EQ ∨ c_Function c = FN_IN →
        Condition_CompareMap c row = Ret true ↔ mapIncluded actual expected) ∧
     (c_Function c = FN_NE ∨ c_Function c = FN_EX →
        Condition_CompareMap c row = Ret true ↔ ¬ mapIncluded actual expected) ∧
     (c_Function c = FN_EQ → actual = ∅ → Condition_CompareMap c row = Ret true)).
Proof.
  split.
  - intros actual expected Hrow Hval.
    assert (c_Function c = FN_EQ ∨ c_Function c = FN_IN →
            Condition_CompareSet c row = Ret true ↔ setIncluded actual expected) as Heq.
    { intros [Hfn1 Hfn2]%isFn_EQ_IN. unfold Condition_CompareSet.
      rewrite Hrow, Hval, Hfn1, Hfn2. rewrite <- isEqualSet_included. simpl.
      by destruct (isEqualSet_loop actual expected). }
    split; [done|]. split.
    + intros [Hfn1 Hfn2]%isFn_NE_EX. unfold Condition_CompareSet.
      rewrite Hrow, Hval, Hfn1, Hfn2. rewrite <- isEqualSet_not_included. simpl.
      destruct (isEqualSet_loop actual expected); simpl; split; congruence.
    + intros Hfn ->. apply Heq; [by left|]. by intros x ?%elem_of_nil.
  - intros actual expected Hrow Hval.
    assert (c_Function c = FN_EQ ∨ c_Function c = FN_IN →
            Condition_CompareMap c row = Ret true ↔ mapIncluded actual expected) as Heq.
    { intros [Hfn1 Hfn2]%isFn_EQ_IN. unfold Condition_CompareMap.
      rewrite Hrow, Hval, Hfn1, Hfn2. rewrite <- isEqualMap_included. simpl.
      by destruct (isEqualMap_loop (map_to_list actual) expected). }
    split; [done|]. split.
    + intros [Hfn1 Hfn2]%isFn_NE_EX. unfold Condition_CompareMap.
      rewrite Hrow, Hval, Hfn1, Hfn2. rewrite <- isEqualMap_included. simpl.
      destruct (isEqualMap_loop (map_to_list actual) expected); simpl; split; congruence.
    + intros Hfn ->. apply Heq; [by left|]. intros k v. by rewrite lookup_empty.
Qed.

(** ** The where clause *)

Lemma isRowSelectedByWhere_loop_true tableSchema mapUUID row where_ :
  isRowSelectedByWhere_loop tableSchema mapUUID row where_ = Ret true ↔
  Forall (λ c, ∃ cond, c = VSlice cond ∧
                       isRowSelectedByCond tableSchema mapUUID row cond = Ret true) where_.
Proof.
  induction where_ as [|c rest IH]; [done|].
  cbn [isRowSelectedByWhere_loop]. rewrite Forall_cons, <- IH. clear IH.
  destruct c as [| | | |cond]; try (split; [done | by intros [(? & ? & _) _]]).
  destruct (isRowSelectedByCond tableSchema mapUUID row cond) as [[]|e|] eqn:Hc; simpl.
  - split; [|by intros [_ ?]]. intros ?. split; [|done]. by exists cond.
  - split; [done|]. intros [(cond' & [= <-] & Hc') _]. congruence.
  - split; [done|]. intros [(cond' & [= <-] & Hc') _]. congruence.
  - split; [done|]. intros [(cond' & [= <-] & Hc') _]. congruence.
Qed.

(** X16: the where clause is the conjunction of its conditions: a row is
    selected exactly when every condition is a triple that compiles and
    holds on the row.  No where clause and the empty one select every row,
    and two clauses put together select the rows that both select. *)
Theorem isRowSelectedByWhere_conjunction tableSchema mapUUID row :
  isRowSelectedByWhere tableSchema mapUUID row None = Ret true ∧
  isRowSelectedByWhere tableSchema mapUUID row (Some []) = Ret true ∧
  (∀ where_,
     isRowSelectedByWhere tableSchema mapUUID row (Some where_) = Ret true ↔
     Forall (λ c, ∃ cond, c = VSlice cond ∧
                          isRowSelectedByCond tableSchema mapUUID row cond = Ret true) where_) ∧
  (∀ where1 where2,
     isRowSelectedByWhere tableSchema mapUUID row (Some (where1 ++ where2)) = Ret true ↔
     isRowSelectedByWhere tableSchema mapUUID row (Some where1) = Ret true ∧
     isRowSelectedByWhere tableSchema mapUUID row (Some where2) = Ret true).
Proof.
  split; [done|]. split; [done|]. split.
  - intros where_. apply isRowSelectedByWhere_loop_true.
  - intros where1 where2. cbn [isRowSelectedByWhere].
    rewrite !isRowSelectedByWhere_loop_true. apply Forall_app.
Qed.

(** ** Functions that no comparison knows *)

Lemma isFn_false fn a b : fn ≠ a → fn ≠ b → isFn fn a b = false.
Proof. intros. unfold isFn. by rewrite !bool_decide_eq_false_2. Qed.

(** X17: a condition whose function is none of the eight names selects no
    row, whatever the column and the values are, and a condition on a
    boolean, string, uuid, set or map column selects no row with one of the
    four orderings.  When the value of the row and the value of the condition
    have the type of the column, the comparison falls through to false,
    without an error: it returns exactly (false, nil), on an integer or real
    column too when the function is none of the eight. *)
Theorem Condition_Compare_unknown_function c row :
  c_Function c ≠ FN_EQ → c_Function c ≠ FN_IN → c_Function c ≠ FN_NE → c_Function c ≠ FN_EX →
  ((c_Function c ≠ FN_LT → c_Function c ≠ FN_LE → c_Function c ≠ FN_GE → c_Function c ≠ FN_GT →
    Condition_Compare c row ≠ Ret true) ∧
   Condition_CompareBoolean c row ≠ Ret true ∧
   Condition_CompareString c row ≠ Ret true ∧
   Condition_CompareUUID c row ≠ Ret true ∧
   Condition_CompareSet c row ≠ Ret true ∧
   Condition_CompareMap c row ≠ Ret true) ∧
  (∀ actual expected, rowGet row (c_Column c) = VString actual → c_Value c = VString expected →
     Condition_CompareString c row = Ret false) ∧
  (∀ actual expected, rowGet row (c_Column c) = VBool actual → c_Value c = VBool expected →
     Condition_CompareBoolean c row = Ret false) ∧
  (∀ actual expected, rowGet row (c_Column c) = VUUID actual → c_Value c = VUUID expected →
     Condition_CompareUUID c row = Ret false) ∧
  (∀ ar actual expected,
     rowGet row (c_Column c) = VSlice ar → ar !! 1%nat = Some (VString actual) →
     c_Value c = VUUID expected →
     Condition_CompareUUID c row = Ret false) ∧
  (∀ actual expected, rowGet row (c_Column c) = VSet actual → c_Value c = VSet expected →
     Condition_CompareSet c row = Ret false) ∧
  (∀ actual expected, rowGet row (c_Column c) = VMap actual → c_Value c = VMap expected →
     Condition_CompareMap c row = Ret false) ∧
  (c_Function c ≠ FN_LT → c_Function c ≠ FN_LE → c_Function c ≠ FN_GE → c_Function c ≠ FN_GT →
   (∀ actual expected, rowGet row (c_Column c) = VInt actual → c_Value c = VInt expected →
      Condition_CompareInteger c row = Ret false) ∧
   (∀ actual expected, rowGet row (c_Column c) = VReal actual → c_Value c = VReal expected →
      Condition_CompareReal c row = Ret false)).
Proof.
  intros Heq Hin Hne Hex.
  pose proof (isFn_false _ _ _ Heq Hin) as Hfn1.
  pose proof (isFn_false _ _ _ Hne Hex) as Hfn2.
  assert (Condition_CompareBoolean c row ≠ Ret true) as HB.
  { unfold Condition_CompareBoolean. rewrite Hfn1, Hfn2. simpl. by repeat case_match. }
  assert (Condition_CompareString c row ≠ Ret true) as HS.
  { unfold Condition_CompareString. rewrite Hfn1, Hfn2. simpl. by repeat case_match. }
  assert (Condition_CompareUUID c row ≠ Ret true) as HU.
  { unfold Condition_CompareUUID. rewrite Hfn1, Hfn2. simpl.
    destruct (match rowGet row (c_Column c) with VSlice _ => _ | _ => _ end); simpl;
      by repeat case_match. }
  assert (Condition_CompareSet c row ≠ Ret true) as HSet.
  { unfold Condition_CompareSet. rewrite Hfn1, Hfn2. simpl.
    by repeat case_match. }
  assert (Condition_CompareMap c row ≠ Ret true) as HMap.
  { unfold Condition_CompareMap. rewrite Hfn1, Hfn2. simpl.
    by repeat case_match. }
  split; [split; [|done]|].
  { intros Hlt Hle Hge Hgt. unfold Condition_Compare.
    case_bool_decide; [done|]. case_bool_decide; [done|].
    destruct (c_ColumnSchema c) as [columnSchema|]; [|done].
    destruct (cs_Type columnSchema); try done.
    + unfold Condition_CompareInteger. rewrite Hfn1, Hfn2.
      rewrite !bool_decide_eq_false_2 by done. simpl. by repeat case_match.
    + unfold Condition_CompareReal. rewrite Hfn1, Hfn2.
      rewrite !bool_decide_eq_false_2 by done. simpl. by repeat case_match.
    + unfold Condition_CompareEnum. by repeat case_match. }
  split; [|split; [|split; [|split; [|split; [|split]]]]].
  - intros actual expected Hrow Hval. unfold Condition_CompareString.
    by rewrite Hrow, Hval, Hfn1, Hfn2.
  - intros actual expected Hrow Hval. unfold Condition_CompareBoolean.
    by rewrite Hrow, Hval, Hfn1, Hfn2.
  - intros actual expected Hrow Hval. unfold Condition_CompareUUID.
    by rewrite Hrow, Hval, Hfn1, Hfn2.
  - intros ar actual expected Hrow Har Hval. unfold Condition_CompareUUID.
    by rewrite Hrow, Har, Hval, Hfn1, Hfn2.
  - intros actual expected Hrow Hval. unfold Condition_CompareSet.
    rewrite Hrow, Hval, Hfn1, Hfn2. simpl. by destruct (isEqualSet_loop actual expected).
  - intros actual expected Hrow Hval. unfold Condition_CompareMap.
    rewrite Hrow, Hval, Hfn1, Hfn2. simpl.
    by destruct (isEqualMap_loop (map_to_list actual) expected).
  - intros Hlt Hle Hge Hgt. split.
    + intros actual expected Hrow Hval. unfold Condition_CompareInteger.
      rewrite Hrow, Hval, Hfn1, Hfn2. simpl.
      by rewrite (bool_decide_eq_false_2 _ Hlt), (bool_decide_eq_false_2 _ Hle),
        (bool_decide_eq_false_2 _ Hge), (bool_decide_eq_false_2 _ Hgt).
    + intros actual expected Hrow Hval. unfold Condition_CompareReal.
      rewrite Hrow, Hval, Hfn1, Hfn2. simpl.
      by rewrite (bool_decide_eq_false_2 _ Hlt), (bool_decide_eq_false_2 _ Hle),
        (bool_decide_eq_false_2 _ Hge), (bool_decide_eq_false_2 _ Hgt).
Qed.

End ConditionProperties.

(** The condition [key1 < val1] on a row whose key1 is smaller, and the
    condition [key3 > {}] on a row whose key3 is a set with an element:
    neither selects the row, and neither is an error. *)
Lemma Condition_Compare_unknown_function_witness :
  let c := mkCondition "key1" FN_LT (VString "val1")
                       (Some (mkColumnSchema TypeString None None)) in
  let c' := mkCondition "key3" FN_GT (VSet [])
                        (Some (mkColumnSchema TypeSet None None)) in
  Condition_CompareString c {[ "key1" := VString "a" ]} = Ret false ∧
  Condition_CompareSet c' {[ "key3" := VSet [BKey (KInt 1)] ]} = Ret false.
Proof.
  intros c c'. split.
  - destruct (Condition_Compare_unknown_function c {[ "key1" := VString "a" ]})
      as (_ & Hfalse & _); [done..|].
    by apply (Hfalse "a" "val1").
  - destruct (Condition_Compare_unknown_function c' {[ "key3" := VSet [BKey (KInt 1)] ]})
      as (_ & _ & _ & _ & _ & Hfalse & _); [done..|].
    by apply (Hfalse [BKey (KInt 1)] []).
Defined.

(** ** What the fetch pass asks the backend for *)

Section FetchProperties.
Context `{ext : External}.

(** X18: etcdGetByWhere appends one range-get and returns no error when
    the table is known: for the whole table (the key without uuid) when there
    is no where clause or an empty one, and for one row when the first
    condition is an equality on [_uuid] with a valid uuid.  An unknown table
    is an internal error, and the buffer is not touched. *)
Theorem etcdGetByWhere_key txn ovsOp table :
  o_Table ovsOp = Some table →
  let dbName := t_DBName (request txn) in
  (∀ tableSchema,
     LookupTable (schemas txn) dbName table = Ret tableSchema →
     (o_Where ovsOp = None ∨ o_Where ovsOp = Some [] →
      etcdGetByWhere txn ovsOp
      = Some (etcdGetData txn (NewDataKey dbName table ""), None)) ∧
     (∀ fn value uuid rest,
        o_Where ovsOp = Some (VSlice [VString COL_UUID; VString fn; value] :: rest) →
        fn = FN_EQ ∨ fn = FN_IN →
        UnmarshalUUID value = Ret (VUUID uuid) → uuid ≠ "" → ValidateUUID uuid = Ret tt →
        etcdGetByWhere txn ovsOp
        = Some (etcdGetData txn (NewDataKey dbName table uuid), None))) ∧
  (∀ e, LookupTable (schemas txn) dbName table = Fail e →
        etcdGetByWhere txn ovsOp = Some (txn, Some E_INTERNAL_ERROR)).
Proof.
  intros Htable dbName. split.
  - intros tableSchema Hlookup. split.
    + intros Hwhere. unfold etcdGetByWhere. rewrite Htable. simpl.
      fold dbName. rewrite Hlookup. by destruct Hwhere as [-> | ->].
    + intros fn value uuid rest Hwhere Hfn Hvalue Hne Hvalid.
      unfold etcdGetByWhere. rewrite Htable. simpl. fold dbName. rewrite Hlookup, Hwhere.
      assert (NewCondition tableSchema (mapUUID txn) [VString COL_UUID; VString fn; value]
              = Ret (mkCondition COL_UUID fn (VUUID uuid) None)) as Hcond.
      { unfold NewCondition. simpl. rewrite Hvalue. simpl.
        rewrite bool_decide_eq_true_2 by done. by rewrite Hvalid. }
      cbn [doesWhereContainCondTypeUUID doesWhereContainCondTypeUUID_loop getUUIDIfExists].
      rewrite Hcond. cbn [obind c_Column c_Function c_Value].
      rewrite (bool_decide_eq_false_2 (COL_UUID ≠ COL_UUID)) by (by intros H; apply H).
      assert (bool_decide (fn ≠ FN_EQ) && bool_decide (fn ≠ FN_IN) = false) as ->.
      { by destruct Hfn as [-> | ->]. }
      rewrite Hvalid. cbn [obind]. by rewrite bool_decide_eq_true_2.
  - intros e Hlookup. unfold etcdGetByWhere. rewrite Htable. simpl. fold dbName.
    by rewrite Hlookup.
Qed.

End FetchProperties.

(** A select of one row of table1 by its uuid asks for the key of that
    row. *)
Lemma etcdGetByWhere_key_witness :
  let uuid := "00000000-0000-0000-0000-000000000001" in
  let ovsOp :=
    mkOperation OP_SELECT (Some "table1") None None None None None
                (Some [VSlice [VString COL_UUID; VString FN_EQ; VUUID uuid]])
                None None None None None in
  let txn := AddSchema Example.testSchemaSimple (NewTransaction (mkTransact "simple" [ovsOp])) in
  etcdGetByWhere (ext := Example.external) txn ovsOp
  = Some (etcdGetData (ext := Example.external) txn (NewDataKey "simple" "table1" uuid), None).
Proof.
  intros uuid ovsOp txn.
  destruct (etcdGetByWhere_key (ext := Example.external) txn ovsOp "table1") as [Hknown _];
    [reflexivity|].
  destruct (Hknown (mkTableSchema {[ "key1" := mkColumnSchema TypeString None None;
                                     "key2" := mkColumnSchema TypeInteger None None ]}))
    as [_ Hrow]; [reflexivity|].
  apply (Hrow FN_EQ (VUUID uuid) uuid []); [reflexivity | by left | reflexivity | done | reflexivity].
Defined.

(** ** Named uuids *)

Section ResolvProperties.
Context `{ext : External}.

Lemma ResolvUUID_base_resolved mapUUID b :
  resolvedBase b → ResolvUUID_base mapUUID b = Ret b.
Proof.
  destruct b as [[| | |goUUID]|]; try done. simpl. intros [-> | ->]; [done|].
  by case_bool_decide.
Qed.

Lemma ResolvUUID_base_result mapUUID b b' :
  resolvedNames mapUUID → ResolvUUID_base mapUUID b = Ret b' → resolvedBase b'.
Proof.
  intros Hnames. destruct b as [[| | |goUUID]|]; simpl; try by intros [= <-].
  case_bool_decide as Hne; [|intros [= <-]; left; by destruct (decide (goUUID = ""))].
  destruct (ValidateUUID goUUID) as [[]|e|] eqn:Hvalid; [| |done].
  - intros [= <-]. by right.
  - unfold MapUUID_Get. destruct (mapUUID !! goUUID) as [uuid|] eqn:Hname; [|done].
    simpl. intros [= <-]. by eapply Hnames.
Qed.

Lemma ResolvSet_loop_resolved mapUUID oldset newset :
  Forall resolvedBase oldset → ResolvSet_loop mapUUID oldset newset = Ret (newset ++ oldset).
Proof.
  revert newset. induction oldset as [|b oldset IH]; intros newset Hall; simpl.
  - by rewrite app_nil_r.
  - apply Forall_cons in Hall as [Hb Hall]. rewrite ResolvUUID_base_resolved by done. simpl.
    rewrite IH by done. by rewrite <- app_assoc.
Qed.

Lemma ResolvSet_loop_result mapUUID oldset newset result :
  resolvedNames mapUUID → Forall resolvedBase newset →
  ResolvSet_loop mapUUID oldset newset = Ret result → Forall resolvedBase result.
Proof.
  intros Hnames. revert newset. induction oldset as [|b oldset IH]; intros newset Hnew; simpl.
  - by intros [= <-].
  - destruct (ResolvUUID_base mapUUID b) as [b'|e|] eqn:Hb; [|done..]. simpl.
    apply IH. apply Forall_app. split; [done|]. apply Forall_singleton.
    by eapply ResolvUUID_base_result.
Qed.

Lemma ResolvMap_loop_resolved mapUUID (entries : list (MapKey * Base)) newmap :
  NoDup entries.*1 → Forall (λ kv, resolvedBase kv.2) entries →
  ResolvMap_loop mapUUID entries newmap = Ret (list_to_map entries ∪ newmap).
Proof.
  revert newmap. induction entries as [|[k b] entries IH]; intros newmap Hnodup Hall.
  - simpl. by rewrite (left_id_L ∅ (∪)).
  - rewrite fmap_cons in Hnodup. apply NoDup_cons in Hnodup as [Hnotin Hnodup].
    apply Forall_cons in Hall as [Hb Hall]. cbn [ResolvMap_loop].
    rewrite ResolvUUID_base_resolved by done. cbn [obind].
    rewrite IH, list_to_map_cons by done. f_equal.
    rewrite <- insert_union_l. symmetry. apply insert_union_r.
    by apply not_elem_of_list_to_map_1.
Qed.

Lemma ResolvMap_loop_result mapUUID (entries : list (MapKey * Base)) newmap result :
  resolvedNames mapUUID → map_Forall (λ _ b, resolvedBase b) newmap →
  ResolvMap_loop mapUUID entries newmap = Ret result →
  map_Forall (λ _ b, resolvedBase b) result.
Proof.
  intros Hnames. revert newmap.
  induction entries as [|[k b] entries IH]; intros newmap Hnew; cbn [ResolvMap_loop].
  - by intros [= <-].
  - destruct (ResolvUUID_base mapUUID b) as [b'|e|] eqn:Hb; [|done..]. cbn [obind].
    apply IH. apply map_Forall_insert_2; [|done]. by eapply ResolvUUID_base_result.
Qed.

(** X20: when the uuids that the names stand for are valid uuids, a value
    that Resolv returns holds no name any more: Resolv returns it
    unchanged. *)
Theorem Resolv_idempotent mapUUID value value' :
  resolvedNames mapUUID →
  Resolv mapUUID value = Ret value' → Resolv mapUUID value' = Ret value'.
Proof.
  intros Hnames. destruct value as [|[[| | |goUUID]|]|oldset|oldmap|]; cbn [Resolv];
    try by intros [= <-].
  - unfold ResolvUUID.
    destruct (ResolvUUID_base mapUUID (BKey (KUUID goUUID))) as [b'|e|] eqn:Hb; [|done..].
    simpl. intros [= <-].
    pose proof (ResolvUUID_base_result _ _ _ Hnames Hb) as Hres.
    assert (Resolv mapUUID (VBase b') = ResolvUUID mapUUID (VBase b')) as ->
      by (by destruct b' as [[]|]).
    unfold ResolvUUID. by rewrite ResolvUUID_base_resolved.
  - unfold ResolvSet.
    destruct (ResolvSet_loop mapUUID oldset []) as [newset|e|] eqn:Hset; [|done..].
    cbn [obind]. intros [= <-]. cbn [Resolv]. unfold ResolvSet.
    rewrite ResolvSet_loop_resolved; [done|].
    by eapply ResolvSet_loop_result.
  - unfold ResolvMap.
    destruct (ResolvMap_loop mapUUID (map_to_list oldmap) ∅) as [newmap|e|] eqn:Hmap;
      [|done..].
    cbn [obind]. intros [= <-]. cbn [Resolv]. unfold ResolvMap.
    assert (map_Forall (λ _ b, resolvedBase b) newmap) as Hres.
    { eapply ResolvMap_loop_result; [done | apply map_Forall_empty | done]. }
    rewrite ResolvMap_loop_resolved.
    + simpl. by rewrite list_to_map_to_list, (right_id_L ∅ (∪)).
    + apply NoDup_fst_map_to_list.
    + apply Forall_forall. intros [k b] Hin%elem_of_map_to_list. by apply (Hres k b).
Qed.

(** ** ResolvRow *)

Lemma ResolvRow_loop_ok mapUUID (entries : list (string * Value)) row :
  NoDup entries.*1 →
  Forall (λ cv, ∃ value', Resolv mapUUID cv.2 = Ret value') entries →
  ResolvRow_loop mapUUID entries row
  = (list_to_map (prod_map id (resolveValue mapUUID) <$> entries) ∪ row, Ret tt).
Proof.
  revert row. induction entries as [|[column value] entries IH]; intros row Hnodup Hall.
  - simpl. by rewrite (left_id_L ∅ (∪)).
  - rewrite fmap_cons in Hnodup. apply NoDup_cons in Hnodup as [Hnotin Hnodup].
    apply Forall_cons in Hall as [[value' Hvalue] Hall]. cbn [ResolvRow_loop].
    simpl in Hvalue. rewrite Hvalue, IH by done. rewrite fmap_cons.
    change (prod_map id (resolveValue mapUUID) (column, value))
      with (column, resolveValue mapUUID value).
    assert (resolveValue mapUUID value = value') as ->
      by (unfold resolveValue; by rewrite Hvalue).
    rewrite list_to_map_cons. f_equal.
    rewrite <- insert_union_l. symmetry. apply insert_union_r.
    apply not_elem_of_list_to_map_1. rewrite <- list_fmap_compose.
    by rewrite (list_fmap_ext _ fst entries) by (by intros []).
Qed.

Lemma ResolvRow_loop_fails mapUUID (entries : list (string * Value)) row :
  (ResolvRow_loop mapUUID entries row).2 = Ret tt →
  Forall (λ cv, ∃ value', Resolv mapUUID cv.2 = Ret value') entries.
Proof.
  revert row. induction entries as [|[column value] entries IH]; intros row; [done|].
  cbn [ResolvRow_loop]. destruct (Resolv mapUUID value) as [value'|e|] eqn:Hvalue; [|done..].
  intros ?%IH. apply Forall_cons. split; [|done]. by exists value'.
Qed.

(** X19: ResolvRow returns without error exactly when Resolv returns
    without error on the value of every column, and the row then holds, under
    every column, what Resolv made of its value. *)
Theorem ResolvRow_columns mapUUID row :
  ((ResolvRow mapUUID row).2 = Ret tt ↔
   ∀ column value, row !! column = Some value → ∃ value', Resolv mapUUID value = Ret value') ∧
  ((∀ column value, row !! column = Some value → ∃ value', Resolv mapUUID value = Ret value') →
   ResolvRow mapUUID row = (resolveValue mapUUID <$> row, Ret tt)).
Proof.
  assert ((∀ column value, row !! column = Some value →
                           ∃ value', Resolv mapUUID value = Ret value') →
          ResolvRow mapUUID row = (resolveValue mapUUID <$> row, Ret tt)) as Hok.
  { intros Hall. unfold ResolvRow. rewrite ResolvRow_loop_ok.
    - rewrite list_to_map_fmap, list_to_map_to_list. f_equal.
      apply map_eq. intros column. rewrite lookup_union, lookup_fmap.
      by destruct (row !! column).
    - apply NoDup_fst_map_to_list.
    - apply Forall_forall. intros [column value] Hin%elem_of_map_to_list. by eapply Hall. }
  split; [|done]. split; [|by intros ->%Hok].
  intros Hret%ResolvRow_loop_fails column value Hin.
  by apply (proj1 (Forall_forall _ _) Hret (column, value)), elem_of_map_to_list.
Qed.

End ResolvProperties.

(** The name [row1] stands for a uuid: Resolv replaces the name, and leaves
    the uuid alone. *)
Lemma Resolv_idempotent_witness :
  let uuid := "00000000-0000-0000-0000-000000000001" in
  let mapUUID : MapUUID := {[ "row1" := uuid ]} in
  Resolv (ext := Example.external) mapUUID (VSet [BKey (KUUID "row1"); BKey (KInt 1)])
  = Ret (VSet [BKey (KUUID uuid); BKey (KInt 1)]) ∧
  Resolv (ext := Example.external) mapUUID (VSet [BKey (KUUID uuid); BKey (KInt 1)])
  = Ret (VSet [BKey (KUUID uuid); BKey (KInt 1)]).
Proof.
  intros uuid mapUUID. split; [reflexivity|].
  apply (Resolv_idempotent (ext := Example.external) mapUUID
           (VSet [BKey (KUUID "row1"); BKey (KInt 1)])); [|reflexivity].
  intros uuidName uuid' [_ <-]%lookup_singleton_Some. by right.
Defined.

(** ** The row cache *)

Lemma Cache_Table_spec c dbname table :
  ∃ databaseCache,
    (Cache_Table c dbname table).2 !! dbname = Some databaseCache ∧
    databaseCache !! table = Some (Cache_Table c dbname table).1 ∧
    (Cache_Table c dbname table).1
    = default ∅ (databaseCache ← c !! dbname; databaseCache !! table) ∧
    (∀ table', table' ≠ table →
               databaseCache !! table' = default ∅ (c !! dbname) !! table') ∧
    (∀ dbname', dbname' ≠ dbname → (Cache_Table c dbname table).2 !! dbname' = c !! dbname').
Proof.
  unfold Cache_Table, Cache_Database.
  destruct (c !! dbname) as [db|] eqn:Hdb; simpl.
  - destruct (db !! table) as [tb|] eqn:Htb; simpl.
    + exists db. by rewrite Hdb.
    + exists (<[table := ∅]> db). rewrite lookup_insert_eq. split; [done|].
      rewrite lookup_insert_eq. split; [done|]. split; [done|]. split.
      * intros table' Hne. by rewrite lookup_insert_ne.
      * intros dbname' Hne. by rewrite lookup_insert_ne.
  - rewrite lookup_empty. simpl. exists (<[table := ∅]> ∅).
    rewrite lookup_insert_eq. split; [done|]. rewrite lookup_insert_eq.
    split; [done|]. split; [done|]. split.
    + intros table' Hne. by rewrite lookup_insert_ne.
    + intros dbname' Hne. by rewrite !lookup_insert_ne.
Qed.

Lemma Cache_Table_lookup c dbname table :
  (∀ uuid, (Cache_Table c dbname table).1 !! uuid = Cache_lookup c (mkKey dbname table uuid)) ∧
  (∀ key, Cache_lookup (Cache_Table c dbname table).2 key = Cache_lookup c key).
Proof.
  destruct (Cache_Table_spec c dbname table) as (db' & Hdb' & Htb & Heq & Htables & Hdbs).
  split.
  - intros uuid. rewrite Heq. unfold Cache_lookup. simpl.
    destruct (c !! dbname) as [db|]; simpl; [|done]. by destruct (db !! table).
  - intros [d t u]. unfold Cache_lookup. simpl.
    destruct (decide (d = dbname)) as [->|Hd]; [|by rewrite Hdbs].
    rewrite Hdb'. simpl. destruct (decide (t = table)) as [->|Ht].
    + rewrite Htb, Heq. simpl.
      destruct (c !! dbname) as [db|]; simpl; [|done]. by destruct (db !! table).
    + rewrite Htables by done. by destruct (c !! dbname).
Qed.

Lemma Cache_setRow_lookup c key row key' :
  Cache_lookup (Cache_setRow c key row) key'
  = if decide (key' = key) then Some row else Cache_lookup c key'.
Proof.
  destruct key as [d t u], key' as [d' t' u']. unfold Cache_setRow. simpl.
  destruct (Cache_Table_spec c d t) as (db' & Hdb' & Htb & Heq & Htables & Hdbs).
  destruct (Cache_Table_lookup c d t) as [Hrows Hsame].
  destruct (Cache_Table c d t) as [tb c'] eqn:HT. simpl in *.
  rewrite Hdb'. simpl. unfold Cache_lookup at 1. simpl.
  destruct (decide (d' = d)) as [->|Hd].
  - rewrite lookup_insert_eq. simpl. destruct (decide (t' = t)) as [->|Ht].
    + rewrite lookup_insert_eq. simpl. destruct (decide (u' = u)) as [->|Hu].
      * rewrite lookup_insert_eq. by rewrite decide_True.
      * rewrite lookup_insert_ne by done. rewrite decide_False by congruence.
        by rewrite Hrows.
    + rewrite lookup_insert_ne by done. rewrite decide_False by congruence.
      rewrite <- (Hsame (mkKey d t' u')). unfold Cache_lookup. simpl. by rewrite Hdb'.
  - rewrite lookup_insert_ne by done. rewrite decide_False by congruence.
    rewrite <- (Hsame (mkKey d' t' u')). done.
Qed.

Lemma Cache_Row_setRow_eq c key :
  Cache_Row c key
  = match Cache_lookup c key with
    | Some row => (row, (Cache_Table c (key_DBName key) (key_TableName key)).2)
    | None => (∅, Cache_setRow c key ∅)
    end.
Proof.
  destruct key as [d t u]. unfold Cache_Row, Cache_setRow. simpl.
  destruct (Cache_Table_lookup c d t) as [Hrows _].
  destruct (Cache_Table c d t) as [tb c'] eqn:HT. simpl in *.
  rewrite <- Hrows. by destruct (tb !! u).
Qed.

Lemma Cache_Row_setRow c key row :
  Cache_Row (Cache_setRow c key row) key = (row, Cache_setRow c key row).
Proof.
  rewrite Cache_Row_setRow_eq, Cache_setRow_lookup, decide_True by done.
  f_equal. destruct key as [d t u]. unfold Cache_setRow. simpl.
  destruct (Cache_Table_spec c d t) as (db' & Hdb' & Htb & Heq & Htables & Hdbs).
  destruct (Cache_Table c d t) as [tb c'] eqn:HT. simpl in *.
  unfold Cache_Table, Cache_Database. rewrite lookup_insert_eq. simpl.
  rewrite lookup_insert_eq. simpl. rewrite Hdb'. done.
Qed.

(** X23: Cache.Row returns the row that was last assigned under its key,
    and an empty row for a key that the cache does not hold, which the
    cache holds from then on; an assignment through the pointer that
    Cache.Row returns, and Cache.Row itself, leave the rows of the other
    keys as they are. *)
Theorem Cache_Row_lookup c key :
  (∀ row, Cache_Row (Cache_setRow c key row) key = (row, Cache_setRow c key row)) ∧
  (Cache_Row c key).1 = default ∅ (Cache_lookup c key) ∧
  Cache_lookup (Cache_Row c key).2 key = Some (default ∅ (Cache_lookup c key)) ∧
  (∀ key' row, key' ≠ key →
     Cache_lookup (Cache_setRow c key row) key' = Cache_lookup c key' ∧
     Cache_lookup (Cache_Row c key).2 key' = Cache_lookup c key').
Proof.
  split; [|split; [|split]].
  - intros row. apply Cache_Row_setRow.
  - rewrite Cache_Row_setRow_eq. by destruct (Cache_lookup c key).
  - rewrite Cache_Row_setRow_eq. destruct (Cache_lookup c key) as [row|] eqn:Hrow; simpl.
    + destruct (Cache_Table_lookup c (key_DBName key) (key_TableName key)) as [_ ->]. done.
    + by rewrite Cache_setRow_lookup, decide_True.
  - intros key' row Hne. rewrite Cache_setRow_lookup, decide_False by done.
    split; [done|]. rewrite Cache_Row_setRow_eq.
    destruct (Cache_lookup c key) as [row'|]; simpl.
    + by destruct (Cache_Table_lookup c (key_DBName key) (key_TableName key)) as [_ ->].
    + by rewrite Cache_setRow_lookup, decide_False.
Qed.

(** ** Loading the cache from a response *)

Section LoadProperties.
Context `{ext : External}.

Lemma GetFromEtcdKV_app c kvs1 kvs2 :
  GetFromEtcdKV c (kvs1 ++ kvs2)
  = match GetFromEtcdKV c kvs1 with
    | (c', Ret _) => GetFromEtcdKV c' kvs2
    | failed => failed
    end.
Proof.
  revert c. induction kvs1 as [|x kvs1 IH]; intros c; [done|].
  cbn [app GetFromEtcdKV]. destruct (NewKeyValue x) as [[key value]|e|]; [apply IH|done..].
Qed.

Lemma GetFromEtcdKV_good c good :
  Forall (λ kv, ∃ key row, NewKeyValue kv = Ret (key, row)) good →
  ∃ c', GetFromEtcdKV c good = (c', Ret tt).
Proof.
  revert c. induction good as [|x good IH]; intros c Hgood; [by exists c|].
  apply Forall_cons in Hgood as [(key & row & Hx) Hgood]. cbn [GetFromEtcdKV].
  rewrite Hx. by apply IH.
Qed.

(** X24: Cache.GetFromEtcdKV assigns the rows of a range response in their
    order, so a key read last holds the last row read for it, and stops at
    the first key-value that does not parse; Cache.GetFromEtcd drops that
    error: the key-values after it in the same response are not loaded, and
    the responses after it are. *)
Theorem GetFromEtcd_skips_malformed c good bad rest responses revision e :
  Forall (λ kv, ∃ key row, NewKeyValue kv = Ret (key, row)) good →
  NewKeyValue bad = Fail e →
  ∃ c', GetFromEtcdKV c good = (c', Ret tt) ∧
        (∀ kv key row, NewKeyValue kv = Ret (key, row) →
           ∃ c'', GetFromEtcdKV c (good ++ [kv]) = (c'', Ret tt) ∧
                  Cache_lookup c'' key = Some row) ∧
        GetFromEtcdKV c (good ++ bad :: rest) = (c', Fail e) ∧
        GetFromEtcd c (Some (mkTxnResponse revision
                               (ResponseRange (good ++ bad :: rest) :: responses)))
        = GetFromEtcd c' (Some (mkTxnResponse revision responses)).
Proof.
  intros Hgood Hbad. destruct (GetFromEtcdKV_good c good Hgood) as [c' Hc'].
  exists c'. split; [done|].
  assert (GetFromEtcdKV c (good ++ bad :: rest) = (c', Fail e)) as Hstop.
  { rewrite GetFromEtcdKV_app, Hc'. cbn [GetFromEtcdKV]. by rewrite Hbad. }
  split; [|split; [done|]].
  - intros kv key row Hkv. exists (Cache_setRow c' key row). split.
    + rewrite GetFromEtcdKV_app, Hc'. cbn [GetFromEtcdKV]. by rewrite Hkv.
    + by rewrite Cache_setRow_lookup, decide_True.
  - unfold GetFromEtcd. simpl. by rewrite Hstop.
Qed.

End LoadProperties.

(** ** The lock of a database *)

(** X25: in a registry whose root mutex and mutex for a database are free,
    Lock takes the mutex of the database and gives the root mutex back;
    Unlock then releases the database, a second Unlock panics, as does an
    Unlock for a database that was never locked, and a Lock for another
    database whose mutex is free succeeds.  A second Lock for the database
    while it is held waits in [db.Lock()] with the root mutex held; while it
    waits, every Lock and every Unlock of the registry waits for the root
    mutex, the Unlock of the database too, and the Lock that waits is not
    woken: no thread of the database can take a step on the registry. *)
Theorem TxnLock_protocol l dbname :
  lock_root l = false → held l dbname = false →
  ∃ l1, TxnLock_Lock l dbname = Acquired l1 ∧
        lock_root l1 = false ∧ held l1 dbname = true ∧
        (∀ other, other ≠ dbname →
           held l1 other = held l other ∧
           (held l other = false → ∃ l2, TxnLock_Lock l1 other = Acquired l2)) ∧
        (∀ other, lock_databases l1 !! other = None → TxnLock_Unlock l1 other = LockPanic) ∧
        (∃ l3, TxnLock_Unlock l1 dbname = Acquired l3 ∧
               lock_root l3 = false ∧ held l3 dbname = false ∧
               TxnLock_Unlock l3 dbname = LockPanic) ∧
        ∃ lw, TxnLock_Lock l1 dbname = Blocked lw ∧
              lock_root lw = true ∧ lock_databases lw = lock_databases l1 ∧
              TxnLock_Lock_wake lw dbname = Blocked lw ∧
              (∀ any, TxnLock_Lock lw any = Blocked lw ∧ TxnLock_Unlock lw any = Blocked lw) ∧
              (∀ heap th heap' th',
                 heap !! th_lock th = Some lw → th_dbname th = dbname →
                 thread_step heap th heap' th' → False).
Proof.
  intros Hroot Hfree. unfold held in Hfree.
  set (databases := match lock_databases l !! dbname with
                    | Some _ => lock_databases l
                    | None => <[dbname := false]> (lock_databases l)
                    end).
  assert (databases !! dbname = Some false) as Hdb.
  { unfold databases. destruct (lock_databases l !! dbname) as [b|] eqn:Hl.
    - simpl in Hfree. by subst.
    - apply lookup_insert_eq. }
  assert (∀ other, other ≠ dbname → databases !! other = lock_databases l !! other) as Hother.
  { intros other Hne. unfold databases. destruct (lock_databases l !! dbname); [done|].
    by apply lookup_insert_ne. }
  exists (mkTxnLock false (<[dbname := true]> databases)).
  split; [|split; [|split; [|split; [|split; [|split]]]]].
  - unfold TxnLock_Lock. rewrite Hroot. fold databases. by rewrite Hdb.
  - done.
  - unfold held. simpl. by rewrite lookup_insert_eq.
  - intros other Hne. unfold held. simpl. rewrite lookup_insert_ne, Hother by done.
    split; [done|]. intros Hfree'. unfold TxnLock_Lock. simpl.
    rewrite lookup_insert_ne, Hother by done.
    destruct (lock_databases l !! other) as [[]|] eqn:Ho; simpl in Hfree'; try done.
    + rewrite lookup_insert_ne, Hother, Ho by done. by eexists.
    + rewrite lookup_insert_eq. by eexists.
  - intros other Hnone. unfold TxnLock_Unlock. simpl in *. by rewrite Hnone.
  - eexists. split.
    + unfold TxnLock_Unlock. simpl. by rewrite lookup_insert_eq.
    + split; [done|]. split.
      * unfold held. simpl. by rewrite lookup_insert_eq.
      * unfold TxnLock_Unlock. simpl. by rewrite lookup_insert_eq.
  - exists (mkTxnLock true (<[dbname := true]> databases)).
    assert (TxnLock_Lock_wake (mkTxnLock true (<[dbname := true]> databases)) dbname
            = Blocked (mkTxnLock true (<[dbname := true]> databases))) as Hwake.
    { unfold TxnLock_Lock_wake. simpl. by rewrite lookup_insert_eq. }
    split; [|split; [done|split; [done|split; [done|split; [done|]]]]].
    + unfold TxnLock_Lock. simpl. by rewrite !lookup_insert_eq.
    + intros heap th heap' th' Hheap Hth Hstep.
      destruct Hstep as [heap th l0 l' Hphase Hl0 Hacq | heap th l0 l' Hphase Hl0 Hroot0 Hwait
                         | heap th l0 l' Hphase Hl0 Hacq | heap th l0 l' Hphase Hl0 Hacq];
        rewrite Hheap in Hl0; injection Hl0 as <-; try done.
      rewrite Hth, Hwake in Hacq. done.
Qed.

(** The registry of a new transaction: a second Lock waits with the root
    mutex held, and the Unlock that would release the database waits for the
    root mutex. *)
Lemma TxnLock_protocol_witness :
  ∃ l1 l3 lw, TxnLock_Lock NewTxnLock "simple" = Acquired l1 ∧
              TxnLock_Unlock l1 "simple" = Acquired l3 ∧
              TxnLock_Unlock l3 "simple" = LockPanic ∧
              TxnLock_Lock l1 "simple" = Blocked lw ∧
              lock_root lw = true ∧
              TxnLock_Unlock lw "simple" = Blocked lw.
Proof.
  destruct (TxnLock_protocol NewTxnLock "simple")
    as (l1 & H1 & _ & _ & _ & _ & (l3 & H3 & _ & _ & H4) & lw & H5 & H6 & _ & _ & H7 & _);
    [reflexivity | reflexivity |].
  exists l1, l3, lw. repeat split; try done. apply H7.
Defined.

(** ** Two inserts under one name *)

Section InsertProperties.
Context `{ext : External}.

(** X21: of two inserts with the same uuid-name, preInsert of the first
    reserves the name, for the uuid of the operation or a generated one, and
    preInsert of the second fails with [duplicate uuid-name] and leaves the
    transaction as the first left it. *)
Theorem preInsert_same_name w txn op1 op2 r1 r2 uuidName table :
  o_UUIDName op1 = Some uuidName → o_UUIDName op2 = Some uuidName →
  o_Table op1 = Some table → mapUUID txn !! uuidName = None →
  ∃ w1 txn1 w2,
    preInsert w txn op1 r1 = Some (w1, txn1, op1, r1, None) ∧
    mapUUID txn1 !! uuidName = Some (default (GenerateUUID w).1 (o_UUID op1)) ∧
    preInsert w1 txn1 op2 r2 = Some (w2, txn1, op2, r2, Some E_DUP_UUIDNAME).
Proof.
  intros Hname1 Hname2 Htable Hfree.
  pose proof (preInsert_reserves w txn op1 r1 uuidName table Hname1 Hfree Htable) as Hfirst.
  simpl in Hfirst. eexists _, _, _. split; [exact Hfirst|].
  assert (mapUUID (etcdGetData
            (set_mapUUID (<[uuidName := default (GenerateUUID w).1 (o_UUID op1)]> (mapUUID txn))
                         txn)
            (NewTableKey (t_DBName (request txn)) table)) !! uuidName
          = Some (default (GenerateUUID w).1 (o_UUID op1))) as Hreserved
    by (simpl; apply lookup_insert_eq).
  split; [exact Hreserved|].
  by apply (preInsert_duplicate _ _ op2 r2 uuidName _ Hname2 Hreserved).
Qed.

End InsertProperties.

(** Two inserts into table1 under the name [row1]. *)
Lemma preInsert_same_name_witness :
  let insert := mkOperation OP_INSERT (Some "table1") (Some {[ "key1" := VString "val1" ]})
                            None None None None None None None None None (Some "row1") in
  let txn := AddSchema Example.testSchemaSimple
               (NewTransaction (mkTransact "simple" [insert; insert])) in
  ∃ w1 txn1 w2,
    preInsert (ext := Example.external) (Example.mkWorld 0 []) txn insert emptyResult
    = Some (w1, txn1, insert, emptyResult, None) ∧
    preInsert (ext := Example.external) w1 txn1 insert emptyResult
    = Some (w2, txn1, insert, emptyResult, Some E_DUP_UUIDNAME).
Proof.
  intros insert txn.
  destruct (preInsert_same_name (ext := Example.external) (Example.mkWorld 0 []) txn
              insert insert emptyResult emptyResult "row1" "table1")
    as (w1 & txn1 & w2 & H1 & _ & H2); [reflexivity..|].
  by exists w1, txn1, w2.
Defined.

(** ** What Commit returns *)

Section CommitReturns.
Context `{ext : External}.

Lemma Commit_pass_error phase indices w txn w' txn' e :
  Commit_pass phase indices w txn = Some (w', txn', Some e) →
  tr_Error (response txn') = Some e.
Proof.
  revert w txn. induction indices as [|i indices IH]; intros w txn; [done|].
  cbn [Commit_pass].
  destruct (t_Operations (request txn) !! i) as [ovsOp|]; cbn [mbind option_bind]; [|done].
  destruct (tr_Result (response txn) !! i) as [ovsResult|]; cbn [mbind option_bind]; [|done].
  destruct (ovsOpCallbackMap (o_Op ovsOp)) as [callbacks|]; cbn [mbind option_bind]; [|done].
  destruct (phase callbacks w txn ovsOp ovsResult) as [[[[[w1 txn1] ovsOp1] ovsResult1] err]|];
    cbn [mbind option_bind]; [|done].
  destruct err as [errStr|].
  - by intros [= <- <- <-].
  - destruct (Cache_Validate _ _); [apply IH|done..].
Qed.

Lemma etcdTranaction_Ret w txn w' txn' res :
  etcdTranaction w txn = (w', txn', Ret res) → Res (etcd txn') = Some res.
Proof.
  unfold etcdTranaction.
  destruct (Etcd_Commit w (etcd txn)) as [[w1 etcd1] [[]|e|]]; [|by intros [=]..].
  destruct (GetFromEtcd _ _) as [c|]; [|by intros [=]].
  destruct (Cache_Unmarshal c _) as [c1 [[]|e|]]; [|by intros [=]..].
  destruct (Cache_Validate c1 _) as [[]|e|]; [|by intros [=]..].
  destruct (Res etcd1) as [res1|] eqn:Hres; [|by intros [=]].
  by intros [= <- <- <-].
Qed.

Lemma Commit_locked_returns w txn w' txn' revision err :
  Commit_locked w txn = Some (w', txn', revision, err) →
  match err with
  | Some e => revision = -1 ∧ tr_Error (response txn') = Some e
  | None => ∃ res, Res (etcd txn') = Some res ∧ revision = Revision res
  end.
Proof.
  unfold Commit_locked.
  destruct (hasSelectAndOther _) as [hasSelect hasOther].
  destruct (hasSelect && hasOther); [by intros [= <- <- <- <-]|].
  destruct (set_txn_etcd_Clear txn) as [txn0|]; [|done]. cbn [mbind option_bind].
  destruct (Commit_pass fst _ w txn0) as [[[w1 txn1] err1]|] eqn:Hpre; [|done].
  cbn [mbind option_bind]. destruct err1 as [e1|].
  { intros [= <- <- <- <-]. split; [done|]. by eapply Commit_pass_error. }
  destruct (etcdTranaction w1 txn1) as [[w2 txn2] [res2|e2|]]; [| |done].
  2: { by intros [= <- <- <- <-]. }
  destruct (set_txn_etcd_Clear txn2) as [txn3|]; [|done]. cbn [mbind option_bind].
  destruct (Commit_pass snd _ w2 txn3) as [[[w4 txn4] err4]|] eqn:Hdo; [|done].
  cbn [mbind option_bind]. destruct err4 as [e4|].
  { intros [= <- <- <- <-]. split; [done|]. by eapply Commit_pass_error. }
  destruct (etcdRemoveDup (etcd txn4)) as [etcd5|]; [|done]. cbn [mbind option_bind].
  destruct (etcdTranaction w4 (set_etcd etcd5 txn4)) as [[w6 txn6] [res6|e6|]] eqn:Hsubmit;
    [| |done].
  - intros [= <- <- <- <-]. exists res6. split; [|done]. by eapply etcdTranaction_Ret.
  - by intros [= <- <- <- <-].
Qed.

(** X29: whenever Commit returns an error, the revision it returns is -1
    and the response carries the text of that error; whenever it returns
    without error, the revision is the one of the response of the backend to
    the last batch, which the buffer holds. *)
Theorem Commit_returns w txn w' txn' revision err :
  Commit w txn = Some (w', txn', revision, err) →
  match err with
  | Some e => revision = -1 ∧ tr_Error (response txn') = Some e
  | None => ∃ res, Res (etcd txn') = Some res ∧ revision = Revision res
  end.
Proof.
  unfold Commit. destruct (TxnLock_Lock _ _) as [l| |]; [|done..].
  destruct (Commit_locked w (set_lock l txn)) as [[[[w1 txn1] revision1] err1]|] eqn:Hlocked;
    [|done].
  cbn [mbind option_bind]. destruct (TxnLock_Unlock _ _) as [l'| |]; [|done..].
  intros [= <- <- <- <-]. apply Commit_locked_returns in Hlocked.
  by destruct err1.
Qed.

(** X28: an operation whose name is none of the ten operations has no
    callbacks, and Commit panics when it dispatches it: a request that
    starts with such an operation, and holds no select, does not return. *)
Theorem Commit_unknown_operation w txn ovsOp rest :
  t_Operations (request txn) = ovsOp :: rest →
  ovsOpCallbackMap (o_Op ovsOp) = None →
  Forall (λ other, o_Op other ≠ OP_SELECT) rest →
  Commit w txn = None.
Proof.
  intros Hops Hunknown Hrest. unfold Commit.
  destruct (TxnLock_Lock _ _) as [l| |]; [|done..].
  assert (Commit_locked w (set_lock l txn) = None) as ->; [|done].
  unfold Commit_locked. change (request (set_lock l txn)) with (request txn).
  rewrite Hops, hasSelectAndOther_spec.
  assert (existsb (λ ovsOp, bool_decide (o_Op ovsOp = OP_SELECT)) (ovsOp :: rest) = false) as ->.
  { simpl. rewrite bool_decide_eq_false_2.
    - simpl. clear -Hrest. induction Hrest as [|other rest Hother _ IH]; [done|].
      simpl. by rewrite bool_decide_eq_false_2.
    - intros Hsel. by rewrite Hsel in Hunknown. }
  cbn [andb]. cbn [set_txn_etcd_Clear Etcd_Clear Etcd_Assert mbind option_bind].
  simpl. rewrite Hops. simpl.
  destruct (tr_Result (response txn) !! 0%nat); [|done]. simpl. by rewrite Hunknown.
Qed.

End CommitReturns.

(** The request of one operation [frobnicate]. *)
Lemma Commit_unknown_operation_witness :
  Commit (ext := Example.external) (Example.mkWorld 0 [])
    (AddSchema Example.testSchemaSimple
       (NewTransaction (mkTransact "simple" [Example.noOperation "frobnicate"])))
  = None.
Proof.
  apply (Commit_unknown_operation (ext := Example.external) _ _
           (Example.noOperation "frobnicate") []); [reflexivity | reflexivity | constructor].
Defined.

(** An abort: the revision is -1 and the response says [aborted]. *)
Lemma Commit_returns_witness :
  ∃ w' txn',
    scenario [Example.noOperation OP_ABORT] = Some (w', txn', -1, Some E_ABORTED) ∧
    tr_Error (response txn') = Some E_ABORTED.
Proof.
  assert (∃ w' txn', scenario [Example.noOperation OP_ABORT]
                     = Some (w', txn', -1, Some E_ABORTED)) as (w' & txn' & Hrun)
    by (eexists _, _; vm_compute; reflexivity).
  exists w', txn'. split; [exact Hrun|].
  exact (proj2 (Commit_returns (ext := Example.external) _ _ _ _ _ _ Hrun)).
Defined.

(** ** doDelete *)

Section DeleteProperties.
Context `{ext : External}.

Lemma Cache_Row_held c key row :
  Cache_lookup c key = Some row →
  (Cache_Row c key).1 = row ∧ ∀ key', Cache_lookup (Cache_Row c key).2 key' = Cache_lookup c key'.
Proof.
  intros Hrow. rewrite Cache_Row_setRow_eq, Hrow. split; [done|]. intros key'. simpl.
  by destruct (Cache_Table_lookup c (key_DBName key) (key_TableName key)) as [_ ->].
Qed.

Lemma r_Count_IncrementCount n ovsResult count :
  r_Count ovsResult = Some count →
  r_Count (Nat.iter n IncrementCount ovsResult) = Some (count + Z.of_nat n).
Proof.
  intros Hcount. induction n as [|n IH].
  - simpl. rewrite Hcount. f_equal. lia.
  - rewrite Nat.iter_succ. simpl. rewrite IH. simpl. f_equal. lia.
Qed.

(** The loop of doDelete over rows that the cache holds: one delete and one
    delete event for every selected row, in the order of the rows, and the
    cache is left as it was. *)
Lemma doDelete_loop_deletes tableSchema table rows txn ovsOp ovsResult :
  let key uuid := NewDataKey (t_DBName (request txn)) table uuid in
  (∀ entry, entry ∈ rows →
     ∃ ok, isRowSelectedByWhere tableSchema (mapUUID txn) entry.2 (o_Where ovsOp) = Ret ok) →
  (∀ entry, entry ∈ rows →
     Cache_lookup (cache txn) (key entry.1) = Some entry.2 ∧
     ∃ prevVal, makeValue entry.2 = Ret prevVal) →
  pairing (etcd txn) →
  let selected :=
    filter (λ entry, selects tableSchema (mapUUID txn) (o_Where ovsOp) entry = true) rows in
  ∃ txn' newEvents,
    doDelete_loop tableSchema table rows txn ovsOp ovsResult
    = Some (txn', Nat.iter (length selected) IncrementCount ovsResult, None) ∧
    Then (etcd txn')
    = Then (etcd txn) ++ ((λ entry, OpDelete (Key_String (key entry.1))) <$> selected) ∧
    Events (etcd txn') = Events (etcd txn) ++ newEvents ∧
    Forall2 (λ curr entry,
               ∃ prevVal, makeValue entry.2 = Ret prevVal ∧
                          curr = Some (etcdEventDelete (Key_String (key entry.1)) prevVal))
            newEvents selected ∧
    (∀ key', Cache_lookup (cache txn') key' = Cache_lookup (cache txn) key') ∧
    pairing (etcd txn').
Proof.
  intros key. revert txn key ovsResult.
  induction rows as [|[uuid row] rows IH]; intros txn key ovsResult Hwhere Hheld Hpaired selected.
  - exists txn, []. simpl. rewrite !app_nil_r.
    split; [done|]. split; [done|]. split; [done|]. split; [constructor|]. by split.
  - destruct (Hwhere (uuid, row)) as [ok Hok]; [left|]. simpl in Hok.
    assert (∀ entry, entry ∈ rows →
              ∃ ok, isRowSelectedByWhere tableSchema (mapUUID txn) entry.2 (o_Where ovsOp)
                    = Ret ok) as Hwhere' by (intros entry ?; apply Hwhere; by right).
    cbn [doDelete_loop]. rewrite Hok. destruct ok; cbn [negb].
    + destruct (Hheld (uuid, row)) as [Hrow [prevVal Hprev]]; [left|]. simpl in Hrow, Hprev.
      destruct (Cache_Row_held _ _ _ Hrow) as [Hfst Hsnd].
      unfold etcdDeleteRow.
      change (cache (appendThen (OpDelete (Key_String (NewDataKey (t_DBName (request txn))
                                                         table uuid))) txn))
        with (cache txn).
      fold (key uuid). destruct (Cache_Row (cache txn) (key uuid)) as [prevRow c] eqn:HCR.
      simpl in Hfst, Hsnd. subst prevRow. rewrite Hprev.
      set (txn1 := appendEvent (Some (etcdEventDelete (Key_String (key uuid)) prevVal))
                     (set_cache c (appendThen (OpDelete (Key_String (key uuid))) txn))).
      assert (pairing (etcd txn1)) as Hpaired1.
      { revert Hpaired. unfold pairing. simpl. rewrite !len_app. unfold len. simpl. lia. }
      apply Etcd_Assert_pairing in Hpaired1 as Hassert. rewrite Hassert.
      cbn [mbind option_bind].
      destruct (IH txn1 (IncrementCount ovsResult))
        as (txn' & newEvents & Hrun & HThen & HEvents & Hall & Hcache & Hpaired'); [done| |done|].
      { intros entry Hin. destruct (Hheld entry) as [Hentry Hval]; [by right|].
        split; [|done]. simpl. by rewrite Hsnd. }
      exists txn', (Some (etcdEventDelete (Key_String (key uuid)) prevVal) :: newEvents).
      unfold selected. rewrite filter_cons_True by (unfold selects; simpl; by rewrite Hok).
      split.
      { simpl in Hrun. rewrite Hrun. cbn [length]. by rewrite Nat.iter_succ_r. }
      split; [rewrite HThen; simpl; by rewrite <- app_assoc|].
      split; [rewrite HEvents; simpl; by rewrite <- app_assoc|].
      split; [constructor; [by exists prevVal | done]|].
      split; [|done]. intros key'. rewrite Hcache. simpl. apply Hsnd.
    + destruct (IH txn ovsResult)
        as (txn' & newEvents & Hrun & HThen & HEvents & Hall & Hcache & Hpaired');
        [done | by intros entry ?; apply Hheld; right | done |].
      exists txn', newEvents. unfold selected.
      rewrite filter_cons_False by (unfold selects; simpl; by rewrite Hok). done.
Qed.

(** X30: when the table is known, the where clause evaluates on the cached
    rows and these marshal, doDelete appends one delete for every selected
    row, with a delete event that carries the cached row, keeps the buffer
    paired and reports the number of selected rows.  It takes no row out of
    the cache: the operations that follow in the transaction still see the
    deleted rows. *)
Theorem doDelete_deletes w txn ovsOp ovsResult table tableSchema :
  o_Table ovsOp = Some table →
  LookupTable (schemas txn) (t_DBName (request txn)) table = Ret tableSchema →
  let key uuid := NewDataKey (t_DBName (request txn)) table uuid in
  let tableCache := (Cache_Table (cache txn) (t_DBName (request txn)) table).1 in
  (∀ uuid row, tableCache !! uuid = Some row →
     (∃ ok, isRowSelectedByWhere tableSchema (mapUUID txn) row (o_Where ovsOp) = Ret ok) ∧
     ∃ prevVal, makeValue row = Ret prevVal) →
  pairing (etcd txn) →
  let selected :=
    filter (λ entry, selects tableSchema (mapUUID txn) (o_Where ovsOp) entry = true)
           (map_to_list tableCache) in
  ∃ txn' result newEvents,
    doDelete w txn ovsOp ovsResult = Some (w, txn', ovsOp, result, None) ∧
    r_Count result = Some (len selected) ∧
    Then (etcd txn')
    = Then (etcd txn) ++ ((λ entry, OpDelete (Key_String (key entry.1))) <$> selected) ∧
    Events (etcd txn') = Events (etcd txn) ++ newEvents ∧
    Forall2 (λ curr entry,
               ∃ prevVal, makeValue entry.2 = Ret prevVal ∧
                          curr = Some (etcdEventDelete (Key_String (key entry.1)) prevVal))
            newEvents selected ∧
    (∀ key', Cache_lookup (cache txn') key' = Cache_lookup (cache txn) key') ∧
    pairing (etcd txn').
Proof.
  intros Htable Hlookup key tableCache Hrows Hpaired selected. unfold doDelete.
  rewrite Htable. cbn [mbind option_bind]. rewrite Hlookup.
  destruct (Cache_Table_lookup (cache txn) (t_DBName (request txn)) table) as [Hfst Hsnd].
  subst selected tableCache.
  destruct (Cache_Table (cache txn) (t_DBName (request txn)) table) as [tableCache c].
  simpl in Hrows, Hfst, Hsnd.
  destruct (doDelete_loop_deletes tableSchema table (map_to_list tableCache)
              (set_cache c txn) ovsOp (InitCount ovsResult))
    as (txn' & newEvents & Hrun & HThen & HEvents & Hall & Hcache & Hpaired').
  - intros [uuid row] Hin%elem_of_map_to_list. by destruct (Hrows uuid row Hin).
  - intros [uuid row] Hin%elem_of_map_to_list. simpl. split.
    + by rewrite Hsnd, <- Hfst.
    + by destruct (Hrows uuid row Hin).
  - done.
  - simpl in *. rewrite Hrun. cbn [mbind option_bind].
    eexists txn', _, newEvents. split; [reflexivity|].
    split; [|split; [done|split; [done|split; [done|split; [|done]]]]].
    + erewrite r_Count_IncrementCount; [|reflexivity]. done.
    + intros key'. by rewrite Hcache, Hsnd.
Qed.

End DeleteProperties.

(** ** The event of a mutated row *)

Section MutateProperties.
Context `{ext : External}.


End MutateProperties.


(** ** doInsert *)

Section DoInsertProperties.
Context `{ext : External}.



End DoInsertProperties.

(** ** Examples on the cache, the inserts and the deletes *)

(** A range response of three key-values whose second does not parse: the
    first row is loaded, the third is not, and no error is reported. *)
Lemma GetFromEtcd_skips_malformed_witness :
  let kvs := [mkKeyValue "u1" "a" 1 1; mkKeyValue "" "b" 1 1; mkKeyValue "u3" "c" 1 1] in
  ∃ c, GetFromEtcd (ext := ExampleStore.external) ∅
         (Some (mkTxnResponse 1 [ResponseRange kvs])) = Some c ∧
       Cache_lookup c (mkKey "simple" "table1" "u1") = Some {[ "key1" := VString "a" ]} ∧
       Cache_lookup c (mkKey "simple" "table1" "u3") = None.
Proof.
  intros kvs.
  destruct (GetFromEtcd_skips_malformed (ext := ExampleStore.external) ∅
              [mkKeyValue "u1" "a" 1 1] (mkKeyValue "" "b" 1 1) [mkKeyValue "u3" "c" 1 1]
              [] 1 "empty key")
    as (c & Hgood & _ & _ & Hrun).
  - apply Forall_singleton. by eexists _, _.
  - reflexivity.
  - exists c. split; [exact Hrun|]. injection Hgood as <-. split; reflexivity.
Defined.


(** A delete on table1 without a where clause, with one row in the cache:
    one delete is appended, one row is counted, and the cache still holds
    the row. *)
Lemma doDelete_deletes_witness :
  let ovsOp := mkOperation OP_DELETE (Some "table1") None None None None None None
                           None None None None None in
  let txn0 := AddSchema Example.testSchemaSimple (NewTransaction (mkTransact "simple" [ovsOp])) in
  let row : Row := {[ "key1" := VString "val1" ]} in
  let txn := set_cache {[ "simple" := {[ "table1" := {[ "u1" := row ]} ]} ]} txn0 in
  ∃ txn' result,
    doDelete (ext := Example.external) (Example.mkWorld 0 []) txn ovsOp emptyResult
    = Some (Example.mkWorld 0 [], txn', ovsOp, result, None) ∧
    r_Count result = Some 1 ∧
    Then (etcd txn') = [OpDelete "ovsdb/nb/simple/table1/u1"] ∧
    Cache_lookup (cache txn') (mkKey "simple" "table1" "u1") = Some row.
Proof.
  intros ovsOp txn0 row txn.
  destruct (doDelete_deletes (ext := Example.external) (Example.mkWorld 0 []) txn ovsOp
              emptyResult "table1"
              (mkTableSchema {[ "key1" := mkColumnSchema TypeString None None;
                                "key2" := mkColumnSchema TypeInteger None None ]}))
    as (txn' & result & newEvents & Hrun & Hcount & HThen & _ & _ & Hcache & _).
  - reflexivity.
  - reflexivity.
  - intros uuid row' _. split; [by exists true | by eexists].
  - reflexivity.
  - exists txn', result. split; [exact Hrun|].
    split; [exact Hcount|]. split; [exact HThen|]. apply Hcache.
Defined.

(** Two transactions on one registry and one database: after the first has
    locked, one thread is inside Commit, and no two are. *)
Lemma shared_registry_excludes_witness :
  let requests := [mkTransact "simple" []; mkTransact "simple" []] in
  let threads := sharedTransaction_lock 0 <$> requests in
  ∃ st, rtc system_step ([NewTxnLock], threads) st ∧
        inCommit st.2 = 1%nat ∧ (overlap st.2 → False).
Proof.
  intros requests threads.
  assert (∃ st, rtc system_step ([NewTxnLock], threads) st ∧ inCommit st.2 = 1%nat)
    as (st & Hsteps & Hone).
  { eexists. split.
    - apply rtc_once.
      apply (system_step_Lock _ _ 0%nat (mkThread 0 "simple" BeforeLock) NewTxnLock);
        [reflexivity | reflexivity | reflexivity | apply TxnLock_Lock_fresh].
    - reflexivity. }
  exists st. split; [exact Hsteps|]. split; [exact Hone|].
  apply (shared_registry_excludes [NewTxnLock] 0%nat "simple" requests st).
  - reflexivity.
  - by repeat constructor.
  - exact Hsteps.
Defined.
